(** * Zimcoin consensus core: a shallow embedding of the Python sources

    The development follows the repository file by file:
    - [blockchain_utils.py]: hashing helpers and key (de)serialisation;
    - [transactions.py]: [Transaction] and [Transaction.verify];
    - [blocks.py]: [UserState], [Block], [mine_block];
    - [chain.py]: [BlockchainState] and [verify_reorg].

    Python objects that are mutated through several references (the
    [UserState] instances stored in the account dictionaries) live in an
    explicit store; dictionaries map addresses to store locations, so that a
    shallow copy of a dictionary shares its [UserState] objects with the
    original while a deep copy does not. *)

From Stdlib Require Import ZArith Lia Bool.
From Stdlib Require Import Init.Byte.
From stdpp Require Import gmap fin_maps countable.
From stdpp Require Import base option list.

Local Open Scope Z_scope.

(** ** Byte strings *)

Abbreviation bytes := (list byte).

Global Instance byte_eq_dec : EqDecision byte.
Proof. intros x y. unfold Decision. apply Byte.byte_eq_dec. Defined.

Global Instance byte_countable : Countable byte :=
  inj_countable Byte.to_N Byte.of_N Byte.of_to_N.

Definition byte_of_Z (z : Z) : byte :=
  match Byte.of_N (Z.to_N z) with
  | Some b => b
  | None => x00
  end.

Definition Z_of_byte (b : byte) : Z := Z.of_N (Byte.to_N b).

(** [bytes(n)]: [n] zero bytes. *)
Definition zero_bytes (n : nat) : bytes := replicate n x00.

(** [len(b)] as a Python integer. *)
Definition len {A} (l : list A) : Z := Z.of_nat (length l).

(** ** Exceptions

    Every [assert] of the sources carries a message; the messages are kept
    as a closed enumeration. *)

Inductive assertion :=
  | SenderHashLength | SenderHashMismatch | RecipientHashLength
  | AmountNotWhole | AmountOutOfRange | FeeNotWhole | FeeOutOfRange
  | InvalidNonce | TxidMismatch
  | IncorrectDifficulty | BlockIdMismatch | TooManyTransactions
  | MinerHashLength | InvalidProofOfWork
  | WrongHeight | WrongPrevious | WrongTimestamp | LowerTotalDifficulty
  | NoMessage.

Inductive exn :=
  | AssertionError (a : assertion)
  | InvalidSignature
  | OverflowError
  | ZeroDivisionError
  | ValueError
  | KeyError
  | IndexError.

(** ** A state-and-exception monad

    [M S A] is a computation over a mutable state [S] that either returns an
    [A] or raises; the state reached when the exception was raised is kept,
    because Python does not roll anything back. *)

Definition M (S A : Type) : Type := S → S * (exn + A).

Definition ret {S A} (a : A) : M S A := λ s, (s, inr a).
Definition raise {S A} (e : exn) : M S A := λ s, (s, inl e).
Definition bind {S A B} (m : M S A) (k : A → M S B) : M S B :=
  λ s, match m s with
       | (s', inr a) => k a s'
       | (s', inl e) => (s', inl e)
       end.
Definition lift {S A} (r : exn + A) : M S A := λ s, (s, r).
Definition assert_ {S} (b : bool) (a : assertion) : M S unit :=
  if b then ret tt else raise (AssertionError a).

Declare Scope py_scope.
Delimit Scope py_scope with py.
Notation "'let!' x ':=' m 'in' k" := (bind m (λ x, k))
  (at level 10, x pattern, m at level 100, k at level 200) : py_scope.
Notation "m ';;;' k" := (bind m (λ _, k))
  (at level 100, k at level 200, right associativity) : py_scope.

(** Pure fallible code (no store) uses the sum type directly. *)
Definition ebind {A B} (r : exn + A) (k : A → exn + B) : exn + B :=
  match r with inr a => k a | inl e => inl e end.
Definition eassert (b : bool) (a : assertion) : exn + unit :=
  if b then inr tt else inl (AssertionError a).
Notation "'try!' x ':=' r 'in' k" := (ebind r (λ x, k))
  (at level 10, x pattern, r at level 100, k at level 200) : py_scope.

Local Open Scope py_scope.

(** ** Integer / bytes conversions *)

(** [int.to_bytes(width, 'little')]: raises [OverflowError] on a negative
    integer or one that does not fit. *)
Fixpoint le_digits (width : nat) (z : Z) : bytes :=
  match width with
  | O => []
  | S w => byte_of_Z (z mod 256) :: le_digits w (z / 256)
  end.

Definition to_bytes_little (width : nat) (z : Z) : exn + bytes :=
  if (0 <=? z) && (z <? 2 ^ (8 * Z.of_nat width))
  then inr (le_digits width z)
  else inl OverflowError.

(** [int.from_bytes(b, "big")]. *)
Definition int_from_bytes_big (b : bytes) : Z :=
  fold_left (λ acc x, acc * 256 + Z_of_byte x) b 0.

(** ** Python true division of integers

    [a / b] on two [int]s is true division: the result is the IEEE 754
    binary64 number nearest to the exact quotient (ties to even), computed
    from the integers themselves and not from their float conversions.  A
    finite float is represented exactly by [mantissa * 2 ^ exponent]. *)

Record float := mkFloat { mantissa : Z; exponent : Z }.

Definition round_half_even (n d : Z) : Z :=
  let q := n / d in
  let r := n mod d in
  if (d <? 2 * r) || ((d =? 2 * r) && Z.odd q) then q + 1 else q.

(** Quotient of [a] by [b * 2 ^ e], for an exponent of either sign. *)
Definition scaled_floor (a b e : Z) : Z :=
  if 0 <=? e then a / (b * 2 ^ e) else (a * 2 ^ (- e)) / b.
Definition scaled_round (a b e : Z) : Z :=
  if 0 <=? e then round_half_even a (b * 2 ^ e)
  else round_half_even (a * 2 ^ (- e)) b.

(** True division of positive integers: the exponent is chosen so that the
    truncated quotient has 53 bits (or is the subnormal exponent -1074),
    then the quotient at that scale is rounded half to even. *)
Definition true_divide_pos (a b : Z) : exn + float :=
  let e0 := Z.log2 a - Z.log2 b - 52 in
  let e1 := if scaled_floor a b e0 <? 2 ^ 52 then e0 - 1 else e0 in
  let e := Z.max e1 (-1074) in
  let m := scaled_round a b e in
  if 1024 <? Z.log2 m + 1 + e then inl OverflowError
  else inr (mkFloat m e).

Definition true_divide (a b : Z) : exn + float :=
  if b =? 0 then inl ZeroDivisionError
  else if a =? 0 then inr (mkFloat 0 0)
  else
    try! f := true_divide_pos (Z.abs a) (Z.abs b) in
    inr (mkFloat (Z.sgn a * Z.sgn b * mantissa f) (exponent f)).

(** [x <= f] for an [int] [x] and a [float] [f]: Python compares the two
    numbers exactly. *)
Definition int_le_float (x : Z) (f : float) : bool :=
  if 0 <=? exponent f then x <=? mantissa f * 2 ^ exponent f
  else x * 2 ^ (- exponent f) <=? mantissa f.


(** ** The proof-of-work test

    [blocks.py] line 179 and lines 248/274 evaluate the same expression:
    [int.from_bytes(digest, "big") <= (2**256)/difficulty], with [/] the
    true division above. *)

Definition pow_target (difficulty : Z) : exn + float :=
  true_divide (2 ^ 256) difficulty.

Definition pow_test (digest : bytes) (target : float) : bool :=
  int_le_float (int_from_bytes_big digest) target.

(** ** [UserState] objects and the object store ([blocks.py], lines 13-73) *)

Record UserState := mkUserState { balance : Z; nonce : Z }.

(** [UserState.earn] and [UserState.spend] compute the new field values
    and return them; they do not assign. *)
Definition earn (self : UserState) (amount : Z) (undo : bool) : Z :=
  if negb undo then balance self + amount else balance self - amount.

Definition spend (self : UserState) (amount : Z) (undo : bool) : Z * Z :=
  if negb undo then (balance self - amount, nonce self + 1)
  else (balance self + amount, nonce self - 1).

(** [UserState(0, -1)], the value built by the [defaultdict] factory. *)
Definition default_user_state : UserState := mkUserState 0 (-1).

Global Instance UserState_inhabited : Inhabited UserState :=
  populate default_user_state.

(** The store holds every [UserState] object ever created; a location is
    an index into it and objects are never freed. *)
Abbreviation loc := nat.
Abbreviation heap := (list UserState).

(** A dictionary from addresses to [UserState] references. A plain [dict]
    has no factory; a [defaultdict] builds a new object from its factory on
    a missing key. *)
Record PyDict := mkDict {
  items : gmap bytes loc;
  default_factory : option UserState;
}.

Definition new_object (u : UserState) : M heap loc :=
  λ h, (h ++ [u], inr (length h)).

Definition load (l : loc) : M heap UserState :=
  λ h, (h, inr (h !!! l)).

(** [obj.balance = v] and [obj.nonce = v]. *)
Definition set_balance (l : loc) (v : Z) : M heap unit :=
  λ h, (<[l := mkUserState v (nonce (h !!! l))]> h, inr tt).

Definition set_nonce (l : loc) (v : Z) : M heap unit :=
  λ h, (<[l := mkUserState (balance (h !!! l)) v]> h, inr tt).

(** [d[k]]: on a missing key a [defaultdict] stores and returns a new
    object, a [dict] raises [KeyError]. The dictionary is threaded
    through because the lookup may add the key. *)
Definition getitem (d : PyDict) (k : bytes) : M heap (PyDict * loc) :=
  match items d !! k with
  | Some l => ret (d, l)
  | None =>
      match default_factory d with
      | Some u =>
          let! l := new_object u in
          ret (mkDict (<[k := l]> (items d)) (default_factory d), l)
      | None => raise KeyError
      end
  end.

(** The statement [d[k].balance = d[k].earn(amount, undo)]: the right-hand
    side is evaluated first, then the target. *)
Definition earn_into (d : PyDict) (k : bytes) (amount : Z) (undo : bool)
  : M heap PyDict :=
  let! (d, l) := getitem d k in
  let! u := load l in
  let updated_balance := earn u amount undo in
  let! (d, l') := getitem d k in
  set_balance l' updated_balance ;;;
  ret d.

(** The statement
    [d[k].balance, d[k].nonce = d[k].spend(amount, undo)]. *)
Definition spend_into (d : PyDict) (k : bytes) (amount : Z) (undo : bool)
  : M heap PyDict :=
  let! (d, l) := getitem d k in
  let! u := load l in
  let '(updated_balance, updated_nonce) := spend u amount undo in
  let! (d, l1) := getitem d k in
  set_balance l1 updated_balance ;;;
  let! (d, l2) := getitem d k in
  set_nonce l2 updated_nonce ;;;
  ret d.

(** [copy.deepcopy] of a dictionary: every value is copied into a new
    object; the memo makes two keys that shared an object share its copy. *)
Fixpoint deepcopy_items (es : list (bytes * loc)) (memo : gmap loc loc)
    (acc : gmap bytes loc) : M heap (gmap bytes loc) :=
  match es with
  | [] => ret acc
  | (k, l) :: es' =>
      match memo !! l with
      | Some l' => deepcopy_items es' memo (<[k := l']> acc)
      | None =>
          let! u := load l in
          let! l' := new_object u in
          deepcopy_items es' (<[l := l']> memo) (<[k := l']> acc)
      end
  end.

Definition deepcopy (d : PyDict) : M heap PyDict :=
  let! its := deepcopy_items (map_to_list (items d)) ∅ ∅ in
  ret (mkDict its (default_factory d)).

(** A [for] loop threading a local variable. *)
Fixpoint for_each {S A X} (xs : list X) (body : X → A → M S A) (a : A)
  : M S A :=
  match xs with
  | [] => ret a
  | x :: xs' => let! a' := body x a in for_each xs' body a'
  end.

(** Negative indexing [l[-i]]; [l[-0]] is [l[0]]. *)
Definition index_from_end {A} (l : list A) (i : nat) : exn + A :=
  if decide (i ≤ length l)%nat then
    match l !! (match i with O => O | S _ => length l - i end)%nat with
    | Some x => inr x
    | None => inl IndexError
    end
  else inl IndexError.
Global Arguments index_from_end : simpl never.

(** The slice [l[-n::]] for [n >= 1]: the last [n] elements, or all of
    [l] when it is shorter. *)
Definition slice_from_end {A} (l : list A) (n : nat) : list A :=
  drop (length l - n)%nat l.

(** ** External cryptographic primitives ([cryptography] package)

    The hash functions, the DER codec and ECDSA verification are library
    code; the development is parametric in them. *)

Class Crypto := {
  (** an elliptic-curve public key object *)
  PublicKey : Type;
  (** [hashes.Hash(hashes.SHA256())] over a message: 32 bytes *)
  SHA256 : bytes → bytes;
  (** [hashes.Hash(hashes.SHA1())] over a message: 20 bytes *)
  SHA1 : bytes → bytes;
  (** [key.public_bytes(DER, SubjectPublicKeyInfo)] *)
  public_bytes : PublicKey → bytes;
  (** [serialization.load_der_public_key]; [None] when it raises *)
  load_der_public_key : bytes → option PublicKey;
  (** [key.verify(signature, digest, ECDSA(Prehashed(SHA256)))]; [false]
      when it raises [InvalidSignature] *)
  ecdsa_verify : PublicKey → bytes → bytes → bool;
}.

Section Zimcoin.
Context `{crypto : Crypto}.

(** *** blockchain_utils.py *)

(** A key held by a transaction is either already serialised or an object. *)
Inductive key :=
  | KeyBytes (b : bytes)
  | KeyObject (k : PublicKey).

(** [pk_serialize(public_key, 'ser')]. *)
Definition pk_serialize_ser (public_key : key) : bytes :=
  match public_key with
  | KeyBytes b => b
  | KeyObject k => public_bytes k
  end.

(** [pk_serialize(public_key, 'des')]. *)
Definition pk_serialize_des (public_key : key) : exn + PublicKey :=
  match public_key with
  | KeyBytes b =>
      match load_der_public_key b with
      | Some k => inr k
      | None => inl ValueError
      end
  | KeyObject k => inr k
  end.

Definition generate_address (public_key : key) : bytes :=
  SHA1 (pk_serialize_ser public_key).

(** [sha256_hash(components)]: the digest is updated with every component
    in turn, i.e. it hashes their concatenation. With [finalize = False] the
    unfinalised digest object is returned; it is represented by the bytes
    absorbed so far. *)
Definition sha256_hash (message_components : list bytes) : bytes :=
  SHA256 (concat message_components).
Definition sha256_digest (message_components : list bytes) : bytes :=
  concat message_components.
Definition digest_update (digest data : bytes) : bytes := digest ++ data.
Definition digest_finalize (digest : bytes) : bytes := SHA256 digest.

(** *** transactions.py *)

Record Transaction := mkTransaction {
  sender_hash : bytes;
  recipient_hash : bytes;
  sender_public_key : key;
  amount : Z;
  fee : Z;
  tx_nonce : Z;
  signature : bytes;
  txid : bytes;
}.

(** The txid pre-image of lines 82 and 130. *)
Definition txid_hash (t : Transaction) : exn + bytes :=
  try! a := to_bytes_little 8 (amount t) in
  try! f := to_bytes_little 8 (fee t) in
  try! n := to_bytes_little 8 (tx_nonce t) in
  inr (sha256_hash [sender_hash t; recipient_hash t;
                    pk_serialize_ser (sender_public_key t); a; f; n;
                    signature t]).

(** The signed message hash of lines 87 and 110. *)
Definition message_hash (t : Transaction) : exn + bytes :=
  try! a := to_bytes_little 8 (amount t) in
  try! f := to_bytes_little 8 (fee t) in
  try! n := to_bytes_little 8 (tx_nonce t) in
  inr (sha256_hash [recipient_hash t; a; f; n]).

(** [Transaction.verify]: returns [True] or raises. *)
Definition verify (self : Transaction)
    (sender_balance sender_previous_nonce : Z) : exn + bool :=
  try! _ := eassert (len (sender_hash self) =? 20) SenderHashLength in
  try! _ := eassert
    (bool_decide (sender_hash self = generate_address (sender_public_key self)))
    SenderHashMismatch in
  try! _ := eassert (len (recipient_hash self) =? 20) RecipientHashLength in
  try! _ := eassert (amount self mod 1 =? 0) AmountNotWhole in
  try! _ := eassert ((0 <? amount self) && (amount self <=? sender_balance))
    AmountOutOfRange in
  try! _ := eassert (fee self mod 1 =? 0) FeeNotWhole in
  try! _ := eassert ((0 <=? fee self) && (fee self <=? amount self))
    FeeOutOfRange in
  try! _ := eassert (tx_nonce self =? sender_previous_nonce + 1)
    InvalidNonce in
  try! h := txid_hash self in
  try! _ := eassert (bool_decide (txid self = h)) TxidMismatch in
  try! msg_hash := message_hash self in
  try! decoded_public_key := pk_serialize_des (sender_public_key self) in
  if ecdsa_verify decoded_public_key (signature self) msg_hash
  then inr true
  else inl InvalidSignature.

(** *** blocks.py *)

Definition MINING_REWARD : Z := 10000.

Record Block := mkBlock {
  previous : bytes;
  height : Z;
  miner : bytes;
  transactions : list Transaction;
  timestamp : Z;
  difficulty : Z;
  block_id : bytes;
  block_nonce : Z;
}.

(** Body of the loop of [update_states] (lines 135-147). *)
Definition apply_transaction (miner : bytes) (t : Transaction) (d : PyDict)
  : M heap PyDict :=
  let! (d, l) := getitem d (sender_hash t) in
  let! u := load l in
  let sender_balance := balance u in
  let! (d, l') := getitem d (sender_hash t) in
  let! u' := load l' in
  let sender_previous_nonce := nonce u' in
  let! ok := lift (verify t sender_balance sender_previous_nonce) in
  assert_ ok NoMessage ;;;
  let! d := earn_into d miner (fee t) false in
  let! d := spend_into d (sender_hash t) (amount t) false in
  earn_into d (recipient_hash t) (amount t - fee t) false.

(** [Block.update_states]. [defaultdict(factory, previous_user_states)]
    builds a new dictionary with the same key/reference pairs: the
    [UserState] objects are shared with [previous_user_states]. *)
Definition update_states (self : Block) (previous_user_states : PyDict)
    (mining_reward : Z) : M heap PyDict :=
  let updated_user_states :=
    mkDict (items previous_user_states) (Some default_user_state) in
  let! updated_user_states :=
    earn_into updated_user_states (miner self) mining_reward false in
  for_each (transactions self) (apply_transaction (miner self))
    updated_user_states.

(** The block-id pre-image of lines 170 and 278. *)
Definition block_hash (previous miner : bytes) (txs : list Transaction)
    (timestamp difficulty nonce : Z) : exn + bytes :=
  let transaction_ids := concat (map txid txs) in
  try! ts := to_bytes_little 8 timestamp in
  try! df := to_bytes_little 16 difficulty in
  try! nn := to_bytes_little 8 nonce in
  inr (sha256_hash [previous; miner; transaction_ids; ts; df; nn]).

(** [Block.verify_and_get_changes]. *)
Definition verify_and_get_changes (self : Block) (difficulty' : Z)
    (previous_user_states : PyDict) : M heap PyDict :=
  assert_ (difficulty self =? difficulty') IncorrectDifficulty ;;;
  let! h := lift (block_hash (previous self) (miner self) (transactions self)
                    (timestamp self) difficulty' (block_nonce self)) in
  assert_ (bool_decide (block_id self = h)) BlockIdMismatch ;;;
  assert_ (len (transactions self) <=? 25) TooManyTransactions ;;;
  assert_ (len (miner self) =? 20) MinerHashLength ;;;
  let! target := lift (pow_target (difficulty self)) in
  assert_ (pow_test (block_id self) target) InvalidProofOfWork ;;;
  update_states self previous_user_states MINING_REWARD.

(** Body of the loop of [get_changes_for_undo] (lines 213-220). *)
Definition undo_transaction (miner : bytes) (t : Transaction) (d : PyDict)
  : M heap PyDict :=
  let! d := earn_into d miner (fee t) true in
  let! d := spend_into d (sender_hash t) (amount t) true in
  earn_into d (recipient_hash t) (amount t - fee t) true.

(** [Block.get_changes_for_undo]. *)
Definition get_changes_for_undo (self : Block) (user_states_after : PyDict)
    (mining_reward : Z) : M heap PyDict :=
  let! undone_user_states := deepcopy user_states_after in
  let! undone_user_states :=
    earn_into undone_user_states (miner self) mining_reward true in
  for_each (transactions self) (undo_transaction (miner self))
    undone_user_states.

(** [puzzle_solver]: the search over [itertools.count()] has no bound in
    the source; [fuel] bounds the number of candidates tried and [None]
    means the fuel ran out. *)
Fixpoint puzzle_solver (fuel : nat) (candidate_nonce : Z)
    (block_description : bytes) (target : float) : option (exn + Z) :=
  match fuel with
  | O => None
  | S fuel' =>
      match to_bytes_little 8 candidate_nonce with
      | inl e => Some (inl e)
      | inr nb =>
          let candidate_digest := digest_update block_description nb in
          let candidate_solution := digest_finalize candidate_digest in
          if pow_test candidate_solution target
          then Some (inr candidate_nonce)
          else puzzle_solver fuel' (candidate_nonce + 1) block_description
                 target
      end
  end.

(** [mine_block]. *)
Definition mine_block (fuel : nat) (previous : bytes) (height : Z)
    (miner : bytes) (txs : list Transaction) (timestamp difficulty : Z)
  : option (exn + Block) :=
  let transaction_ids := concat (map txid txs) in
  match to_bytes_little 8 timestamp with
  | inl e => Some (inl e)
  | inr ts =>
  match to_bytes_little 16 difficulty with
  | inl e => Some (inl e)
  | inr df =>
  let block_description :=
    sha256_digest [previous; miner; transaction_ids; ts; df] in
  match pow_target difficulty with
  | inl e => Some (inl e)
  | inr target =>
  match puzzle_solver fuel 0 block_description target with
  | None => None
  | Some (inl e) => Some (inl e)
  | Some (inr nonce) =>
      Some (try! block_id :=
              block_hash previous miner txs timestamp difficulty nonce in
            inr (mkBlock previous height miner txs timestamp difficulty
                   block_id nonce))
  end end end end.

(** *** chain.py *)

Record BlockchainState := mkState {
  longest_chain : list Block;
  user_states : PyDict;
  total_difficulty : Z;
}.

(** Methods of [BlockchainState] run over the store and the fields of
    [self]. *)
Abbreviation world := (heap * BlockchainState)%type.

Definition on_store {A} (m : M heap A) : M world A :=
  λ w, match m (fst w) with (h', r) => ((h', snd w), r) end.
Definition self_ : M world BlockchainState := λ w, (w, inr (snd w)).
Definition set_longest_chain (c : list Block) : M world unit :=
  λ w, ((fst w, mkState c (user_states (snd w)) (total_difficulty (snd w))),
        inr tt).
Definition set_user_states (d : PyDict) : M world unit :=
  λ w, ((fst w, mkState (longest_chain (snd w)) d (total_difficulty (snd w))),
        inr tt).
Definition set_total_difficulty (z : Z) : M world unit :=
  λ w, ((fst w, mkState (longest_chain (snd w)) (user_states (snd w)) z),
        inr tt).

(** [BlockchainState.calculate_difficulty]; it only reads [self]. *)
Definition calculate_difficulty (self : BlockchainState) : exn + Z :=
  if len (longest_chain self) <=? 10 then inr 1000
  else
    let total_difficulty_for_period :=
      fold_left (λ acc block, acc + difficulty block)
        (slice_from_end (longest_chain self) 10) 0 in
    try! block_prev := index_from_end (longest_chain self) 1 in
    try! block_n_minus_11 := index_from_end (longest_chain self) 11 in
    let total_time_for_period :=
      timestamp block_prev - timestamp block_n_minus_11 in
    let total_time_for_period :=
      if total_time_for_period =? 0 then 1 else total_time_for_period in
    inr ((total_difficulty_for_period / total_time_for_period) * 120).

(** [BlockchainState.verify_and_apply_block]. *)
Definition verify_and_apply_block (block : Block) : M world unit :=
  let! self := self_ in
  assert_ (height block =? len (longest_chain self)) WrongHeight ;;;
  (if len (longest_chain self) =? 0
   then assert_ (bool_decide (previous block = zero_bytes 32)) WrongPrevious
   else
     let! tip := lift (index_from_end (longest_chain self) 1) in
     assert_ (bool_decide (previous block = block_id tip)) WrongPrevious) ;;;
  (if 0 <? len (longest_chain self)
   then
     let! tip := lift (index_from_end (longest_chain self) 1) in
     assert_ (timestamp tip <=? timestamp block) WrongTimestamp
   else ret tt) ;;;
  let! updated_difficulty := lift (calculate_difficulty self) in
  let! updated_states :=
    on_store (verify_and_get_changes block updated_difficulty
                (user_states self)) in
  let! self := self_ in
  set_longest_chain (longest_chain self ++ [block]) ;;;
  let! self := self_ in
  set_total_difficulty (total_difficulty self + difficulty block) ;;;
  set_user_states updated_states.

(** [BlockchainState.undo_last_block]; [list.pop()] raises [IndexError]
    on an empty list. *)
Definition undo_last_block : M world unit :=
  let! self := self_ in
  let! removed_block := lift (index_from_end (longest_chain self) 1) in
  set_longest_chain (take (length (longest_chain self) - 1)%nat
                       (longest_chain self)) ;;;
  let! self := self_ in
  set_total_difficulty (total_difficulty self - difficulty removed_block) ;;;
  let! self := self_ in
  let! undone_states :=
    on_store (get_changes_for_undo removed_block (user_states self)
                MINING_REWARD) in
  set_user_states undone_states.

(** The loop [for block in reversed(new_state.longest_chain)] of
    [verify_reorg]. The reverse iterator keeps an index into the live list,
    starting at the last element; it stops when the index leaves the list.
    [index] is that index plus one. *)
Fixpoint undo_above (split_height : Z) (index : nat) : M world unit :=
  match index with
  | O => ret tt
  | S i =>
      let! self := self_ in
      match longest_chain self !! i with
      | None => ret tt
      | Some block =>
          if split_height <=? height block
          then undo_last_block ;;; undo_above split_height i
          else ret tt
      end
  end.

Fixpoint apply_branch (new_branch : list Block) : M world unit :=
  match new_branch with
  | [] => ret tt
  | block :: rest => verify_and_apply_block block ;;; apply_branch rest
  end.

(** Running a method on a [BlockchainState] object local to a function:
    only the store is shared with the caller. *)
Definition with_state {A} (s : BlockchainState) (m : M world A) : M heap A :=
  λ h, match m (h, s) with (w, r) => (w.1, r) end.

(** [verify_reorg], lines 152-173: the working state after the undo and
    replay loops. The chain is a list of immutable blocks, so its deep copy
    is taken to be the same value (and to succeed); the deep copy of the
    account dictionary creates new [UserState] objects. *)
Definition replay_branch (old_state : BlockchainState)
    (new_branch : list Block) : M heap BlockchainState :=
  let start_chain := longest_chain old_state in
  let! start_states := deepcopy (user_states old_state) in
  let new_state :=
    mkState start_chain start_states (total_difficulty old_state) in
  let! first := lift (match new_branch with
                      | [] => inl IndexError
                      | b :: _ => inr b
                      end) in
  let split_height := height first in
  with_state new_state
    (undo_above split_height (length (longest_chain new_state)) ;;;
     apply_branch new_branch ;;;
     self_).

(** [verify_reorg]. *)
Definition verify_reorg (old_state : BlockchainState)
    (new_branch : list Block) : M heap BlockchainState :=
  let! new_state := replay_branch old_state new_branch in
  assert_ (total_difficulty old_state <? total_difficulty new_state)
    LowerTotalDifficulty ;;;
  ret new_state.

End Zimcoin.

Abbreviation world := (heap * BlockchainState)%type.


(** ** Signing ([cryptography] package)

    A private key object: its public key, and ECDSA signing of a
    prehashed message. The library draws fresh randomness for every
    signature; it is passed explicitly. *)

Class Signer `{Crypto} := {
  (** an elliptic-curve private key object *)
  PrivateKey : Type;
  (** [key.public_key()] *)
  public_key : PrivateKey → PublicKey;
  (** [key.sign(digest, ECDSA(Prehashed(SHA256)))], with the randomness
      drawn by the library as last argument *)
  ecdsa_sign : PrivateKey → bytes → bytes → bytes;
}.

Section Signing.
Context `{crypto : Crypto} {signer : Signer}.

(** [generate_signature] ([blockchain_utils.py], lines 94-115). *)
Definition generate_signature (sender_secret_key : PrivateKey)
    (recipient_hash : bytes) (amount fee nonce : Z) (entropy : bytes)
  : exn + bytes :=
  try! a := to_bytes_little 8 amount in
  try! f := to_bytes_little 8 fee in
  try! n := to_bytes_little 8 nonce in
  let msg_hash := sha256_hash [recipient_hash; a; f; n] in
  inr (ecdsa_sign sender_secret_key msg_hash entropy).

(** [create_signed_transaction] ([transactions.py], lines 109-135). The
    transaction keeps the public key object, not its serialisation. *)
Definition create_signed_transaction (sender_secret_key : PrivateKey)
    (recipient_hash : bytes) (amount fee nonce : Z) (entropy : bytes)
  : exn + Transaction :=
  let sender_public_key := KeyObject (public_key sender_secret_key) in
  let sender_hash := generate_address sender_public_key in
  try! signature :=
    generate_signature sender_secret_key recipient_hash amount fee nonce
      entropy in
  try! a := to_bytes_little 8 amount in
  try! f := to_bytes_little 8 fee in
  try! n := to_bytes_little 8 nonce in
  let txid :=
    sha256_hash [sender_hash; recipient_hash;
                 pk_serialize_ser sender_public_key; a; f; n; signature] in
  inr (mkTransaction sender_hash recipient_hash sender_public_key amount fee
         nonce signature txid).

End Signing.

(** * Specification-level notions *)

(** Sum of a list of integers. *)
Definition Zsum (l : list Z) : Z := foldr Z.add 0 l.

(** ** Dictionaries as account maps

    A dictionary represents an account map in a store when every reference
    it holds is allocated and no two addresses share a [UserState] object.
    Every dictionary built by the sources from [dict()] is of this kind. *)
Definition dict_alloc (h : heap) (d : PyDict) : Prop :=
  ∀ k l, items d !! k = Some l → (l < length h)%nat.
Definition dict_inj (d : PyDict) : Prop :=
  ∀ k1 k2 l, items d !! k1 = Some l → items d !! k2 = Some l → k1 = k2.
Definition wf (h : heap) (d : PyDict) : Prop := dict_alloc h d ∧ dict_inj d.

(** What a caller holding [d] reads through it. *)
Definition view (h : heap) (d : PyDict) : gmap bytes UserState :=
  (λ l, h !!! l) <$> items d.

(** An account map with the defaulting rule: an address that is absent
    reads as the default account. *)
Abbreviation ledger := (bytes → UserState).
Definition account (V : gmap bytes UserState) : ledger :=
  λ k, default default_user_state (V !! k).
Definition ledger_of (h : heap) (d : PyDict) : ledger := account (view h d).

(** Sum of the balances of all the entries of a dictionary. *)
Definition supply (V : gmap bytes UserState) : Z :=
  map_fold (λ _ u acc, balance u + acc) 0 V.
Definition total_supply (h : heap) (d : PyDict) : Z :=
  map_fold (λ _ l acc, balance (h !!! l) + acc) 0 (items d).

(** Every object reachable from [d] lies in the part of the store
    allocated at or after [n]. *)
Definition dict_above (n : nat) (h : heap) (d : PyDict) : Prop :=
  (n ≤ length h)%nat ∧
  ∀ k l, items d !! k = Some l → (n ≤ l < length h)%nat.

(** The objects below [n] are the same in [h] and [h']. *)
Definition unchanged_below (n : nat) (h h' : heap) : Prop :=
  (length h ≤ length h')%nat ∧ ∀ l, (l < n)%nat → h' !! l = h !! l.

(** ** The effect of the dictionary statements on the view *)

Definition v_get (u0 : UserState) (V : gmap bytes UserState) (k : bytes)
  : UserState := default u0 (V !! k).
Definition v_touch (u0 : UserState) (V : gmap bytes UserState) (k : bytes)
  : gmap bytes UserState := <[k := v_get u0 V k]> V.
Definition v_earn (u0 : UserState) (V : gmap bytes UserState) (k : bytes)
    (x : Z) (undo : bool) : gmap bytes UserState :=
  <[k := mkUserState (earn (v_get u0 V k) x undo) (nonce (v_get u0 V k))]> V.
Definition v_spend (u0 : UserState) (V : gmap bytes UserState) (k : bytes)
    (x : Z) (undo : bool) : gmap bytes UserState :=
  <[k := mkUserState (spend (v_get u0 V k) x undo).1
                     (spend (v_get u0 V k) x undo).2]> V.

(** A fallible left fold. *)
Fixpoint efold {A X} (f : X → A → exn + A) (xs : list X) (a : A) : exn + A :=
  match xs with
  | [] => inr a
  | x :: xs' => try! a' := f x a in efold f xs' a'
  end.

(** ** Frames and simulations

    Predicates used to state what a computation leaves alone and what it
    computes. *)

(** A computation over the store keeps the objects below [n] and
    establishes [Q] when it returns. *)
Definition framed {A} (n : nat) (Q : heap → A → Prop) (m : M heap A)
    (h : heap) : Prop :=
  unchanged_below n h (m h).1 ∧
  match (m h).2 with
  | inr a => Q (m h).1 a
  | inl _ => True
  end.

(** The references of a map lie in the part of the store allocated at or
    after [n]. *)
Definition locs_above {K} `{Countable K} (n : nat) (h : heap)
    (m : gmap K loc) : Prop :=
  ∀ k l, m !! k = Some l → (n ≤ l < length h)%nat.

(** The same, for the [items] of a dictionary under construction. *)
Definition items_wf (h : heap) (its : gmap bytes loc) : Prop :=
  (∀ k l, its !! k = Some l → (l < length h)%nat) ∧
  (∀ k1 k2 l, its !! k1 = Some l → its !! k2 = Some l → k1 = k2).

(** A run from a dictionary representing [V] agrees with a pure result:
    both raise the same exception, or the dictionary returned represents
    the pure result. *)
Definition sim (u0 : UserState) (run : heap * (exn + PyDict))
    (r : exn + gmap bytes UserState) : Prop :=
  match run.2, r with
  | inr d', inr V' =>
      wf run.1 d' ∧ default_factory d' = Some u0 ∧ view run.1 d' = V'
  | inl e, inl e' => e = e'
  | _, _ => False
  end.

Section Specification.
Context `{crypto : Crypto}.

Definition v_apply_transaction (miner : bytes) (t : Transaction)
    (V : gmap bytes UserState) : exn + gmap bytes UserState :=
  let u0 := default_user_state in
  let V := v_touch u0 V (sender_hash t) in
  let u := v_get u0 V (sender_hash t) in
  try! ok := verify t (balance u) (nonce u) in
  try! _ := eassert ok NoMessage in
  let V := v_earn u0 V miner (fee t) false in
  let V := v_spend u0 V (sender_hash t) (amount t) false in
  inr (v_earn u0 V (recipient_hash t) (amount t - fee t) false).

Definition v_update_states (B : Block) (V : gmap bytes UserState)
    (mining_reward : Z) : exn + gmap bytes UserState :=
  efold (v_apply_transaction (miner B)) (transactions B)
    (v_earn default_user_state V (miner B) mining_reward false).

Definition v_undo_transaction (u0 : UserState) (miner : bytes)
    (t : Transaction) (V : gmap bytes UserState) : gmap bytes UserState :=
  let V := v_earn u0 V miner (fee t) true in
  let V := v_spend u0 V (sender_hash t) (amount t) true in
  v_earn u0 V (recipient_hash t) (amount t - fee t) true.

Definition v_get_changes_for_undo (u0 : UserState) (B : Block)
    (V : gmap bytes UserState) (mining_reward : Z) : gmap bytes UserState :=
  fold_left (λ V t, v_undo_transaction u0 (miner B) t V) (transactions B)
    (v_earn u0 V (miner B) mining_reward true).

(** ** The state transition in the words of the specification

    Over account maps with the defaulting rule: credit the miner with the
    reward; then, for each transaction in list order, verify it against
    the sender's current balance and nonce, credit the miner with the fee,
    debit the sender by the amount and increment its nonce, credit the
    recipient with the amount less the fee. *)

Definition credit (P : ledger) (who : bytes) (x : Z) : ledger :=
  λ k, if decide (k = who)
       then mkUserState (balance (P who) + x) (nonce (P who))
       else P k.

Definition debit (P : ledger) (who : bytes) (x : Z) : ledger :=
  λ k, if decide (k = who)
       then mkUserState (balance (P who) - x) (nonce (P who) + 1)
       else P k.

Definition spec_transaction (miner : bytes) (t : Transaction) (P : ledger)
  : exn + ledger :=
  try! ok := verify t (balance (P (sender_hash t)))
               (nonce (P (sender_hash t))) in
  try! _ := eassert ok NoMessage in
  let P := credit P miner (fee t) in
  let P := debit P (sender_hash t) (amount t) in
  inr (credit P (recipient_hash t) (amount t - fee t)).

Definition spec_apply_block (B : Block) (P : ledger) : exn + ledger :=
  efold (spec_transaction (miner B)) (transactions B)
    (credit P (miner B) 10000).

(** The change of one account over a transaction and over a whole block,
    as a pair (balance change, nonce change). *)
Definition tx_delta (miner : bytes) (t : Transaction) (k : bytes) : Z * Z :=
  ((if decide (k = miner) then fee t else 0)
   - (if decide (k = sender_hash t) then amount t else 0)
   + (if decide (k = recipient_hash t) then amount t - fee t else 0),
   if decide (k = sender_hash t) then 1 else 0).

Definition txs_delta (miner : bytes) (txs : list Transaction) (k : bytes)
  : Z * Z :=
  foldr (λ t acc, ((tx_delta miner t k).1 + acc.1,
                   (tx_delta miner t k).2 + acc.2)) (0, 0) txs.

Definition block_delta (B : Block) (k : bytes) : Z * Z :=
  ((if decide (k = miner B) then MINING_REWARD else 0)
   + (txs_delta (miner B) (transactions B) k).1,
   (txs_delta (miner B) (transactions B) k).2).

Definition shift (u : UserState) (delta : Z * Z) : UserState :=
  mkUserState (balance u + delta.1) (nonce u + delta.2).
Definition unshift (u : UserState) (delta : Z * Z) : UserState :=
  mkUserState (balance u - delta.1) (nonce u - delta.2).

(** The cumulative difficulty of a chain. *)
Definition chain_difficulty (chain : list Block) : Z :=
  Zsum (difficulty <$> chain).

(** The recorded total difficulty is the cumulative difficulty. *)
Definition td_consistent (s : BlockchainState) : Prop :=
  total_difficulty s = chain_difficulty (longest_chain s).

(** The view-level result agrees with the specification-level result. *)
Definition agree (r : exn + gmap bytes UserState) (s : exn + ledger) : Prop :=
  match r, s with
  | inr V', inr P' => ∀ k, account V' k = P' k
  | inl e, inl e' => e = e'
  | _, _ => False
  end.

(** [framed] for the methods of [BlockchainState]. *)
Definition framed_w {A} (n : nat) (Q : world → A → Prop) (m : M world A)
    (w : world) : Prop :=
  unchanged_below n w.1 (m w).1.1 ∧
  match (m w).2 with
  | inr a => Q (m w).1 a
  | inl _ => True
  end.

(** The invariant of a working state: its dictionary lives above [n]. *)
Definition state_above (n : nat) (w : world) : Prop :=
  dict_above n w.1 (user_states w.2).

(** ** States the interface can produce

    The invariant of a chain state in a store, and the worlds reached from
    [BlockchainState([], dict(), 0)] by calls of the three operations,
    whether they return or raise. *)

Definition state_inv (w : world) : Prop :=
  wf w.1 (user_states w.2) ∧
  (default_factory (user_states w.2) = Some default_user_state ∨
   longest_chain w.2 = []) ∧
  td_consistent w.2.

Inductive reachable : world → Prop :=
  | reachable_init (h : heap) :
      reachable (h, mkState [] (mkDict ∅ None) 0)
  | reachable_apply (w w' : world) (B : Block) (r : exn + unit) :
      reachable w → verify_and_apply_block B w = (w', r) → reachable w'
  | reachable_undo (w w' : world) (r : exn + unit) :
      reachable w → undo_last_block w = (w', r) → reachable w'
  | reachable_reorg_old (w : world) (new_branch : list Block) (h' : heap)
      (r : exn + BlockchainState) :
      reachable w → verify_reorg w.2 new_branch w.1 = (h', r) →
      reachable (h', w.2)
  | reachable_reorg_new (w : world) (new_branch : list Block) (h' : heap)
      (new_state : BlockchainState) :
      reachable w → verify_reorg w.2 new_branch w.1 = (h', inr new_state) →
      reachable (h', new_state).

End Specification.

(** ** Exceptions raised before the transactions are looked at

    The messages of the checks of [verify_and_apply_block] and of the
    header checks of [verify_and_get_changes], and the exceptions that no
    statement of [update_states] can raise. *)

Definition header_assertion (a : assertion) : bool :=
  match a with
  | WrongHeight | WrongPrevious | WrongTimestamp
  | IncorrectDifficulty | BlockIdMismatch | TooManyTransactions
  | MinerHashLength | InvalidProofOfWork => true
  | _ => false
  end.

Definition header_error (e : exn) : bool :=
  match e with
  | AssertionError a => header_assertion a
  | ZeroDivisionError | IndexError => true
  | _ => false
  end.

Section ChainSpecification.
Context `{crypto : Crypto}.

(** ** Chains built by accepted blocks *)

(** The account map of [BlockchainState([], dict(), 0)]. *)
Definition empty_ledger : ledger := λ _, default_user_state.

(** The account map obtained by applying the blocks of a chain in order. *)
Definition replay (chain : list Block) (P : ledger) : exn + ledger :=
  efold spec_apply_block chain P.

(** What [verify_and_apply_block] and [verify_and_get_changes] check of a
    block [B] offered on top of [chain], its transactions apart: height,
    parent, timestamp, difficulty, identifier, size, miner address and
    proof of work. *)
Definition extends (chain : list Block) (B : Block) : Prop :=
  height B = len chain ∧
  previous B = match last chain with
               | Some tip => block_id tip
               | None => zero_bytes 32
               end ∧
  (∀ tip, last chain = Some tip → timestamp tip ≤ timestamp B) ∧
  calculate_difficulty (mkState chain (mkDict ∅ None) 0)
  = inr (difficulty B) ∧
  block_hash (previous B) (miner B) (transactions B) (timestamp B)
    (difficulty B) (block_nonce B) = inr (block_id B) ∧
  (length (transactions B) ≤ 25)%nat ∧
  length (miner B) = 20%nat ∧
  ∃ target, pow_target (difficulty B) = inr target ∧
            pow_test (block_id B) target = true.

(** A chain every block of which was acceptable on top of its
    predecessors, with the account map it leads to. *)
Inductive valid_chain : list Block → ledger → Prop :=
  | valid_chain_nil : valid_chain [] empty_ledger
  | valid_chain_snoc (chain : list Block) (B : Block) (P P' : ledger) :
      valid_chain chain P →
      extends chain B →
      spec_apply_block B P = inr P' →
      valid_chain (chain ++ [B]) P'.

(** Worlds reached from [BlockchainState([], dict(), 0)] by accepted
    blocks, undos and reorganisations. A call of [verify_and_apply_block]
    that raises is left out: it may leave the accounts changed. *)
Inductive accepted_history : world → Prop :=
  | history_init (h : heap) :
      accepted_history (h, mkState [] (mkDict ∅ None) 0)
  | history_apply (w w' : world) (B : Block) :
      accepted_history w →
      verify_and_apply_block B w = (w', inr tt) →
      accepted_history w'
  | history_undo (w w' : world) (r : exn + unit) :
      accepted_history w →
      undo_last_block w = (w', r) →
      accepted_history w'
  | history_reorg_old (w : world) (new_branch : list Block) (h' : heap)
      (r : exn + BlockchainState) :
      accepted_history w →
      verify_reorg w.2 new_branch w.1 = (h', r) →
      accepted_history (h', w.2)
  | history_reorg_new (w : world) (new_branch : list Block) (h' : heap)
      (new_state : BlockchainState) :
      accepted_history w →
      verify_reorg w.2 new_branch w.1 = (h', inr new_state) →
      accepted_history (h', new_state).

(** The invariant of such worlds. *)
Definition chain_inv (w : world) : Prop :=
  state_inv w ∧
  total_supply w.1 (user_states w.2) = 10000 * len (longest_chain w.2) ∧
  ∃ P, valid_chain (longest_chain w.2) P ∧
       ∀ k, ledger_of w.1 (user_states w.2) k = P k.

End ChainSpecification.

(** * Example data

    The examples run the definitions with stand-ins for the external
    primitives: every SHA-256 digest is 32 zero bytes (so any nonce solves
    the proof-of-work puzzle), an address is the key padded or cut to 20
    bytes, and a signature is valid when it repeats the key. *)

Definition stub_crypto : Crypto := {|
  PublicKey := bytes;
  SHA256 := λ _, zero_bytes 32;
  SHA1 := λ b, take 20 (b ++ zero_bytes 20);
  public_bytes := λ k, k;
  load_der_public_key := λ b, Some b;
  ecdsa_verify := λ k sig _, bool_decide (sig = k);
|}.

Module Example.

#[local] Existing Instance stub_crypto.

Definition alice_key : key := KeyObject [x01].
Definition bob_key : key := KeyObject [x02].
Definition alice : bytes := generate_address alice_key.
Definition bob : bytes := generate_address bob_key.

(** [create_signed_transaction] with the stand-in signature. *)
Definition transfer (sender_key : key) (recipient : bytes)
    (amount fee nonce : Z) : Transaction :=
  mkTransaction (generate_address sender_key) recipient sender_key
    amount fee nonce (pk_serialize_ser sender_key) (zero_bytes 32).

(** A transaction whose sender hash is empty. *)
Definition ill_formed : Transaction :=
  mkTransaction [] bob alice_key 1 0 0 [] (zero_bytes 32).

Definition empty_state : BlockchainState := mkState [] (mkDict ∅ None) 0.

(** Blocks as [mine_block] returns them with the stand-in digest. *)
Definition block (previous : bytes) (height : Z) (miner : bytes)
    (txs : list Transaction) (timestamp difficulty : Z) : Block :=
  mkBlock previous height miner txs timestamp difficulty (zero_bytes 32) 0.

Definition genesis : Block := block (zero_bytes 32) 0 alice [] 0 1000.
Definition genesis_bob : Block := block (zero_bytes 32) 0 bob [] 0 1000.

(** The world after [genesis] was applied to the empty state. *)
Definition world1 : heap * BlockchainState :=
  Eval vm_compute in (verify_and_apply_block genesis ([], empty_state)).1.

(** A second block by the same miner that spends from her reward. *)
Definition second : Block :=
  block (zero_bytes 32) 1 alice [transfer alice_key bob 3000 25 0] 0 1000.

(** A second block whose only transaction is ill-formed. *)
Definition second_bad : Block :=
  block (zero_bytes 32) 1 alice [ill_formed] 0 1000.

(** The world after [second] was applied to [world1]. *)
Definition world2 : heap * BlockchainState :=
  Eval vm_compute in (verify_and_apply_block second world1).1.

(** A competing branch from height 0, of one and of two blocks. *)
Definition second_bob : Block :=
  block (zero_bytes 32) 1 bob [] 0 1000.
Definition short_branch : list Block := [genesis_bob].
Definition long_branch : list Block := [genesis_bob; second_bob].

(** The outcome of the two reorganisations of [world1]. *)
Definition reorg_long : heap * (exn + BlockchainState) :=
  Eval vm_compute in verify_reorg world1.2 long_branch world1.1.
Definition reorged_state : BlockchainState :=
  match reorg_long.2 with inr s => s | inl _ => empty_state end.
Definition replay_short : heap * (exn + BlockchainState) :=
  Eval vm_compute in replay_branch world1.2 short_branch world1.1.
Definition replayed_state : BlockchainState :=
  match replay_short.2 with inr s => s | inl _ => empty_state end.

(** Eleven blocks at timestamp 0 and difficulty 1000. *)
Definition eleven : BlockchainState :=
  mkState (replicate 11 genesis) (mkDict ∅ None) 11000.

End Example.

(** The stand-in for signing: a private key is its own public key and the
    signature repeats it, which the stand-in verification accepts. *)
Definition stub_signer : @Signer stub_crypto := {|
  PrivateKey := bytes;
  public_key := λ sk : bytes, (sk : @PublicKey stub_crypto);
  ecdsa_sign := λ sk _ _, sk;
|}.

Module Scenario.

Import Example.
#[local] Existing Instance stub_crypto.

(** A block mined ten times in a row, 20_000 seconds after [genesis]. *)
Definition late : Block := block (zero_bytes 32) 1 alice [] 20000 1000.

(** Eleven blocks whose last ten took 20_000 seconds. *)
Definition stalled : heap * BlockchainState :=
  ([], mkState (genesis :: replicate 10 late) (mkDict ∅ None) 11000).

(** Eleven blocks whose last ten took 1200 seconds. *)
Definition on_time : Block := block (zero_bytes 32) 10 alice [] 1200 1000.
Definition steady : BlockchainState :=
  mkState (genesis :: replicate 9 genesis ++ [on_time]) (mkDict ∅ None) 11000.

(** A state put together by hand: one block, but an empty plain [dict]. *)
Definition orphaned : heap * BlockchainState :=
  ([], mkState [genesis] (mkDict ∅ None) 1000).

(** The world after [second_bad] was rejected by [world1]. *)
Definition world1_after_rejection : heap * BlockchainState :=
  Eval vm_compute in (verify_and_apply_block second_bad world1).1.

(** A candidate nonce next to the end of the 8-byte range, and fuel for
    every candidate of the range. *)
Definition last_nonce : Z := 2 ^ 64 - 1.
Definition ample_fuel : nat := Z.to_nat (2 ^ 64 + 1).

End Scenario.
(** * Properties *)

(** ** Arithmetic of the proof-of-work target *)

Lemma round_half_even_cases n d :
  round_half_even n d = n / d ∨ round_half_even n d = n / d + 1.
Proof. unfold round_half_even. case_match; auto. Qed.

Lemma round_half_even_nearest n d :
  0 < d →
  2 * Z.abs (round_half_even n d * d - n) ≤ d ∧
  (2 * Z.abs (round_half_even n d * d - n) = d →
   Z.even (round_half_even n d) = true).
Proof.
  intros Hd. unfold round_half_even.
  pose proof (Z.div_mod n d ltac:(lia)) as Hdm.
  pose proof (Z.mod_pos_bound n d Hd) as Hr.
  set (q := n / d) in *. set (r := n mod d) in *.
  destruct (d <? 2 * r) eqn:E1; simpl.
  - apply Z.ltb_lt in E1. split; [nia|]. intros; nia.
  - apply Z.ltb_ge in E1. destruct (d =? 2 * r) eqn:E2; simpl.
    + apply Z.eqb_eq in E2. destruct (Z.odd q) eqn:E3.
      * split; [nia|]. intros _. rewrite Z.even_add, <- Z.negb_odd, E3.
        reflexivity.
      * split; [nia|]. intros _. by rewrite <- Z.negb_odd, E3.
    + apply Z.eqb_neq in E2. split; [nia|]. intros; nia.
Qed.

Lemma div_lt_iff a b q : 0 < b → a / b < q ↔ a < b * q.
Proof.
  intros Hb. split.
  - intros H. pose proof (Z.mul_succ_div_gt a b Hb). nia.
  - apply Z.div_lt_upper_bound; lia.
Qed.

Lemma pow_target_shape d :
  1 ≤ d < 2 ^ 128 →
  ∃ m e, pow_target d = inr (mkFloat m e) ∧
         76 ≤ e ≤ 204 ∧ 2 ^ 52 ≤ m ≤ 2 ^ 53 ∧
         m = round_half_even (2 ^ 256) (d * 2 ^ e).
Proof.
  intros [Hd1 Hd2]. unfold pow_target, true_divide.
  destruct (d =? 0) eqn:E; [apply Z.eqb_eq in E; lia|clear E].
  change (2 ^ 256 =? 0) with false. cbv iota.
  rewrite (Z.abs_eq d) by lia. change (Z.abs (2 ^ 256)) with (2 ^ 256).
  change (Z.sgn (2 ^ 256)) with 1. rewrite (Z.sgn_pos d) by lia.
  unfold true_divide_pos. change (Z.log2 (2 ^ 256)) with 256.
  pose proof (Z.log2_spec d ltac:(lia)) as [HL1 HL2].
  pose proof (Z.log2_nonneg d) as HL0.
  assert (Z.log2 d < 128) as HL3 by (apply Z.log2_lt_pow2; lia).
  set (L := Z.log2 d) in *.
  assert (2 ^ (256 - L - 52) * 2 ^ L = 2 ^ 204) as HP.
  { rewrite <- Z.pow_add_r by lia. f_equal. lia. }
  assert (0 < 2 ^ L) as HpL by (apply Z.pow_pos_nonneg; lia).
  assert (0 < 2 ^ (256 - L - 52)) as HpE by (apply Z.pow_pos_nonneg; lia).
  assert (2 ^ Z.succ L = 2 * 2 ^ L) as HS by (apply Z.pow_succ_r; lia).
  assert (2 ^ (256 - L - 52) = 2 * 2 ^ (256 - L - 52 - 1)) as HE.
  { rewrite <- Z.pow_succ_r by lia. f_equal. lia. }
  assert (0 < 2 ^ (256 - L - 52 - 1)) as HpE' by (apply Z.pow_pos_nonneg; lia).
  unfold scaled_floor. destruct (0 <=? 256 - L - 52) eqn:E0;
    [|apply Z.leb_gt in E0; lia]. clear E0.
  set (X := d * 2 ^ (256 - L - 52)) in *.
  assert (2 ^ 204 ≤ X < 2 * 2 ^ 204) as HX by (unfold X; nia).
  destruct (2 ^ 256 / X <? 2 ^ 52) eqn:Eq.
  - apply Z.ltb_lt in Eq. apply div_lt_iff in Eq; [|lia].
    rewrite Z.max_l by lia. unfold scaled_round.
    destruct (0 <=? 256 - L - 52 - 1) eqn:E0;
      [|apply Z.leb_gt in E0; lia]. clear E0.
    set (Y := d * 2 ^ (256 - L - 52 - 1)) in *.
    assert (X = 2 * Y) as HXY by (unfold X, Y; lia).
    assert (2 ^ 52 ≤ 2 ^ 256 / Y) as Hlo.
    { apply Z.div_le_lower_bound; [lia|].
      change (2 ^ 256) with (2 ^ 52 * 2 ^ 204). nia. }
    assert (2 ^ 256 / Y < 2 ^ 53) as Hhi.
    { apply div_lt_iff; [lia|]. change (2 ^ 53) with (2 * 2 ^ 52). lia. }
    set (m := round_half_even (2 ^ 256) Y).
    assert (2 ^ 52 ≤ m ≤ 2 ^ 53) as Hm.
    { destruct (round_half_even_cases (2 ^ 256) Y) as [H|H];
        unfold m; rewrite H; lia. }
    assert (Z.log2 m ≤ 53) as Hlog.
    { change 53 with (Z.log2 (2 ^ 53)). apply Z.log2_le_mono. lia. }
    destruct (1024 <? Z.log2 m + 1 + (256 - L - 52 - 1)) eqn:Eo;
      [apply Z.ltb_lt in Eo; lia|].
    simpl. exists m, (256 - L - 52 - 1).
    split; [f_equal; f_equal; lia|]. split; [lia|]. split; [lia|done].
  - apply Z.ltb_ge in Eq. rewrite Z.max_l by lia. unfold scaled_round.
    destruct (0 <=? 256 - L - 52) eqn:E0;
      [|apply Z.leb_gt in E0; lia]. clear E0. fold X.
    assert (2 ^ 256 / X ≤ 2 ^ 52) as Hhi.
    { apply Z.div_le_upper_bound; [lia|].
      change (2 ^ 256) with (2 ^ 52 * 2 ^ 204). nia. }
    set (m := round_half_even (2 ^ 256) X).
    assert (2 ^ 52 ≤ m ≤ 2 ^ 53) as Hm.
    { destruct (round_half_even_cases (2 ^ 256) X) as [H|H];
        unfold m; rewrite H; lia. }
    assert (Z.log2 m ≤ 53) as Hlog.
    { change 53 with (Z.log2 (2 ^ 53)). apply Z.log2_le_mono. lia. }
    destruct (1024 <? Z.log2 m + 1 + (256 - L - 52)) eqn:Eo;
      [apply Z.ltb_lt in Eo; lia|].
    simpl. exists m, (256 - L - 52).
    split; [f_equal; f_equal; lia|]. split; [lia|]. split; [lia|done].
Qed.

(** C2 (as stated) fails in both directions. At difficulty 3 the digest
    [55 55 ... 55] equals [2^256 // 3] and is rejected; at the bootstrap
    difficulty 1000 the digest [00 41 89 37 4B C6 A7 F0 00 ... 00] exceeds
    [2^256 // 1000] and is accepted. *)
Lemma pow_test_not_floor :
  (∃ t, pow_target 3 = inr t ∧
        int_from_bytes_big (replicate 32 "U"%byte) ≤ 2 ^ 256 / 3 ∧
        pow_test (replicate 32 "U"%byte) t = false) ∧
  (∃ t, pow_target 1000 = inr t ∧
        ¬ int_from_bytes_big
            ([x00; x41; x89; x37; x4b; xc6; xa7; xf0] ++ replicate 24 x00)
          ≤ 2 ^ 256 / 1000 ∧
        pow_test ([x00; x41; x89; x37; x4b; xc6; xa7; xf0] ++ replicate 24 x00)
          t = true).
Proof.
  split.
  - eexists. split; [vm_compute; reflexivity|]. split.
    + vm_compute. discriminate.
    + vm_compute. reflexivity.
  - eexists. split; [vm_compute; reflexivity|]. split.
    + vm_compute. intros H. apply H. reflexivity.
    + vm_compute. reflexivity.
Qed.

Section Properties.
Context `{crypto : Crypto}.

(** ** Transaction.verify *)

Lemma to_bytes_little_inr w z b :
  to_bytes_little w z = inr b →
  0 ≤ z < 2 ^ (8 * Z.of_nat w) ∧ b = le_digits w z.
Proof.
  unfold to_bytes_little. case_match eqn:E; [|done].
  apply andb_true_iff in E as [?%Z.leb_le ?%Z.ltb_lt].
  intros [= <-]. split; [lia|done].
Qed.

(** C8. [verify] returns [True] exactly when the seven groups of checks
    hold, the identifier and the signed message being the SHA-256 digests
    of the stated concatenations with 8-byte little-endian integers; in
    every other case it raises. *)
Theorem verify_succeeds_iff (t : Transaction) (sender_balance sender_previous_nonce : Z) :
  (verify t sender_balance sender_previous_nonce = inr true ↔
     length (sender_hash t) = 20%nat ∧
     length (recipient_hash t) = 20%nat ∧
     sender_hash t = SHA1 (pk_serialize_ser (sender_public_key t)) ∧
     0 < amount t ≤ sender_balance ∧
     0 ≤ fee t ≤ amount t ∧
     tx_nonce t = sender_previous_nonce + 1 ∧
     ∃ a f n k,
       to_bytes_little 8 (amount t) = inr a ∧
       to_bytes_little 8 (fee t) = inr f ∧
       to_bytes_little 8 (tx_nonce t) = inr n ∧
       txid t = SHA256 (sender_hash t ++ recipient_hash t ++
                        pk_serialize_ser (sender_public_key t) ++
                        a ++ f ++ n ++ signature t) ∧
       pk_serialize_des (sender_public_key t) = inr k ∧
       ecdsa_verify k (signature t) (SHA256 (recipient_hash t ++ a ++ f ++ n))
         = true) ∧
  (verify t sender_balance sender_previous_nonce ≠ inr true →
   ∃ e, verify t sender_balance sender_previous_nonce = inl e).
Proof.
  unfold verify, len, generate_address, txid_hash, message_hash, sha256_hash.
  simpl concat. rewrite !app_nil_r.
  destruct (Z.of_nat (length (sender_hash t)) =? 20) eqn:E1; simpl;
    [apply Z.eqb_eq in E1|apply Z.eqb_neq in E1; split; [split; [done|lia]|eauto]].
  case_bool_decide as E2; simpl;
    [|split; [split; [done|]|eauto]; by intros (_ & _ & ? & _)].
  destruct (Z.of_nat (length (recipient_hash t)) =? 20) eqn:E3; simpl;
    [apply Z.eqb_eq in E3|apply Z.eqb_neq in E3; split; [split; [done|lia]|eauto]].
  rewrite Z.mod_1_r. simpl.
  destruct ((0 <? amount t) && (amount t <=? sender_balance)) eqn:E4; simpl;
    [apply andb_true_iff in E4 as [E4 E4'%Z.leb_le]; apply Z.ltb_lt in E4
    |apply andb_false_iff in E4; split; [split; [done|]|eauto];
     intros (_ & _ & _ & ? & _); destruct E4 as [E4%Z.ltb_ge|E4%Z.leb_gt]; lia].
  rewrite Z.mod_1_r. simpl.
  destruct ((0 <=? fee t) && (fee t <=? amount t)) eqn:E5; simpl;
    [apply andb_true_iff in E5 as [E5 E5'%Z.leb_le]; apply Z.leb_le in E5
    |apply andb_false_iff in E5; split; [split; [done|]|eauto];
     intros (_ & _ & _ & _ & ? & _); destruct E5 as [E5%Z.leb_gt|E5%Z.leb_gt]; lia].
  destruct (tx_nonce t =? sender_previous_nonce + 1) eqn:E6; simpl;
    [apply Z.eqb_eq in E6
    |apply Z.eqb_neq in E6; split; [split; [done|]|eauto];
     by intros (_ & _ & _ & _ & _ & ? & _)].
  destruct (to_bytes_little 8 (amount t)) as [e|a] eqn:Ea; simpl;
    [split; [split; [done|]|eauto];
     by intros (_ & _ & _ & _ & _ & _ & ? & ? & ? & ? & ? & _)|].
  destruct (to_bytes_little 8 (fee t)) as [e|f] eqn:Ef; simpl;
    [split; [split; [done|]|eauto];
     by intros (_ & _ & _ & _ & _ & _ & ? & ? & ? & ? & _ & ? & _)|].
  destruct (to_bytes_little 8 (tx_nonce t)) as [e|n] eqn:En; simpl;
    [split; [split; [done|]|eauto];
     by intros (_ & _ & _ & _ & _ & _ & ? & ? & ? & ? & _ & _ & ? & _)|].
  case_bool_decide as E7; simpl;
    [|split; [split; [done|]|eauto];
      intros (_ & _ & _ & _ & _ & _ & ? & ? & ? & ? & ? & ? & ? & ? & _);
      simplify_eq; by rewrite ?app_nil_r in *].
  destruct (pk_serialize_des (sender_public_key t)) as [e|k] eqn:Ek; simpl;
    [split; [split; [done|]|eauto];
     by intros (_ & _ & _ & _ & _ & _ & ? & ? & ? & ? & _ & _ & _ & _ & ? & _)|].
  rewrite !app_nil_r.
  destruct (ecdsa_verify k (signature t)
              (SHA256 (recipient_hash t ++ a ++ f ++ n))) eqn:Es.
  - split; [|intros H; by destruct H]. split; [intros _|done].
    repeat split; try lia; try done. by exists a, f, n, k.
  - split; [|eauto]. split; [done|].
    intros (_ & _ & _ & _ & _ & _ & a' & f' & n' & k' & ? & ? & ? & _ & ? & ?).
    congruence.
Qed.

(** ** Difficulty retargeting *)

Lemma index_from_end_app {A} (l1 l2 : list A) (x : A) :
  index_from_end (l1 ++ x :: l2) (S (length l2)) = inr x.
Proof.
  unfold index_from_end. rewrite length_app. simpl.
  destruct (decide _) as [_|H]; [|lia].
  replace (length l1 + S (length l2) - S (length l2))%nat
    with (length l1 + 0)%nat by lia.
  by rewrite lookup_app_r, Nat.add_0_r, Nat.sub_diag by lia.
Qed.

Lemma index_from_end_last {A} (l : list A) (x : A) :
  last l = Some x → index_from_end l 1 = inr x.
Proof.
  intros H. apply last_Some in H as [l' ->].
  apply (index_from_end_app l' [] x).
Qed.

Lemma slice_from_end_app {A} (l1 l2 : list A) :
  slice_from_end (l1 ++ l2) (length l2) = l2.
Proof.
  unfold slice_from_end. rewrite length_app.
  replace (length l1 + length l2 - length l2)%nat with (length l1) by lia.
  by rewrite drop_app_length.
Qed.

Lemma fold_left_difficulty (bs : list Block) (acc : Z) :
  fold_left (λ acc block, acc + difficulty block) bs acc
  = acc + Zsum (difficulty <$> bs).
Proof.
  revert acc. induction bs as [|b bs IH]; intros acc.
  - unfold Zsum. simpl. lia.
  - cbn [fold_left]. rewrite IH, fmap_cons. unfold Zsum. cbn [foldr]. lia.
Qed.

(** C6. [calculate_difficulty] never raises. It returns 1000 on a chain of
    at most 10 blocks. On a longer chain, split as the older blocks, the
    anchor (eleventh from the end) and the window of the last ten blocks,
    it returns the window's summed difficulty floor-divided by the time
    from the anchor to the tip (1 when that time is 0), times 120. Eleven
    blocks at timestamp 0 and difficulty 1000 give 1_200_000. *)
Theorem calculate_difficulty_spec (S : BlockchainState) :
  ((length (longest_chain S) ≤ 10)%nat → calculate_difficulty S = inr 1000) ∧
  (∀ older anchor window tip,
     longest_chain S = older ++ anchor :: window →
     length window = 10%nat →
     last window = Some tip →
     calculate_difficulty S =
       inr (Zsum (difficulty <$> window)
            / (if timestamp tip - timestamp anchor =? 0 then 1
               else timestamp tip - timestamp anchor)
            * 120)) ∧
  (length (longest_chain S) = 11%nat →
   Forall (λ b, timestamp b = 0 ∧ difficulty b = 1000) (longest_chain S) →
   calculate_difficulty S = inr 1200000).
Proof.
  assert (∀ older anchor window tip,
     longest_chain S = older ++ anchor :: window →
     length window = 10%nat →
     last window = Some tip →
     calculate_difficulty S =
       inr (Zsum (difficulty <$> window)
            / (if timestamp tip - timestamp anchor =? 0 then 1
               else timestamp tip - timestamp anchor)
            * 120)) as Hlong.
  { intros older anchor window tip Hc Hw Ht. unfold calculate_difficulty, len.
    rewrite Hc. rewrite length_app. simpl length. rewrite Hw.
    destruct (_ <=? 10) eqn:E; [apply Z.leb_le in E; lia|clear E].
    rewrite (index_from_end_last _ tip).
    2:{ rewrite last_app. rewrite last_cons, Ht. done. }
    pose proof (index_from_end_app older window anchor) as Ha.
    rewrite Hw in Ha. rewrite Ha. simpl.
    pose proof (slice_from_end_app (older ++ [anchor]) window) as Hs.
    rewrite Hw, <- app_assoc in Hs. simpl in Hs. rewrite Hs.
    rewrite fold_left_difficulty. by rewrite Z.add_0_l. }
  split; [|split; [exact Hlong|]].
  - intros H. unfold calculate_difficulty, len.
    destruct (_ <=? 10) eqn:E; [done|apply Z.leb_gt in E; lia].
  - intros Hlen Hall.
    destruct (longest_chain S) as [|anchor window] eqn:Hc; [done|].
    simpl in Hlen. assert (length window = 10%nat) as Hw by lia.
    destruct (last window) as [tip|] eqn:Ht.
    2:{ apply last_None in Ht. by subst. }
    rewrite (Hlong [] anchor window tip eq_refl Hw Ht).
    apply Forall_cons in Hall as [[Hta Hda] Hall].
    assert (timestamp tip = 0) as ->.
    { apply last_Some_elem_of in Ht.
      by apply (proj1 (Forall_forall _ _) Hall) in Ht as [? _]. }
    rewrite Hta. simpl.
    assert (difficulty <$> window = replicate 10 1000) as ->.
    { rewrite <- Hw. clear -Hall. induction Hall as [|b bs [_ Hd] _ IH]; [done|].
      rewrite fmap_cons, Hd, IH. done. }
    reflexivity.
Qed.

(** ** The object store and the dictionary statements *)

Lemma bind_run {S A B} (m : M S A) (k : A → M S B) s s' a :
  m s = (s', inr a) → bind m k s = k a s'.
Proof. unfold bind. by intros ->. Qed.

Lemma bind_raise {S A B} (m : M S A) (k : A → M S B) s s' e :
  m s = (s', inl e) → bind m k s = (s', inl e).
Proof. unfold bind. by intros ->. Qed.

Lemma getitem_present (d : PyDict) (k : bytes) (l : loc) (h : heap) :
  items d !! k = Some l → getitem d k h = (h, inr (d, l)).
Proof. unfold getitem. by intros ->. Qed.

Lemma unchanged_below_refl n h : unchanged_below n h h.
Proof. by split. Qed.

Lemma unchanged_below_trans n h1 h2 h3 :
  unchanged_below n h1 h2 → unchanged_below n h2 h3 →
  unchanged_below n h1 h3.
Proof.
  intros [L1 H1] [L2 H2]. split; [lia|].
  intros l Hl. by rewrite H2, H1.
Qed.

Lemma unchanged_below_alloc n h u :
  (n ≤ length h)%nat → unchanged_below n h (h ++ [u]).
Proof.
  intros Hn. split; [rewrite length_app; lia|].
  intros l Hl. rewrite lookup_app_l by lia. done.
Qed.

Lemma unchanged_below_write n h l u :
  (n ≤ l)%nat → unchanged_below n h (<[l := u]> h).
Proof.
  intros Hl. split; [by rewrite length_insert|].
  intros l' Hl'. apply list_lookup_insert_ne. lia.
Qed.

Lemma unchanged_below_weaken n n' h h' :
  (n' ≤ n)%nat → unchanged_below n h h' → unchanged_below n' h h'.
Proof. intros Hn [L H]. split; [done|]. intros l Hl. apply H. lia. Qed.

Lemma dict_above_weaken n n' h d :
  (n' ≤ n)%nat → dict_above n h d → dict_above n' h d.
Proof.
  intros Hn [L H]. split; [lia|]. intros k l Hk.
  specialize (H k l Hk). lia.
Qed.

Lemma dict_above_write n h d l u :
  dict_above n h d → dict_above n (<[l := u]> h) d.
Proof. intros [L H]. split; rewrite length_insert; done. Qed.

Lemma framed_bind {A B} n (Q : heap → A → Prop) (R : heap → B → Prop)
    (m : M heap A) (k : A → M heap B) h :
  framed n Q m h →
  (∀ h' a, Q h' a → framed n R (k a) h') →
  framed n R (bind m k) h.
Proof.
  unfold framed, bind. intros [Hu HQ] Hk.
  destruct (m h) as [h' [e|a]]; simpl in *; [done|].
  destruct (Hk h' a HQ) as [Hu' HR].
  split; [by eapply unchanged_below_trans|done].
Qed.

Lemma framed_ret {A} n (Q : heap → A → Prop) (a : A) h :
  Q h a → framed n Q (ret a) h.
Proof. intros HQ. split; [apply unchanged_below_refl|done]. Qed.

Lemma framed_lift {A} n (Q : heap → A → Prop) (r : exn + A) h :
  (∀ a, r = inr a → Q h a) → framed n Q (lift r) h.
Proof.
  intros HQ. split; [apply unchanged_below_refl|].
  simpl. destruct r; auto.
Qed.

Lemma framed_assert n (Q : heap → unit → Prop) b a h :
  Q h tt → framed n Q (assert_ b a) h.
Proof.
  intros HQ. unfold assert_. destruct b; [by apply framed_ret|].
  split; [apply unchanged_below_refl|done].
Qed.

Lemma framed_weaken {A} n (Q Q' : heap → A → Prop) (m : M heap A) h :
  framed n Q m h → (∀ h' a, Q h' a → Q' h' a) → framed n Q' m h.
Proof.
  unfold framed. intros [Hu HQ] HQQ. split; [done|].
  destruct ((m h).2); auto.
Qed.

Lemma framed_weaken_below {A} n n' (Q : heap → A → Prop) (m : M heap A) h :
  (n' ≤ n)%nat → framed n Q m h → framed n' Q m h.
Proof.
  intros Hn [Hu HQ]. split; [by eapply unchanged_below_weaken|done].
Qed.

Lemma getitem_framed n d k h :
  dict_above n h d →
  framed n (λ h' r, dict_above n h' r.1 ∧ items r.1 !! k = Some r.2 ∧
                   default_factory r.1 = default_factory d)
    (getitem d k) h.
Proof.
  intros [L H]. unfold getitem.
  destruct (items d !! k) as [l|] eqn:E.
  { apply framed_ret. done. }
  destruct (default_factory d) as [u|] eqn:F.
  2:{ split; [apply unchanged_below_refl|done]. }
  unfold framed, bind, new_object, ret. simpl.
  split; [by apply unchanged_below_alloc|].
  split; [|split; [apply lookup_insert_eq|done]].
  split; [rewrite length_app; lia|].
  intros k' l'. cbn [items]. rewrite lookup_insert. case_decide.
  - intros [= <-]. rewrite length_app. simpl. lia.
  - intros Hk'. specialize (H k' l' Hk'). rewrite length_app. lia.
Qed.

Lemma earn_into_framed n d k x undo h :
  dict_above n h d →
  framed n (λ h' d', dict_above n h' d' ∧
                     default_factory d' = default_factory d)
    (earn_into d k x undo) h.
Proof.
  intros Hd. unfold earn_into.
  eapply framed_bind; [by apply getitem_framed|].
  intros h1 [d1 l1] (Hd1 & Hl1 & F1). simpl in *.
  eapply framed_bind with (Q := λ h' _, h' = h1).
  { split; [apply unchanged_below_refl|done]. }
  intros ? u ->.
  eapply framed_bind; [by apply getitem_framed|].
  intros h2 [d2 l2] (Hd2 & Hl2 & F2). simpl in *.
  eapply framed_bind with (Q := λ h' _, dict_above n h' d2).
  { split; simpl.
    - apply unchanged_below_write. destruct Hd2 as [_ H]. apply (H k l2 Hl2).
    - by apply dict_above_write. }
  intros h3 _ Hd3. apply framed_ret. split; [done|congruence].
Qed.

Lemma spend_into_framed n d k x undo h :
  dict_above n h d →
  framed n (λ h' d', dict_above n h' d' ∧
                     default_factory d' = default_factory d)
    (spend_into d k x undo) h.
Proof.
  intros Hd. unfold spend_into.
  eapply framed_bind; [by apply getitem_framed|].
  intros h1 [d1 l1] (Hd1 & Hl1 & F1). simpl in *.
  eapply framed_bind with (Q := λ h' _, h' = h1).
  { split; [apply unchanged_below_refl|done]. }
  intros ? u ->. destruct (spend u x undo) as [b c].
  eapply framed_bind; [by apply getitem_framed|].
  intros h2 [d2 l2] (Hd2 & Hl2 & F2). simpl in *.
  eapply framed_bind with (Q := λ h' _, dict_above n h' d2).
  { split; simpl.
    - apply unchanged_below_write. destruct Hd2 as [_ H]. apply (H k l2 Hl2).
    - by apply dict_above_write. }
  intros h3 _ Hd3.
  eapply framed_bind; [by apply getitem_framed|].
  intros h4 [d4 l4] (Hd4 & Hl4 & F4). simpl in *.
  eapply framed_bind with (Q := λ h' _, dict_above n h' d4).
  { split; simpl.
    - apply unchanged_below_write. destruct Hd4 as [_ H]. apply (H k l4 Hl4).
    - by apply dict_above_write. }
  intros h5 _ Hd5. apply framed_ret. split; [done|congruence].
Qed.

Lemma for_each_framed {X} n (body : X → PyDict → M heap PyDict) xs :
  (∀ x d h, dict_above n h d →
     framed n (λ h' d', dict_above n h' d' ∧
                        default_factory d' = default_factory d)
       (body x d) h) →
  ∀ d h, dict_above n h d →
    framed n (λ h' d', dict_above n h' d' ∧
                       default_factory d' = default_factory d)
      (for_each xs body d) h.
Proof.
  intros Hbody. induction xs as [|x xs IH]; intros d h Hd; simpl.
  - by apply framed_ret.
  - eapply framed_bind; [by apply Hbody|].
    intros h' d' [Hd' F]. eapply framed_weaken; [by apply IH|].
    simpl. intros h'' d'' [? ?]. split; [done|congruence].
Qed.

(** *** Deep copies allocate, and only allocate *)

Lemma locs_above_grow {K} `{Countable K} n h u (m : gmap K loc) :
  locs_above n h m → locs_above n (h ++ [u]) m.
Proof.
  intros Hm k l Hk. specialize (Hm k l Hk). rewrite length_app. lia.
Qed.

Lemma locs_above_insert {K} `{Countable K} n h (m : gmap K loc) k l :
  locs_above n h m → (n ≤ l < length h)%nat →
  locs_above n h (<[k := l]> m).
Proof.
  intros Hm Hl k' l'. rewrite lookup_insert. case_decide; [|by apply Hm].
  by intros [= <-].
Qed.

Lemma deepcopy_items_framed n es memo acc h :
  (n ≤ length h)%nat → locs_above n h memo → locs_above n h acc →
  framed n (λ h' its, (n ≤ length h')%nat ∧ locs_above n h' its)
    (deepcopy_items es memo acc) h.
Proof.
  revert memo acc h.
  induction es as [|[k l] es IH]; intros memo acc h Hn Hmemo Hacc; simpl.
  { by apply framed_ret. }
  destruct (memo !! l) as [l'|] eqn:E.
  { apply IH; [done..|]. apply locs_above_insert; [done|]. by apply (Hmemo l). }
  eapply framed_bind with (Q := λ h' _, h' = h).
  { split; [apply unchanged_below_refl|done]. }
  intros ? u ->.
  eapply framed_bind with (Q := λ h' l', h' = h ++ [u] ∧ l' = length h).
  { split; [by apply unchanged_below_alloc|done]. }
  intros ? ? [-> ->].
  apply IH.
  - rewrite length_app. lia.
  - apply locs_above_insert; [by apply locs_above_grow|].
    rewrite length_app. simpl. lia.
  - apply locs_above_insert; [by apply locs_above_grow|].
    rewrite length_app. simpl. lia.
Qed.

Lemma deepcopy_framed d h :
  framed (length h)
    (λ h' d', dict_above (length h) h' d' ∧
              default_factory d' = default_factory d)
    (deepcopy d) h.
Proof.
  unfold deepcopy.
  eapply framed_bind.
  { apply (deepcopy_items_framed (length h)); [done|..]; by intros ? ?. }
  intros h' its [Hn Hits]. apply framed_ret. by split.
Qed.

(** *** Frames of the block methods *)

Lemma apply_transaction_framed n miner t d h :
  dict_above n h d →
  framed n (λ h' d', dict_above n h' d' ∧
                     default_factory d' = default_factory d)
    (apply_transaction miner t d) h.
Proof.
  intros Hd. unfold apply_transaction.
  eapply framed_bind; [by apply getitem_framed|].
  intros h1 [d1 l1] (Hd1 & Hl1 & F1). simpl in *.
  eapply framed_bind with (Q := λ h' _, h' = h1).
  { split; [apply unchanged_below_refl|done]. }
  intros ? u ->.
  eapply framed_bind; [by apply getitem_framed|].
  intros h2 [d2 l2] (Hd2 & Hl2 & F2). simpl in *.
  eapply framed_bind with (Q := λ h' _, h' = h2).
  { split; [apply unchanged_below_refl|done]. }
  intros ? u' ->.
  eapply framed_bind with (Q := λ h' _, h' = h2).
  { by apply framed_lift. }
  intros ? ok ->.
  eapply framed_bind with (Q := λ h' _, h' = h2).
  { by apply framed_assert. }
  intros ? _ ->.
  eapply framed_bind; [by apply earn_into_framed|].
  intros h3 d3 [Hd3 F3]. simpl in *.
  eapply framed_bind; [by apply spend_into_framed|].
  intros h4 d4 [Hd4 F4]. simpl in *.
  eapply framed_weaken; [by apply earn_into_framed|].
  simpl. intros h5 d5 [Hd5 F5]. split; [done|congruence].
Qed.

Lemma undo_transaction_framed n miner t d h :
  dict_above n h d →
  framed n (λ h' d', dict_above n h' d' ∧
                     default_factory d' = default_factory d)
    (undo_transaction miner t d) h.
Proof.
  intros Hd. unfold undo_transaction.
  eapply framed_bind; [by apply earn_into_framed|].
  intros h3 d3 [Hd3 F3]. simpl in *.
  eapply framed_bind; [by apply spend_into_framed|].
  intros h4 d4 [Hd4 F4]. simpl in *.
  eapply framed_weaken; [by apply earn_into_framed|].
  simpl. intros h5 d5 [Hd5 F5]. split; [done|congruence].
Qed.

Lemma update_states_framed n B d reward h :
  dict_above n h d →
  framed n (λ h' d', dict_above n h' d') (update_states B d reward) h.
Proof.
  intros Hd. unfold update_states.
  eapply framed_bind; [by apply earn_into_framed|].
  intros h1 d1 [Hd1 _].
  eapply framed_weaken.
  { apply for_each_framed; [|done].
    intros; by apply apply_transaction_framed. }
  by intros ? ? [? _].
Qed.

Lemma verify_and_get_changes_framed n B difficulty' d h :
  dict_above n h d →
  framed n (λ h' d', dict_above n h' d')
    (verify_and_get_changes B difficulty' d) h.
Proof.
  intros Hd. unfold verify_and_get_changes.
  eapply framed_bind with (Q := λ h' _, h' = h);
    [by apply framed_assert|intros ? _ ->].
  eapply framed_bind with (Q := λ h' _, h' = h);
    [by apply framed_lift|intros ? ? ->].
  eapply framed_bind with (Q := λ h' _, h' = h);
    [by apply framed_assert|intros ? _ ->].
  eapply framed_bind with (Q := λ h' _, h' = h);
    [by apply framed_assert|intros ? _ ->].
  eapply framed_bind with (Q := λ h' _, h' = h);
    [by apply framed_assert|intros ? _ ->].
  eapply framed_bind with (Q := λ h' _, h' = h);
    [by apply framed_lift|intros ? ? ->].
  eapply framed_bind with (Q := λ h' _, h' = h);
    [by apply framed_assert|intros ? _ ->].
  by apply update_states_framed.
Qed.

Lemma get_changes_for_undo_framed B d reward h :
  framed (length h) (λ h' d', dict_above (length h) h' d')
    (get_changes_for_undo B d reward) h.
Proof.
  unfold get_changes_for_undo.
  eapply framed_bind; [apply deepcopy_framed|].
  intros h1 d1 [Hd1 _].
  eapply framed_bind; [by apply earn_into_framed|].
  intros h2 d2 [Hd2 _].
  eapply framed_weaken.
  { apply for_each_framed; [|done].
    intros; by apply undo_transaction_framed. }
  by intros ? ? [? _].
Qed.

Lemma unchanged_below_take h h' :
  unchanged_below (length h) h h' → take (length h) h' = h.
Proof.
  intros [L H]. apply list_eq. intros i.
  destruct (decide (i < length h)%nat).
  - rewrite lookup_take_lt by done. by apply H.
  - rewrite lookup_take_ge by lia. symmetry. apply lookup_ge_None_2. lia.
Qed.

Lemma view_unchanged n h h' d :
  unchanged_below n h h' →
  (∀ k l, items d !! k = Some l → (l < n)%nat) →
  view h' d = view h d.
Proof.
  intros [_ H] Hd. unfold view. apply map_fmap_ext.
  intros k l Hk. rewrite !list_lookup_total_alt, H; [done|by eapply Hd].
Qed.

(** C10. [get_changes_for_undo] leaves every object that existed before
    the call as it was, whatever dictionary it is given and whether or not
    it raises: the store after the call is the store before it followed
    by new objects, so the input dictionary reads the same, and the
    dictionary returned refers to new objects only. *)
Theorem get_changes_for_undo_keeps_input
    (B : Block) (user_states_after : PyDict) (mining_reward : Z) (h : heap) :
  let '(h', r) := get_changes_for_undo B user_states_after mining_reward h in
  take (length h) h' = h ∧
  (dict_alloc h user_states_after →
   view h' user_states_after = view h user_states_after) ∧
  ∀ undone, r = inr undone → dict_above (length h) h' undone.
Proof.
  pose proof (get_changes_for_undo_framed B user_states_after mining_reward h)
    as [Hu HQ].
  destruct (get_changes_for_undo B user_states_after mining_reward h)
    as [h' r]. simpl in *.
  split; [by apply unchanged_below_take|]. split.
  - intros Ha. by eapply view_unchanged.
  - by intros undone ->.
Qed.

(** ** What the dictionary statements do to the view *)

Lemma view_lookup h d k :
  view h d !! k = (λ l, h !!! l) <$> items d !! k.
Proof. unfold view. by rewrite lookup_fmap. Qed.

Lemma wf_write h d l u : wf h d → wf (<[l := u]> h) d.
Proof.
  intros [Ha Hi]. split; [|done]. intros k l' Hk.
  rewrite length_insert. by eapply Ha.
Qed.

Lemma view_write h d k l u :
  wf h d → items d !! k = Some l →
  view (<[l := u]> h) d = <[k := u]> (view h d).
Proof.
  intros [Ha Hi] Hk. apply map_eq. intros k'.
  rewrite lookup_insert, !view_lookup. case_decide as E.
  - subst k'. rewrite Hk. simpl. f_equal.
    apply list_lookup_total_insert_eq. by eapply Ha.
  - destruct (items d !! k') as [l'|] eqn:Hk'; [|done]. simpl. f_equal.
    apply list_lookup_total_insert_ne. intros ->. apply E. by eapply Hi.
Qed.

Lemma getitem_view u0 h d k :
  wf h d → default_factory d = Some u0 →
  ∃ h' d' l,
    getitem d k h = (h', inr (d', l)) ∧
    wf h' d' ∧ default_factory d' = Some u0 ∧
    items d' !! k = Some l ∧
    view h' d' = v_touch u0 (view h d) k ∧
    h' !!! l = v_get u0 (view h d) k.
Proof.
  intros [Ha Hi] F. unfold getitem, v_touch, v_get.
  destruct (items d !! k) as [l|] eqn:E.
  - exists h, d, l. rewrite view_lookup, E. simpl.
    split; [done|]. split; [done|]. split; [done|]. split; [done|].
    split; [|done]. symmetry. apply insert_id. by rewrite view_lookup, E.
  - rewrite F. unfold bind, new_object, ret. simpl.
    eexists _, _, _. split; [done|]. simpl.
    rewrite view_lookup, E. simpl.
    split; [|split; [done|split; [apply lookup_insert_eq|split]]].
    + split.
      * intros k' l'. simpl. rewrite lookup_insert, length_app. simpl.
        case_decide; [intros [= <-]; lia|]. intros Hk'.
        specialize (Ha k' l' Hk'). lia.
      * intros k1 k2 l'. simpl. rewrite !lookup_insert.
        repeat case_decide; simplify_eq; try done.
        -- intros [= <-] Hk2. specialize (Ha k2 _ Hk2). lia.
        -- intros Hk1 [= <-]. specialize (Ha k1 _ Hk1). lia.
        -- apply Hi.
    + unfold view. simpl. rewrite fmap_insert.
      rewrite list_lookup_total_middle by done. f_equal.
      apply map_fmap_ext. intros k' l' Hk'.
      apply lookup_total_app_l. by eapply Ha.
    + by apply list_lookup_total_middle.
Qed.

Lemma v_get_touch u0 V k : v_get u0 (v_touch u0 V k) k = v_get u0 V k.
Proof. unfold v_get, v_touch. by rewrite lookup_insert_eq. Qed.

Lemma earn_into_view u0 h d k x undo :
  wf h d → default_factory d = Some u0 →
  ∃ h' d',
    earn_into d k x undo h = (h', inr d') ∧
    wf h' d' ∧ default_factory d' = Some u0 ∧
    view h' d' = v_earn u0 (view h d) k x undo.
Proof.
  intros Hwf F. unfold earn_into.
  destruct (getitem_view u0 h d k Hwf F)
    as (h1 & d1 & l & Hrun & Hwf1 & F1 & Hl & Hv1 & Hu).
  rewrite (bind_run _ _ _ _ _ Hrun). unfold load. unfold bind at 1.
  rewrite (bind_run _ _ _ _ _ (getitem_present d1 k l h1 Hl)).
  unfold set_balance, bind, ret. eexists _, _. split; [done|].
  split; [by apply wf_write|]. split; [done|].
  rewrite (view_write _ _ k) by done. rewrite Hv1, Hu.
  unfold v_touch, v_earn. by rewrite insert_insert_eq.
Qed.

Lemma spend_into_view u0 h d k x undo :
  wf h d → default_factory d = Some u0 →
  ∃ h' d',
    spend_into d k x undo h = (h', inr d') ∧
    wf h' d' ∧ default_factory d' = Some u0 ∧
    view h' d' = v_spend u0 (view h d) k x undo.
Proof.
  intros Hwf F. unfold spend_into.
  destruct (getitem_view u0 h d k Hwf F)
    as (h1 & d1 & l & Hrun & Hwf1 & F1 & Hl & Hv1 & Hu).
  rewrite (bind_run _ _ _ _ _ Hrun). unfold load. unfold bind at 1.
  rewrite Hu. destruct (spend (v_get u0 (view h d) k) x undo) as [b n] eqn:Es.
  rewrite (bind_run _ _ _ _ _ (getitem_present d1 k l h1 Hl)).
  unfold set_balance. unfold bind at 1.
  rewrite (bind_run _ _ _ _ _ (getitem_present d1 k l _ Hl)).
  unfold set_nonce, bind, ret. eexists _, _. split; [done|].
  split; [by apply wf_write, wf_write|]. split; [done|].
  assert (l < length h1)%nat as Hlt by (destruct Hwf1 as [Ha _]; by eapply Ha).
  rewrite (view_write _ _ k) by (by try apply wf_write).
  rewrite (view_write _ _ k) by done.
  rewrite list_lookup_total_insert_eq by done. simpl.
  rewrite Hv1. unfold v_touch, v_spend. rewrite !insert_insert_eq.
  by rewrite Es.
Qed.

(** *** The block methods on the view *)

Lemma sim_bind (u0 : UserState) (m : M heap PyDict)
    (k : PyDict → M heap PyDict) (f : gmap bytes UserState)
    (g : gmap bytes UserState → exn + gmap bytes UserState) (h : heap) :
  (∃ h' d', m h = (h', inr d') ∧ wf h' d' ∧ default_factory d' = Some u0 ∧
            view h' d' = f) →
  (∀ h' d', wf h' d' → default_factory d' = Some u0 →
            sim u0 (k d' h') (g (view h' d'))) →
  sim u0 (bind m k h) (g f).
Proof.
  intros (h' & d' & Hrun & Hwf & F & <-) Hk.
  rewrite (bind_run _ _ _ _ _ Hrun). by apply Hk.
Qed.

Lemma sim_of_run (u0 : UserState) (m : M heap PyDict)
    (V' : gmap bytes UserState) (h : heap) :
  (∃ h' d', m h = (h', inr d') ∧ wf h' d' ∧ default_factory d' = Some u0 ∧
            view h' d' = V') →
  sim u0 (m h) (inr V').
Proof. intros (h' & d' & -> & Hwf & F & <-). done. Qed.

Lemma apply_transaction_view miner t h d :
  wf h d → default_factory d = Some default_user_state →
  sim default_user_state (apply_transaction miner t d h)
    (v_apply_transaction miner t (view h d)).
Proof.
  intros Hwf F. unfold apply_transaction, v_apply_transaction.
  destruct (getitem_view _ h d (sender_hash t) Hwf F)
    as (h1 & d1 & l & Hrun & Hwf1 & F1 & Hl & Hv1 & Hu).
  rewrite (bind_run _ _ _ _ _ Hrun). unfold load. unfold bind at 1.
  rewrite (bind_run _ _ _ _ _ (getitem_present d1 _ l h1 Hl)).
  unfold bind at 1. rewrite v_get_touch, Hu, <- Hv1.
  destruct (verify t _ _) as [e|ok] eqn:Ev.
  { unfold bind, lift. simpl. done. }
  unfold bind at 1, lift. simpl.
  destruct ok; [|done]. unfold bind at 1, assert_, ret. simpl.
  eapply (sim_bind _ _ _ _ (λ V, inr (v_earn _ (v_spend _ V _ _ _) _ _ _)));
    [by apply earn_into_view|].
  intros h2 d2 Hwf2 F2.
  eapply (sim_bind _ _ _ _ (λ V, inr (v_earn _ V _ _ _)));
    [by apply spend_into_view|].
  intros h3 d3 Hwf3 F3.
  apply sim_of_run. by apply earn_into_view.
Qed.

Lemma for_each_view (u0 : UserState) {X} (body : X → PyDict → M heap PyDict)
    (f : X → gmap bytes UserState → exn + gmap bytes UserState) xs :
  (∀ x h d, wf h d → default_factory d = Some u0 →
            sim u0 (body x d h) (f x (view h d))) →
  ∀ h d, wf h d → default_factory d = Some u0 →
         sim u0 (for_each xs body d h) (efold f xs (view h d)).
Proof.
  intros Hbody. induction xs as [|x xs IH]; intros h d Hwf F; simpl.
  { done. }
  specialize (Hbody x h d Hwf F). unfold sim in Hbody. unfold bind.
  destruct (body x d h) as [h' [e|d']], (f x (view h d)) as [e'|V'];
    simpl in *; try done.
  destruct Hbody as (Hwf' & F' & <-). by apply IH.
Qed.

Lemma update_states_view B h d reward :
  wf h d →
  sim default_user_state (update_states B d reward h)
    (v_update_states B (view h d) reward).
Proof.
  intros Hwf. unfold update_states, v_update_states.
  eapply (sim_bind _ _ _ _ (efold _ _)).
  { apply (earn_into_view default_user_state h
             (mkDict (items d) (Some default_user_state))); done. }
  intros h1 d1 Hwf1 F1. apply for_each_view; [|done..].
  intros; by apply apply_transaction_view.
Qed.

Lemma undo_transaction_view u0 miner t h d :
  wf h d → default_factory d = Some u0 →
  sim u0 (undo_transaction miner t d h)
    (inr (v_undo_transaction u0 miner t (view h d))).
Proof.
  intros Hwf F. unfold undo_transaction, v_undo_transaction.
  eapply (sim_bind _ _ _ _ (λ V, inr (v_earn _ (v_spend _ V _ _ _) _ _ _)));
    [by apply earn_into_view|].
  intros h2 d2 Hwf2 F2.
  eapply (sim_bind _ _ _ _ (λ V, inr (v_earn _ V _ _ _)));
    [by apply spend_into_view|].
  intros h3 d3 Hwf3 F3.
  apply sim_of_run. by apply earn_into_view.
Qed.

Lemma efold_total {A X} (f : X → A → A) xs (a : A) :
  efold (λ x a, inr (f x a)) xs a = inr (fold_left (λ a x, f x a) xs a).
Proof. revert a. induction xs as [|x xs IH]; intros a; simpl; auto. Qed.

(** *** Deep copies of account maps *)

Lemma deepcopy_items_view es memo acc h :
  NoDup es.*1 → NoDup es.*2 →
  (∀ l, l ∈ es.*2 → memo !! l = None ∧ (l < length h)%nat) →
  (∀ k, k ∈ es.*1 → acc !! k = None) →
  items_wf h acc →
  ∃ h' its,
    deepcopy_items es memo acc h = (h', inr its) ∧
    items_wf h' its ∧
    ∀ k, (λ l, h' !!! l) <$> its !! k =
         match (list_to_map es : gmap bytes loc) !! k with
         | Some l => Some (h !!! l)
         | None => (λ l, h !!! l) <$> acc !! k
         end.
Proof.
  revert memo acc h.
  induction es as [|[k0 l0] es IH]; intros memo acc h Hk Hl Hmemo Hacc Hwf.
  { exists h, acc. simpl. split; [done|]. split; [done|]. intros k.
    by rewrite lookup_empty. }
  simpl in *. apply NoDup_cons in Hk as [Hk0 Hk]. apply NoDup_cons in Hl as [Hl0 Hl].
  destruct (Hmemo l0 ltac:(left)) as [-> Hlt0].
  unfold load. unfold bind at 1. unfold new_object. unfold bind at 1.
  destruct Hwf as [Ha Hi].
  destruct (IH (<[l0 := length h]> memo) (<[k0 := length h]> acc)
              (h ++ [h !!! l0]) Hk Hl) as (h' & its & Hrun & Hwf' & Hv).
  - intros l Hin. rewrite lookup_insert_ne by (intros ->; done).
    destruct (Hmemo l ltac:(by right)) as [? ?]. rewrite length_app.
    split; [done|lia].
  - intros k Hin. rewrite lookup_insert_ne by (intros ->; done).
    apply Hacc. by right.
  - split.
    + intros k l. rewrite lookup_insert, length_app. simpl.
      case_decide; [intros [= <-]; lia|]. intros Hk'.
      specialize (Ha k l Hk'). lia.
    + intros k1 k2 l. rewrite !lookup_insert.
      repeat case_decide; simplify_eq; try done.
      * intros [= <-] Hk2. specialize (Ha k2 _ Hk2). lia.
      * intros Hk1 [= <-]. specialize (Ha k1 _ Hk1). lia.
      * apply Hi.
  - exists h', its. split; [done|]. split; [done|]. intros k. rewrite Hv.
    rewrite (lookup_insert (list_to_map es) k0 k). case_decide as E.
    + subst k. rewrite (not_elem_of_list_to_map_1 es k0) by done.
      rewrite lookup_insert_eq. simpl.
      by rewrite list_lookup_total_middle.
    + destruct (list_to_map es !! k) as [l|] eqn:El.
      * f_equal. apply lookup_total_app_l.
        apply elem_of_list_to_map_2 in El.
        apply (Hmemo l). right. apply list_elem_of_fmap. by exists (k, l).
      * rewrite lookup_insert_ne by done.
        destruct (acc !! k) as [l|] eqn:Ek; [|done]. simpl. f_equal.
        apply lookup_total_app_l. by eapply Ha.
Qed.

Lemma deepcopy_view h d :
  wf h d →
  ∃ h' d',
    deepcopy d h = (h', inr d') ∧
    wf h' d' ∧ default_factory d' = default_factory d ∧
    view h' d' = view h d.
Proof.
  intros [Ha Hi]. unfold deepcopy.
  destruct (deepcopy_items_view (map_to_list (items d)) ∅ ∅ h)
    as (h' & its & Hrun & Hwf' & Hv).
  - apply NoDup_fst_map_to_list.
  - apply NoDup_fmap_2_strong; [|apply NoDup_map_to_list].
    intros [k1 l1] [k2 l2] H1%elem_of_map_to_list H2%elem_of_map_to_list.
    simpl. intros <-. f_equal. by eapply Hi.
  - intros l Hin. split; [apply lookup_empty|].
    apply list_elem_of_fmap in Hin as ([k l'] & -> & Hin).
    apply elem_of_map_to_list in Hin. by eapply Ha.
  - intros; apply lookup_empty.
  - split; intros ?; intros; by rewrite lookup_empty in *.
  - rewrite (bind_run _ _ _ _ _ Hrun). unfold ret.
    exists h', (mkDict its (default_factory d)).
    split; [done|]. split; [done|]. split; [done|].
    apply map_eq. intros k. rewrite !view_lookup. simpl. rewrite Hv.
    rewrite list_to_map_to_list, lookup_empty.
    by destruct (items d !! k).
Qed.

Lemma get_changes_for_undo_view u0 B h d reward :
  wf h d → default_factory d = Some u0 →
  ∃ h' d',
    get_changes_for_undo B d reward h = (h', inr d') ∧
    wf h' d' ∧ default_factory d' = Some u0 ∧
    view h' d' = v_get_changes_for_undo u0 B (view h d) reward.
Proof.
  intros Hwf F. unfold get_changes_for_undo, v_get_changes_for_undo.
  destruct (deepcopy_view h d Hwf) as (h1 & d1 & Hrun & Hwf1 & F1 & Hv1).
  rewrite (bind_run _ _ _ _ _ Hrun). rewrite F in F1.
  destruct (earn_into_view u0 h1 d1 (miner B) reward true Hwf1 F1)
    as (h2 & d2 & Hrun2 & Hwf2 & F2 & Hv2).
  rewrite (bind_run _ _ _ _ _ Hrun2).
  pose proof (for_each_view u0 (undo_transaction (miner B))
                (λ t V, inr (v_undo_transaction u0 (miner B) t V))
                (transactions B)
                (λ t h d Hw Hf, undo_transaction_view u0 (miner B) t h d Hw Hf)
                h2 d2 Hwf2 F2) as Hsim.
  rewrite efold_total in Hsim. unfold sim in Hsim.
  destruct (for_each _ _ d2 h2) as [h3 [e|d3]]; simpl in Hsim; [done|].
  destruct Hsim as (Hwf3 & F3 & Hv3).
  exists h3, d3. split; [done|]. split; [done|]. split; [done|].
  by rewrite Hv3, Hv2, Hv1.
Qed.

(** ** Accounts, deltas and supply *)

Lemma account_insert V k u k' :
  account (<[k := u]> V) k' = if decide (k' = k) then u else account V k'.
Proof.
  unfold account. rewrite lookup_insert.
  repeat case_decide; simplify_eq; done.
Qed.

Lemma account_v_touch V k k' :
  account (v_touch default_user_state V k) k' = account V k'.
Proof. unfold v_touch. rewrite account_insert. by case_decide; subst. Qed.

Lemma account_v_earn V k x k' :
  account (v_earn default_user_state V k x false) k'
  = credit (account V) k x k'.
Proof. unfold v_earn, credit. by rewrite account_insert. Qed.

Lemma account_v_spend V k x k' :
  account (v_spend default_user_state V k x false) k'
  = debit (account V) k x k'.
Proof. unfold v_spend, debit. by rewrite account_insert. Qed.

Lemma credit_ext (P Q : ledger) who x :
  (∀ k, P k = Q k) → ∀ k, credit P who x k = credit Q who x k.
Proof. intros H k. unfold credit. by rewrite !H. Qed.

Lemma debit_ext (P Q : ledger) who x :
  (∀ k, P k = Q k) → ∀ k, debit P who x k = debit Q who x k.
Proof. intros H k. unfold debit. by rewrite !H. Qed.

Lemma v_apply_transaction_agree miner t V (P : ledger) :
  (∀ k, account V k = P k) →
  agree (v_apply_transaction miner t V) (spec_transaction miner t P).
Proof.
  intros HVP. unfold v_apply_transaction, spec_transaction.
  rewrite v_get_touch. change (v_get default_user_state V) with (account V).
  rewrite HVP. destruct (verify t _ _) as [e|[]]; simpl; try done.
  intros k. etrans; [apply account_v_earn|]. apply credit_ext.
  intros k1. etrans; [apply account_v_spend|]. apply debit_ext.
  intros k2. etrans; [apply account_v_earn|]. apply credit_ext.
  intros k3. rewrite account_v_touch. apply HVP.
Qed.

Lemma efold_agree miner txs V (P : ledger) :
  (∀ k, account V k = P k) →
  agree (efold (v_apply_transaction miner) txs V)
        (efold (spec_transaction miner) txs P).
Proof.
  revert V P. induction txs as [|t txs IH]; intros V P HVP; simpl; [done|].
  pose proof (v_apply_transaction_agree miner t V P HVP) as Ht.
  unfold agree in Ht.
  destruct (v_apply_transaction miner t V) as [e|V'],
           (spec_transaction miner t P) as [e'|P']; simpl; try done.
  by apply IH.
Qed.

Lemma v_update_states_agree B V :
  agree (v_update_states B V MINING_REWARD) (spec_apply_block B (account V)).
Proof.
  unfold v_update_states, spec_apply_block. apply efold_agree.
  intros k. by rewrite account_v_earn.
Qed.

Lemma fee_then_debit (miner : bytes) (t : Transaction) (d : PyDict) (h : heap) :
  wf h d → default_factory d = Some default_user_state →
  sender_hash t = miner →
  ∃ h1 d1 l h2 d2,
    earn_into d miner (fee t) false h = (h1, inr d1) ∧
    items d1 !! miner = Some l ∧
    balance (h1 !!! l) = balance (ledger_of h d miner) + fee t ∧
    spend_into d1 (sender_hash t) (amount t) false h1 = (h2, inr d2) ∧
    items d2 !! miner = Some l ∧
    h2 !!! l = mkUserState (balance (ledger_of h d miner) + fee t - amount t)
                           (nonce (ledger_of h d miner) + 1).
Proof.
  intros Hwf F Hs.
  destruct (earn_into_view _ h d miner (fee t) false Hwf F)
    as (h1 & d1 & Hrun1 & Hwf1 & F1 & Hv1).
  destruct (spend_into_view _ h1 d1 (sender_hash t) (amount t) false Hwf1 F1)
    as (h2 & d2 & Hrun2 & Hwf2 & F2 & Hv2).
  assert (∀ (h : heap) (d : PyDict) k u,
            view h d !! k = Some u → ∃ l, items d !! k = Some l ∧ h !!! l = u)
    as Hfind.
  { intros h0 d0 k u. rewrite view_lookup.
    destruct (items d0 !! k) as [l|]; [|done]. intros [= <-]. eauto. }
  destruct (Hfind h1 d1 miner _ (eq_trans (f_equal (.!! miner) Hv1)
              (lookup_insert_eq _ _ _))) as (l & Hl & Hu1).
  rewrite Hs in Hv2.
  destruct (Hfind h2 d2 miner _ (eq_trans (f_equal (.!! miner) Hv2)
              (lookup_insert_eq _ _ _))) as (l' & Hl' & Hu2).
  assert (l' = l) as ->.
  { (* [spend_into] on a key that is present keeps the dictionary *)
    clear -Hrun2 Hl Hl' Hs. unfold spend_into in Hrun2. rewrite Hs in Hrun2.
    rewrite (bind_run _ _ _ _ _ (getitem_present d1 _ l h1 Hl)) in Hrun2.
    unfold load in Hrun2. unfold bind at 1 in Hrun2.
    destruct (spend _ _ _) as [b n].
    rewrite (bind_run _ _ _ _ _ (getitem_present d1 _ l h1 Hl)) in Hrun2.
    unfold set_balance in Hrun2. unfold bind at 1 in Hrun2.
    rewrite (bind_run _ _ _ _ _ (getitem_present d1 _ l _ Hl)) in Hrun2.
    unfold set_nonce, bind, ret in Hrun2. simplify_eq. congruence. }
  exists h1, d1, l, h2, d2.
  split; [done|]. split; [done|]. split.
  { rewrite Hu1. unfold ledger_of. done. }
  split; [done|]. split; [done|].
  rewrite Hu2. unfold v_get. rewrite Hv1. unfold v_earn.
  rewrite lookup_insert_eq. simpl. unfold ledger_of, account, v_get. done.
Qed.

(** C7. On a dictionary that represents an account map, [update_states]
    computes the transition of the specification: the reward credit, then
    per transaction, in order, verification against the sender's current
    balance and nonce, fee credit to the miner, debit and nonce increment
    of the sender, credit of amount less fee to the recipient; it raises
    exactly when that transition fails, with the same exception. When the
    sender is the miner, the fee credit of line 141 leaves the miner's
    object with its balance plus the fee, and the debit of line 144, run
    on that store, leaves it with (balance + fee) - amount. (The
    verification comes first: the amount is at most the balance before
    the fee.) *)
Theorem update_states_refines_spec (B : Block) (d : PyDict) (h : heap) :
  wf h d →
  match update_states B d MINING_REWARD h,
        spec_apply_block B (ledger_of h d) with
  | (h', inr d'), inr P' => wf h' d' ∧ ∀ k, ledger_of h' d' k = P' k
  | (_, inl e), inl e' => e = e'
  | _, _ => False
  end ∧
  ∀ (t : Transaction) (updated : PyDict) (h0 : heap),
    wf h0 updated → default_factory updated = Some default_user_state →
    sender_hash t = miner B →
    ∃ h1 d1 l h2 d2,
      earn_into updated (miner B) (fee t) false h0 = (h1, inr d1) ∧
      items d1 !! miner B = Some l ∧
      balance (h1 !!! l) = balance (ledger_of h0 updated (miner B)) + fee t ∧
      spend_into d1 (sender_hash t) (amount t) false h1 = (h2, inr d2) ∧
      items d2 !! miner B = Some l ∧
      h2 !!! l = mkUserState
                   (balance (ledger_of h0 updated (miner B)) + fee t - amount t)
                   (nonce (ledger_of h0 updated (miner B)) + 1) ∧
      ∀ (P P' : ledger),
        spec_transaction (miner B) t P = inr P' →
        0 < amount t ≤ balance (P (miner B)).
Proof.
  intros Hwf. split.
  - pose proof (update_states_view B h d MINING_REWARD Hwf) as Hsim.
    pose proof (v_update_states_agree B (view h d)) as Hagree.
    unfold sim in Hsim. unfold agree in Hagree. unfold ledger_of.
    destruct (update_states B d MINING_REWARD h) as [h' [e|d']],
             (v_update_states B (view h d) MINING_REWARD) as [e1|V'],
             (spec_apply_block B (account (view h d))) as [e2|P'];
      simpl in *; try done; [congruence|].
    destruct Hsim as (Hwf' & _ & ->). done.
  - intros t updated h0 Hwf0 F Hs.
    destruct (fee_then_debit (miner B) t updated h0 Hwf0 F Hs)
      as (h1 & d1 & l & h2 & d2 & H1 & H2 & H3 & H4 & H5 & H6).
    exists h1, d1, l, h2, d2. repeat (split; [done|]).
    intros P P'. unfold spec_transaction. rewrite Hs.
    destruct (verify t _ _) as [e|[]] eqn:Ev; simpl; try done. intros _.
    by apply verify_succeeds_iff in Ev as (_ & _ & _ & ? & _).
Qed.

(** *** Deltas: every step adds to, or takes from, single accounts *)

Ltac ledger_cases P k :=
  repeat case_decide; simplify_eq; simpl; try done;
  first [solve [f_equal; lia] | destruct (P k); simpl; f_equal; lia].

Lemma spec_transaction_delta miner t (P P' : ledger) k :
  spec_transaction miner t P = inr P' →
  P' k = shift (P k) (tx_delta miner t k).
Proof.
  unfold spec_transaction. destruct (verify t _ _) as [e|[]]; simpl; try done.
  intros [= <-]. unfold credit, debit, shift, tx_delta. simpl.
  generalize (sender_hash t) (recipient_hash t) (amount t) (fee t).
  intros s r a f. ledger_cases P k.
Qed.

Lemma efold_spec_delta miner txs (P P' : ledger) k :
  efold (spec_transaction miner) txs P = inr P' →
  P' k = shift (P k) (txs_delta miner txs k).
Proof.
  revert P. induction txs as [|t txs IH]; intros P; simpl.
  { intros [= <-]. unfold shift. simpl. destruct (P k). simpl. f_equal; lia. }
  destruct (spec_transaction miner t P) as [e|P1] eqn:E; simpl; [done|].
  intros H. rewrite (IH _ H), (spec_transaction_delta _ _ _ _ k E).
  unfold shift. simpl. f_equal; lia.
Qed.

Lemma spec_apply_block_delta B (P P' : ledger) k :
  spec_apply_block B P = inr P' →
  P' k = shift (P k) (block_delta B k).
Proof.
  unfold spec_apply_block. intros H.
  rewrite (efold_spec_delta _ _ _ _ k H).
  unfold credit, shift, block_delta, MINING_REWARD. simpl.
  generalize (txs_delta (miner B) (transactions B) k). intros [db dn].
  generalize (miner B). intros m. ledger_cases P k.
Qed.

Lemma account_v_earn_undo V k x k' :
  account (v_earn default_user_state V k x true) k'
  = if decide (k' = k)
    then mkUserState (balance (account V k) - x) (nonce (account V k))
    else account V k'.
Proof. unfold v_earn. by rewrite account_insert. Qed.

Lemma account_v_spend_undo V k x k' :
  account (v_spend default_user_state V k x true) k'
  = if decide (k' = k)
    then mkUserState (balance (account V k) + x) (nonce (account V k) - 1)
    else account V k'.
Proof. unfold v_spend. by rewrite account_insert. Qed.

Lemma v_undo_transaction_delta miner t V k :
  account (v_undo_transaction default_user_state miner t V) k
  = unshift (account V k) (tx_delta miner t k).
Proof.
  unfold v_undo_transaction.
  rewrite account_v_earn_undo, !account_v_spend_undo, !account_v_earn_undo.
  unfold unshift, tx_delta. simpl.
  generalize (sender_hash t) (recipient_hash t) (amount t) (fee t).
  intros s r a f. ledger_cases (account V) k.
Qed.

Lemma v_undo_transactions_delta miner txs V k :
  account (fold_left (λ V t, v_undo_transaction default_user_state miner t V)
             txs V) k
  = unshift (account V k) (txs_delta miner txs k).
Proof.
  revert V. induction txs as [|t txs IH]; intros V; simpl.
  { unfold unshift. simpl. destruct (account V k). simpl. f_equal; lia. }
  rewrite IH, v_undo_transaction_delta. unfold unshift. simpl. f_equal; lia.
Qed.

Lemma v_get_changes_for_undo_delta B V k :
  account (v_get_changes_for_undo default_user_state B V MINING_REWARD) k
  = unshift (account V k) (block_delta B k).
Proof.
  unfold v_get_changes_for_undo.
  rewrite v_undo_transactions_delta, account_v_earn_undo.
  unfold unshift, block_delta. simpl.
  generalize (txs_delta (miner B) (transactions B) k). intros [db dn].
  generalize (miner B). intros m. unfold MINING_REWARD.
  ledger_cases (account V) k.
Qed.

Lemma unshift_shift u delta : unshift (shift u delta) delta = u.
Proof. destruct u. unfold unshift, shift. simpl. f_equal; lia. Qed.

(** *** Supply *)

Lemma supply_insert V k u :
  supply (<[k := u]> V) = supply V - balance (account V k) + balance u.
Proof.
  assert (∀ (W : gmap bytes UserState) k u, W !! k = None →
            supply (<[k := u]> W) = balance u + supply W) as Hfresh.
  { intros W k0 u0 Hk. unfold supply.
    rewrite map_fold_insert_L; [done| |done]. intros; lia. }
  unfold account. destruct (V !! k) as [u'|] eqn:E; simpl.
  - rewrite <- (insert_delete_id V k u' E) at 2.
    rewrite <- insert_delete_eq.
    rewrite !Hfresh by apply lookup_delete_eq. lia.
  - rewrite Hfresh by done. lia.
Qed.

Lemma supply_v_touch V k :
  supply (v_touch default_user_state V k) = supply V.
Proof. unfold v_touch. rewrite supply_insert. unfold v_get, account. lia. Qed.

Lemma supply_v_earn V k x :
  supply (v_earn default_user_state V k x false) = supply V + x.
Proof.
  unfold v_earn. rewrite supply_insert. unfold v_get, account, earn. simpl. lia.
Qed.

Lemma supply_v_spend V k x :
  supply (v_spend default_user_state V k x false) = supply V - x.
Proof.
  unfold v_spend. rewrite supply_insert. unfold v_get, account, spend. simpl.
  lia.
Qed.

Lemma supply_v_apply_transaction miner t V V' :
  v_apply_transaction miner t V = inr V' → supply V' = supply V.
Proof.
  unfold v_apply_transaction. destruct (verify t _ _) as [e|[]]; simpl; try done.
  intros [= <-].
  rewrite supply_v_earn, supply_v_spend, supply_v_earn, supply_v_touch. lia.
Qed.

Lemma supply_v_update_states B V V' reward :
  v_update_states B V reward = inr V' → supply V' = supply V + reward.
Proof.
  unfold v_update_states. rewrite <- (supply_v_earn V (miner B) reward).
  generalize (v_earn default_user_state V (miner B) reward false).
  induction (transactions B) as [|t txs IH]; intros W; simpl.
  { by intros [= <-]. }
  destruct (v_apply_transaction (miner B) t W) as [e|W1] eqn:E; simpl; [done|].
  intros H. rewrite (IH _ H). by eapply supply_v_apply_transaction.
Qed.

Lemma total_supply_view h d : total_supply h d = supply (view h d).
Proof. unfold total_supply, supply, view. by rewrite map_fold_fmap. Qed.

(** ** Frames of the chain methods *)

Lemma framed_w_bind {A B} n (Q : world → A → Prop) (R : world → B → Prop)
    (m : M world A) (k : A → M world B) w :
  framed_w n Q m w →
  (∀ w' a, Q w' a → framed_w n R (k a) w') →
  framed_w n R (bind m k) w.
Proof.
  unfold framed_w, bind. intros [Hu HQ] Hk.
  destruct (m w) as [w' [e|a]]; simpl in *; [done|].
  destruct (Hk w' a HQ) as [Hu' HR].
  split; [by eapply unchanged_below_trans|done].
Qed.

Lemma framed_w_pure {A} n (Q : world → A → Prop) (m : M world A) w :
  (m w).1.1 = w.1 →
  (∀ a, (m w).2 = inr a → Q (m w).1 a) →
  framed_w n Q m w.
Proof.
  intros Hh HQ. split; [rewrite Hh; apply unchanged_below_refl|].
  destruct ((m w).2) eqn:E; auto.
Qed.

Lemma on_store_framed {A} n (Q : heap → A → Prop) (m : M heap A) w :
  framed n Q m w.1 →
  framed_w n (λ w' a, Q w'.1 a ∧ w'.2 = w.2) (on_store m) w.
Proof.
  unfold framed, framed_w, on_store. destruct (m w.1) as [h' r]. simpl.
  intros [Hu HQ]. split; [done|]. destruct r; auto.
Qed.

Ltac framed_pure :=
  apply framed_w_pure;
  unfold self_, assert_, lift, ret, raise, bind, set_longest_chain,
    set_total_difficulty, set_user_states;
  [repeat case_match; simplify_eq/=; done
  |intros ?; repeat case_match; intros; simplify_eq/=; auto].

Lemma verify_and_apply_block_framed n block w :
  state_above n w →
  framed_w n (λ w' _, state_above n w') (verify_and_apply_block block) w.
Proof.
  intros Hw. unfold verify_and_apply_block.
  eapply framed_w_bind with (Q := λ w' s, w' = w ∧ s = w.2).
  { framed_pure. }
  intros ? self [-> ->].
  eapply framed_w_bind with (Q := λ w' _, w' = w).
  { framed_pure. }
  intros ? _ ->.
  eapply framed_w_bind with (Q := λ w' _, w' = w).
  { framed_pure. }
  intros ? _ ->.
  eapply framed_w_bind with (Q := λ w' _, w' = w).
  { framed_pure. }
  intros ? _ ->.
  eapply framed_w_bind with (Q := λ w' _, w' = w).
  { framed_pure. }
  intros ? updated_difficulty ->.
  eapply framed_w_bind.
  { apply on_store_framed. by apply verify_and_get_changes_framed. }
  intros w1 updated_states [Hd1 Hs1]. simpl in *.
  apply framed_w_pure; [done|]. intros _ _. exact Hd1.
Qed.

Lemma undo_last_block_framed n w :
  (n ≤ length w.1)%nat →
  framed_w n (λ w' _, state_above n w') undo_last_block w.
Proof.
  intros Hn. unfold undo_last_block.
  eapply framed_w_bind with (Q := λ w' s, w' = w ∧ s = w.2).
  { framed_pure. }
  intros ? self [-> ->].
  eapply framed_w_bind with (Q := λ w' _, w' = w).
  { framed_pure. }
  intros ? removed_block ->.
  eapply framed_w_bind with (Q := λ w' _, w'.1 = w.1).
  { framed_pure. }
  intros w1 _ H1.
  eapply framed_w_bind with (Q := λ w' s, w'.1 = w.1 ∧ s = w'.2).
  { framed_pure. }
  intros w2 self2 [H2 ->].
  eapply framed_w_bind with (Q := λ w' _, w'.1 = w.1).
  { framed_pure. }
  intros w3 _ H3.
  eapply framed_w_bind with (Q := λ w' s, w'.1 = w.1 ∧ s = w'.2).
  { framed_pure. }
  intros w4 self4 [H4 ->].
  eapply framed_w_bind.
  { apply on_store_framed.
    eapply framed_weaken_below; [|apply get_changes_for_undo_framed].
    rewrite H4. exact Hn. }
  intros w5 undone [Hd5 Hs5]. simpl in *.
  apply framed_w_pure; [done|]. intros _ _.
  unfold state_above. simpl. rewrite H4 in Hd5.
  by eapply dict_above_weaken.
Qed.

Lemma undo_above_framed n split_height index w :
  state_above n w →
  framed_w n (λ w' _, state_above n w') (undo_above split_height index) w.
Proof.
  revert w. induction index as [|i IH]; intros w Hw; simpl.
  { framed_pure. }
  eapply framed_w_bind with (Q := λ w' s, w' = w ∧ s = w.2).
  { framed_pure. }
  intros ? self [-> ->].
  destruct (longest_chain w.2 !! i) as [block|]; [|framed_pure].
  destruct (split_height <=? height block); [|framed_pure].
  eapply framed_w_bind.
  { apply undo_last_block_framed. by destruct Hw. }
  intros w' ? Hw'. by apply IH.
Qed.

Lemma apply_branch_framed n new_branch w :
  state_above n w →
  framed_w n (λ w' _, state_above n w') (apply_branch new_branch) w.
Proof.
  revert w. induction new_branch as [|b bs IH]; intros w Hw; simpl.
  { framed_pure. }
  eapply framed_w_bind; [by apply verify_and_apply_block_framed|].
  intros w' ? Hw'. by apply IH.
Qed.

Lemma with_state_framed {A} n (Q : world → A → Prop) s (m : M world A) h :
  framed_w n Q m (h, s) →
  framed n (λ h' a, ∃ s', Q (h', s') a) (with_state s m) h.
Proof.
  unfold framed_w, framed, with_state.
  destruct (m (h, s)) as [[h' s'] r]. simpl. intros [Hu HQ].
  split; [done|]. destruct r; eauto.
Qed.

Lemma replay_branch_framed old_state new_branch h :
  framed (length h)
    (λ h' new_state, dict_above (length h) h' (user_states new_state))
    (replay_branch old_state new_branch) h.
Proof.
  unfold replay_branch.
  eapply framed_bind; [apply deepcopy_framed|].
  intros h1 start_states [Hd1 _].
  eapply framed_bind with (Q := λ h' _, h' = h1);
    [by apply framed_lift|intros ? first ->].
  eapply framed_weaken.
  { apply with_state_framed.
    eapply framed_w_bind; [by apply undo_above_framed|].
    intros w2 ? Hw2.
    eapply framed_w_bind; [by apply apply_branch_framed|].
    intros w3 ? Hw3.
    apply framed_w_pure with (Q := λ w' s, state_above (length h) w' ∧ s = w'.2);
      [done|]. intros s3 [= <-]. done. }
  simpl. intros h' new_state (s' & Hs & ->). exact Hs.
Qed.

Lemma verify_reorg_framed old_state new_branch h :
  framed (length h)
    (λ h' new_state, dict_above (length h) h' (user_states new_state))
    (verify_reorg old_state new_branch) h.
Proof.
  unfold verify_reorg.
  eapply framed_bind; [apply replay_branch_framed|].
  intros h1 new_state Hd1.
  eapply framed_bind with (Q := λ h' _, h' = h1);
    [by apply framed_assert|intros ? _ ->].
  by apply framed_ret.
Qed.

(** C4. [verify_reorg] does not change any object that existed before the
    call, whether it raises or returns: the store after the call is the
    store before it followed by new objects, so [old_state]'s dictionary
    reads exactly as before. ([old_state]'s chain and total difficulty are
    only read by the function.) *)
Theorem verify_reorg_isolation
    (old_state : BlockchainState) (new_branch : list Block)
    (h h' : heap) (r : exn + BlockchainState) :
  verify_reorg old_state new_branch h = (h', r) →
  take (length h) h' = h ∧
  (dict_alloc h (user_states old_state) →
   view h' (user_states old_state) = view h (user_states old_state) ∧
   ∀ k, ledger_of h' (user_states old_state) k
        = ledger_of h (user_states old_state) k).
Proof.
  intros Hrun.
  pose proof (verify_reorg_framed old_state new_branch h) as [Hu _].
  rewrite Hrun in Hu. simpl in Hu.
  split; [by apply unchanged_below_take|].
  intros Ha. assert (view h' (user_states old_state)
                     = view h (user_states old_state)) as Hv.
  { by eapply view_unchanged. }
  split; [done|]. intros k. unfold ledger_of. by rewrite Hv.
Qed.

(** ** The chain and the cumulative difficulty *)

Lemma verify_and_apply_block_fields block w w' r :
  verify_and_apply_block block w = (w', r) →
  match r with
  | inr _ =>
      longest_chain w'.2 = longest_chain w.2 ++ [block] ∧
      total_difficulty w'.2 = total_difficulty w.2 + difficulty block ∧
      ∃ updated_difficulty,
        calculate_difficulty w.2 = inr updated_difficulty ∧
        verify_and_get_changes block updated_difficulty (user_states w.2) w.1
        = (w'.1, inr (user_states w'.2))
  | inl _ => w'.2 = w.2
  end.
Proof.
  unfold verify_and_apply_block, bind, self_, assert_, lift, on_store, ret,
    raise, set_longest_chain, set_total_difficulty, set_user_states.
  intros H. repeat case_match; simplify_eq/=; eauto.
Qed.

Lemma index_from_end_1 {A} (l : list A) (x : A) :
  index_from_end l 1 = inr x → l = take (length l - 1)%nat l ++ [x].
Proof.
  unfold index_from_end. case_decide; [|done].
  destruct (l !! (length l - 1)%nat) as [y|] eqn:E; [|done].
  intros [= ->]. rewrite <- (take_drop_middle l _ x E) at 1.
  f_equal. f_equal. apply drop_ge. lia.
Qed.

Lemma undo_last_block_fields w w' r :
  undo_last_block w = (w', r) →
  match r with
  | inr _ =>
      ∃ removed_block,
        longest_chain w.2 = longest_chain w'.2 ++ [removed_block] ∧
        total_difficulty w'.2 = total_difficulty w.2 - difficulty removed_block ∧
        get_changes_for_undo removed_block (user_states w.2) MINING_REWARD w.1
        = (w'.1, inr (user_states w'.2))
  | inl _ => True
  end.
Proof.
  unfold undo_last_block, bind, self_, lift, on_store, ret,
    set_longest_chain, set_total_difficulty, set_user_states.
  intros H. repeat case_match; simplify_eq/=; eauto.
  eexists. split; [by apply index_from_end_1|]. by split.
Qed.

Lemma chain_difficulty_snoc chain block :
  chain_difficulty (chain ++ [block])
  = chain_difficulty chain + difficulty block.
Proof.
  unfold chain_difficulty, Zsum. rewrite fmap_app, foldr_app. simpl.
  generalize (difficulty <$> chain). intros l.
  induction l as [|x l IH]; simpl; lia.
Qed.

Lemma undo_above_chain split_height index w w' u :
  undo_above split_height index w = (w', inr u) →
  longest_chain w'.2 `prefix_of` longest_chain w.2 ∧
  (td_consistent w.2 → td_consistent w'.2).
Proof.
  revert w. induction index as [|i IH]; intros w; simpl.
  { intros [= <-]. done. }
  unfold bind at 1. simpl.
  destruct (longest_chain w.2 !! i) as [block|]; [|by intros [= <-]].
  destruct (split_height <=? height block); [|by intros [= <-]].
  destruct (undo_last_block w) as [w1 [e|[]]] eqn:E.
  { by rewrite (bind_raise _ _ _ _ _ E). }
  rewrite (bind_run _ _ _ _ _ E). intros Hrest.
  apply IH in Hrest as [Hp Ht].
  apply undo_last_block_fields in E as (b & Hc & Htd & _).
  split.
  - etrans; [exact Hp|]. rewrite Hc. by apply prefix_app_r.
  - intros Hcons. apply Ht. unfold td_consistent in *.
    rewrite Hc, chain_difficulty_snoc in Hcons. lia.
Qed.

Lemma apply_branch_chain new_branch w w' u :
  apply_branch new_branch w = (w', inr u) →
  longest_chain w'.2 = longest_chain w.2 ++ new_branch ∧
  (td_consistent w.2 → td_consistent w'.2).
Proof.
  revert w. induction new_branch as [|b bs IH]; intros w; simpl.
  { intros [= <-]. by rewrite app_nil_r. }
  destruct (verify_and_apply_block b w) as [w1 [e|[]]] eqn:E.
  { by rewrite (bind_raise _ _ _ _ _ E). }
  rewrite (bind_run _ _ _ _ _ E). intros Hrest.
  apply IH in Hrest as [Hc Ht].
  apply verify_and_apply_block_fields in E as (Hc1 & Htd1 & _).
  split.
  - rewrite Hc, Hc1, <- app_assoc. done.
  - intros Hcons. apply Ht. unfold td_consistent in *.
    rewrite Hc1, chain_difficulty_snoc. lia.
Qed.

Lemma replay_branch_chain old_state new_branch h h' new_state :
  replay_branch old_state new_branch h = (h', inr new_state) →
  (∃ kept, kept `prefix_of` longest_chain old_state ∧
           longest_chain new_state = kept ++ new_branch) ∧
  (td_consistent old_state → td_consistent new_state).
Proof.
  unfold replay_branch.
  destruct (deepcopy (user_states old_state) h) as [h1 [e|d1]] eqn:E1.
  { by rewrite (bind_raise _ _ _ _ _ E1). }
  rewrite (bind_run _ _ _ _ _ E1).
  destruct new_branch as [|first rest]; [done|].
  unfold bind at 1, lift. unfold with_state.
  set (s0 := mkState _ _ _).
  destruct (undo_above (height first) (length (longest_chain s0)) (h1, s0))
    as [w2 [e|[]]] eqn:E2.
  { by rewrite (bind_raise _ _ _ _ _ E2). }
  rewrite (bind_run _ _ _ _ _ E2).
  destruct (apply_branch (first :: rest) w2) as [w3 [e|[]]] eqn:E3.
  { by rewrite (bind_raise _ _ _ _ _ E3). }
  rewrite (bind_run _ _ _ _ _ E3). unfold self_. intros [= <- <-].
  apply undo_above_chain in E2 as [Hp2 Ht2].
  apply apply_branch_chain in E3 as [Hc3 Ht3].
  split.
  - exists (longest_chain w2.2). done.
  - intros Hcons. apply Ht3, Ht2. exact Hcons.
Qed.

(** C5. [verify_reorg] returns a state only if that state's total
    difficulty is strictly greater than [old_state]'s; the returned chain
    is a prefix of the old chain followed by [new_branch], and its total
    difficulty is its cumulative difficulty whenever that held of
    [old_state]. Conversely, when the replay completes with a total
    difficulty that is not greater, [verify_reorg] raises. *)
Theorem verify_reorg_strictly_greater
    (old_state : BlockchainState) (new_branch : list Block) (h h' : heap) :
  (∀ new_state,
     verify_reorg old_state new_branch h = (h', inr new_state) →
     total_difficulty old_state < total_difficulty new_state ∧
     (∃ kept, kept `prefix_of` longest_chain old_state ∧
              longest_chain new_state = kept ++ new_branch) ∧
     (td_consistent old_state →
      chain_difficulty (longest_chain old_state)
      < chain_difficulty (longest_chain new_state))) ∧
  (∀ working,
     replay_branch old_state new_branch h = (h', inr working) →
     total_difficulty working ≤ total_difficulty old_state →
     verify_reorg old_state new_branch h
     = (h', inl (AssertionError LowerTotalDifficulty))).
Proof.
  unfold verify_reorg. split.
  - intros new_state.
    destruct (replay_branch old_state new_branch h) as [h1 [e|s1]] eqn:E.
    { by rewrite (bind_raise _ _ _ _ _ E). }
    rewrite (bind_run _ _ _ _ _ E). unfold bind, assert_, ret, raise.
    destruct (total_difficulty old_state <? total_difficulty s1) eqn:Hlt;
      [|done].
    intros [= <- <-]. apply Z.ltb_lt in Hlt.
    apply replay_branch_chain in E as [Hk Ht].
    split; [done|]. split; [done|].
    intros Hcons. specialize (Ht Hcons). unfold td_consistent in *. lia.
  - intros working E Hle.
    rewrite (bind_run _ _ _ _ _ E). unfold bind, assert_, ret, raise.
    destruct (total_difficulty old_state <? total_difficulty working) eqn:Hlt;
      [apply Z.ltb_lt in Hlt; lia|done].
Qed.

(** ** Applying a block, supply and round trip *)

Lemma verify_and_get_changes_inr B difficulty' d h h' d' :
  verify_and_get_changes B difficulty' d h = (h', inr d') →
  update_states B d MINING_REWARD h = (h', inr d').
Proof.
  unfold verify_and_get_changes, bind, assert_, lift, ret, raise.
  intros H. repeat case_match; simplify_eq/=; done.
Qed.

Lemma wf_empty h factory : wf h (mkDict ∅ factory).
Proof. split; intros ?; simpl; intros; simplify_map_eq. Qed.

(** A check of [wf] that can be run on a concrete store and dictionary. *)
Lemma wf_check h d :
  bool_decide (map_Forall (λ _ l, (l < length h)%nat) (items d)) = true →
  bool_decide (NoDup (map_to_list (items d)).*2) = true →
  wf h d.
Proof.
  intros Ha%bool_decide_eq_true Hn%bool_decide_eq_true. split.
  - intros k l Hk. by apply (Ha k l).
  - intros k1 k2 l H1 H2.
    apply elem_of_map_to_list in H1, H2.
    apply list_elem_of_lookup in H1 as [i1 H1], H2 as [i2 H2].
    assert (i1 = i2) as ->.
    { eapply NoDup_lookup; [exact Hn|..]; rewrite list_lookup_fmap.
      - by rewrite H1.
      - by rewrite H2. }
    congruence.
Qed.

Lemma verify_and_apply_block_wf B w w' u :
  wf w.1 (user_states w.2) →
  verify_and_apply_block B w = (w', inr u) →
  wf w'.1 (user_states w'.2).
Proof.
  intros Hwf Happly.
  apply verify_and_apply_block_fields in Happly
    as (_ & _ & ud & _ & Hrun%verify_and_get_changes_inr).
  pose proof (update_states_view B w.1 (user_states w.2) MINING_REWARD Hwf)
    as Hsim.
  rewrite Hrun in Hsim. unfold sim in Hsim. simpl in Hsim.
  destruct (v_update_states _ _ _); [done|]. by destruct Hsim.
Qed.

(** C9. When a block is accepted against a dictionary that represents an
    account map, the balances of the dictionary returned sum to the
    balances of the dictionary given, read before the call, plus 10_000. *)
Theorem accepted_block_mints_reward
    (B : Block) (difficulty' : Z) (d d' : PyDict) (h h' : heap) :
  wf h d →
  verify_and_get_changes B difficulty' d h = (h', inr d') →
  total_supply h' d' = total_supply h d + 10000.
Proof.
  intros Hwf Hrun%verify_and_get_changes_inr.
  pose proof (update_states_view B h d MINING_REWARD Hwf) as Hsim.
  rewrite Hrun in Hsim. unfold sim in Hsim. simpl in Hsim.
  destruct (v_update_states B (view h d) MINING_REWARD) as [e|V'] eqn:E;
    [done|].
  destruct Hsim as (_ & _ & Hv).
  rewrite !total_supply_view, Hv.
  by apply supply_v_update_states in E.
Qed.

Lemma undo_last_block_run w chain B h2 d2 :
  longest_chain w.2 = chain ++ [B] →
  get_changes_for_undo B (user_states w.2) MINING_REWARD w.1 = (h2, inr d2) →
  undo_last_block w
  = ((h2, mkState chain d2 (total_difficulty w.2 - difficulty B)), inr tt).
Proof.
  intros Hc Hrun. unfold undo_last_block.
  unfold bind at 1, self_. simpl.
  unfold bind at 1, lift. rewrite Hc.
  rewrite (index_from_end_last (chain ++ [B]) B) by apply last_snoc.
  unfold bind at 1, set_longest_chain. simpl.
  unfold bind at 1. simpl.
  unfold bind at 1, set_total_difficulty. simpl.
  unfold bind at 1. simpl.
  unfold bind, on_store, set_user_states. simpl. rewrite Hrun. simpl.
  rewrite length_app. simpl.
  replace (length chain + 1 - 1)%nat with (length chain) by lia.
  by rewrite take_app_length.
Qed.

(** C3. From a state whose dictionary represents an account map, a block
    that [verify_and_apply_block] accepts can be undone, and
    [undo_last_block] then restores the chain and the total difficulty
    and leaves a dictionary that reads, at every address and up to entries
    at the default, as the one of the state before the block was
    applied. *)
Theorem apply_then_undo_restores (B : Block) (w w1 : world) (u : unit) :
  wf w.1 (user_states w.2) →
  verify_and_apply_block B w = (w1, inr u) →
  ∃ w2,
    undo_last_block w1 = (w2, inr tt) ∧
    longest_chain w2.2 = longest_chain w.2 ∧
    total_difficulty w2.2 = total_difficulty w.2 ∧
    wf w2.1 (user_states w2.2) ∧
    ∀ k, ledger_of w2.1 (user_states w2.2) k
         = ledger_of w.1 (user_states w.2) k.
Proof.
  intros Hwf Happly.
  apply verify_and_apply_block_fields in Happly
    as (Hc & Htd & ud & _ & Hrun%verify_and_get_changes_inr).
  pose proof (update_states_view B w.1 (user_states w.2) MINING_REWARD Hwf)
    as Hsim.
  pose proof (v_update_states_agree B (view w.1 (user_states w.2))) as Hagree.
  rewrite Hrun in Hsim. unfold sim in Hsim. simpl in Hsim.
  destruct (v_update_states B (view w.1 (user_states w.2)) MINING_REWARD)
    as [e|V1] eqn:EV; [done|].
  destruct Hsim as (Hwf1 & F1 & Hv1).
  unfold agree in Hagree.
  destruct (spec_apply_block B (account (view w.1 (user_states w.2))))
    as [e|P1] eqn:EP; [done|].
  destruct (get_changes_for_undo_view _ B w1.1 (user_states w1.2)
              MINING_REWARD Hwf1 F1) as (h2 & d2 & Hundo & Hwf2 & F2 & Hv2).
  eexists. split; [by apply (undo_last_block_run w1 (longest_chain w.2) B h2 d2)|].
  simpl. split; [done|]. split; [lia|]. split; [done|].
  intros k. unfold ledger_of.
  rewrite Hv2, Hv1, v_get_changes_for_undo_delta, Hagree.
  rewrite (spec_apply_block_delta B _ _ k EP). apply unshift_shift.
Qed.

(** ** The invariant of reachable states *)

Lemma wf_grow h h' d : wf h d → (length h ≤ length h')%nat → wf h' d.
Proof.
  intros [Ha Hi] L. split; [|done]. intros k l Hk.
  specialize (Ha k l Hk). lia.
Qed.

Lemma wf_state_above w : wf w.1 (user_states w.2) → state_above 0 w.
Proof.
  intros [Ha _]. split; [lia|]. intros k l Hk.
  specialize (Ha k l Hk). lia.
Qed.

Lemma verify_and_apply_block_inv B w w' r :
  state_inv w → verify_and_apply_block B w = (w', r) → state_inv w'.
Proof.
  intros (Hwf & Hf & Htd) Hrun.
  pose proof (verify_and_apply_block_framed 0 B w (wf_state_above w Hwf))
    as [[Hlen _] _]. rewrite Hrun in Hlen. simpl in Hlen.
  destruct r as [e|u].
  - apply verify_and_apply_block_fields in Hrun. simpl in Hrun.
    unfold state_inv. rewrite Hrun. split; [by eapply wf_grow|done].
  - pose proof (verify_and_apply_block_wf B w w' u Hwf Hrun) as Hwf'.
    apply verify_and_apply_block_fields in Hrun
      as (Hc & Ht & ud & _ & Hupd%verify_and_get_changes_inr).
    split; [done|]. split.
    + left. pose proof (update_states_view B w.1 (user_states w.2)
                          MINING_REWARD Hwf) as Hsim.
      rewrite Hupd in Hsim. unfold sim in Hsim. simpl in Hsim.
      destruct (v_update_states _ _ _); [done|]. by destruct Hsim as (_ & ? & _).
    + unfold td_consistent in *. rewrite Hc, chain_difficulty_snoc. lia.
Qed.

Lemma undo_last_block_inv w w' r :
  state_inv w → undo_last_block w = (w', r) → state_inv w'.
Proof.
  intros (Hwf & Hf & Htd) Hrun.
  destruct (longest_chain w.2) as [|b0 c0] eqn:Hc using rev_ind.
  { (* [pop] on the empty chain raises and nothing has changed *)
    clear Hf. unfold undo_last_block in Hrun.
    unfold bind at 1, self_ in Hrun. simpl in Hrun. rewrite Hc in Hrun.
    unfold bind, lift in Hrun. simpl in Hrun.
    assert (w' = w) as -> by (vm_compute in Hrun; congruence).
    split; [done|]. split; [by right|done]. }
  clear IHc0. destruct Hf as [Hf|Hf]; [|by destruct c0].
  destruct (get_changes_for_undo_view _ b0 w.1 (user_states w.2)
              MINING_REWARD Hwf Hf) as (h2 & d2 & Hundo & Hwf2 & F2 & _).
  rewrite (undo_last_block_run w c0 b0 h2 d2 Hc Hundo) in Hrun.
  simplify_eq. split; [done|]. split; [by left|].
  unfold td_consistent in *. simpl.
  rewrite Hc, chain_difficulty_snoc in Htd. lia.
Qed.

Lemma undo_above_inv split_height index w w' r :
  state_inv w → undo_above split_height index w = (w', r) → state_inv w'.
Proof.
  revert w. induction index as [|i IH]; intros w Hinv; simpl.
  { by intros [= <- _]. }
  unfold bind at 1. simpl.
  destruct (longest_chain w.2 !! i) as [block|]; [|by intros [= <- _]].
  destruct (split_height <=? height block); [|by intros [= <- _]].
  destruct (undo_last_block w) as [w1 [e|[]]] eqn:E.
  - rewrite (bind_raise _ _ _ _ _ E). intros [= <- _].
    by eapply undo_last_block_inv.
  - rewrite (bind_run _ _ _ _ _ E). apply IH. by eapply undo_last_block_inv.
Qed.

Lemma apply_branch_inv new_branch w w' r :
  state_inv w → apply_branch new_branch w = (w', r) → state_inv w'.
Proof.
  revert w. induction new_branch as [|b bs IH]; intros w Hinv; simpl.
  { by intros [= <- _]. }
  destruct (verify_and_apply_block b w) as [w1 [e|[]]] eqn:E.
  - rewrite (bind_raise _ _ _ _ _ E). intros [= <- _].
    by eapply verify_and_apply_block_inv.
  - rewrite (bind_run _ _ _ _ _ E). apply IH.
    by eapply verify_and_apply_block_inv.
Qed.

Lemma verify_reorg_inv old_state new_branch h h' new_state :
  state_inv (h, old_state) →
  verify_reorg old_state new_branch h = (h', inr new_state) →
  state_inv (h', new_state).
Proof.
  intros (Hwf & Hf & Htd). unfold verify_reorg.
  destruct (replay_branch old_state new_branch h) as [h1 [e|s1]] eqn:E.
  { by rewrite (bind_raise _ _ _ _ _ E). }
  rewrite (bind_run _ _ _ _ _ E). unfold bind, assert_, ret, raise.
  destruct (_ <? _); [|done]. intros [= <- <-].
  unfold replay_branch in E.
  destruct (deepcopy_view h (user_states old_state) Hwf)
    as (h0 & d0 & Hcopy & Hwf0 & F0 & _).
  rewrite (bind_run _ _ _ _ _ Hcopy) in E.
  destruct new_branch as [|first rest]; [done|].
  unfold bind at 1, lift in E. unfold with_state in E.
  set (s0 := mkState _ _ _) in E.
  assert (state_inv (h0, s0)) as Hinv0.
  { split; [done|]. split; [|done]. simpl. rewrite F0. done. }
  destruct (undo_above (height first) (length (longest_chain s0)) (h0, s0))
    as [w2 [e|[]]] eqn:E2.
  { by rewrite (bind_raise _ _ _ _ _ E2) in E. }
  rewrite (bind_run _ _ _ _ _ E2) in E.
  destruct (apply_branch (first :: rest) w2) as [w3 [e|[]]] eqn:E3.
  { by rewrite (bind_raise _ _ _ _ _ E3) in E. }
  rewrite (bind_run _ _ _ _ _ E3) in E. unfold self_ in E. simplify_eq.
  apply undo_above_inv in E2; [|done].
  apply apply_branch_inv in E3; [|done]. by destruct w3.
Qed.

(** Every world reached through the interface satisfies the invariant; in
    particular its dictionary represents an account map. *)
Lemma reachable_inv w : reachable w → state_inv w.
Proof.
  induction 1 as [h|w w' B r _ IH Hrun|w w' r _ IH Hrun
                 |w nb h' r _ IH Hrun|w nb h' s' _ IH Hrun].
  - split; [apply wf_empty|]. split; [by right|]. done.
  - by eapply verify_and_apply_block_inv.
  - by eapply undo_last_block_inv.
  - destruct IH as (Hwf & Hf & Htd).
    pose proof (verify_reorg_framed w.2 nb w.1) as [[Hlen _] _].
    rewrite Hrun in Hlen. simpl in Hlen.
    split; [by eapply wf_grow|done].
  - eapply verify_reorg_inv; [|exact Hrun]. by destruct w.
Qed.

(** ** A block that fails after the reward credit *)

Lemma assert_pass {S B} (b : bool) (a : assertion) (k : unit → M S B) s :
  b = true → bind (assert_ b a) k s = k tt s.
Proof. by intros ->. Qed.

Lemma lift_run {S A B} (r : exn + A) (x : A) (k : A → M S B) s :
  r = inr x → bind (lift r) k s = k x s.
Proof. by intros ->. Qed.

Lemma verify_short_sender_hash t sender_balance sender_previous_nonce :
  length (sender_hash t) ≠ 20%nat →
  verify t sender_balance sender_previous_nonce
  = inl (AssertionError SenderHashLength).
Proof.
  intros H. unfold verify, len.
  destruct (Z.of_nat (length (sender_hash t)) =? 20) eqn:E; [|done].
  apply Z.eqb_eq in E. lia.
Qed.

Lemma header_checks_pass B d h target :
  block_hash (previous B) (miner B) (transactions B) (timestamp B)
    (difficulty B) (block_nonce B) = inr (block_id B) →
  (length (transactions B) ≤ 25)%nat →
  length (miner B) = 20%nat →
  pow_target (difficulty B) = inr target →
  pow_test (block_id B) target = true →
  verify_and_get_changes B (difficulty B) d h
  = update_states B d MINING_REWARD h.
Proof.
  intros Hid Hlen Hminer Htarget Hpow. unfold verify_and_get_changes.
  rewrite assert_pass by apply Z.eqb_refl.
  rewrite (lift_run _ _ _ _ Hid).
  rewrite assert_pass by (by apply bool_decide_eq_true).
  rewrite assert_pass by (apply Z.leb_le; unfold len; lia).
  rewrite assert_pass by (apply Z.eqb_eq; unfold len; lia).
  rewrite (lift_run _ _ _ _ Htarget).
  by rewrite assert_pass.
Qed.

Lemma chain_checks_pass B S h :
  height B = len (longest_chain S) →
  previous B = match last (longest_chain S) with
               | Some tip => block_id tip
               | None => zero_bytes 32
               end →
  (∀ tip, last (longest_chain S) = Some tip → timestamp tip ≤ timestamp B) →
  calculate_difficulty S = inr (difficulty B) →
  ∀ h' e,
    verify_and_get_changes B (difficulty B) (user_states S) h = (h', inl e) →
    verify_and_apply_block B (h, S) = ((h', S), inl e).
Proof.
  intros Hheight Hprev Hts Hdiff h' e Hrun.
  unfold verify_and_apply_block. unfold bind at 1, self_. cbn [fst snd].
  rewrite assert_pass by (by apply Z.eqb_eq).
  destruct (last (longest_chain S)) as [tip|] eqn:El.
  - pose proof El as El'. apply last_Some in El' as [c Hc].
    assert ((len (longest_chain S) =? 0) = false) as ->.
    { apply Z.eqb_neq. unfold len. rewrite Hc, length_app. simpl. lia. }
    assert ((0 <? len (longest_chain S)) = true) as ->.
    { apply Z.ltb_lt. unfold len. rewrite Hc, length_app. simpl. lia. }
    rewrite (index_from_end_last _ _ El).
    unfold bind at 1. rewrite (lift_run _ _ _ _ eq_refl).
    unfold assert_ at 1. rewrite bool_decide_eq_true_2 by done.
    unfold ret at 1.
    unfold bind at 1. rewrite (lift_run _ _ _ _ eq_refl).
    unfold assert_ at 1.
    assert ((timestamp tip <=? timestamp B) = true) as ->
      by (apply Z.leb_le; by apply Hts).
    unfold ret at 1.
    rewrite (lift_run _ _ _ _ Hdiff).
    unfold bind, on_store. cbn [fst snd]. by rewrite Hrun.
  - apply last_None in El.
    assert ((len (longest_chain S) =? 0) = true) as ->.
    { apply Z.eqb_eq. unfold len. by rewrite El. }
    assert ((0 <? len (longest_chain S)) = false) as ->.
    { apply Z.ltb_ge. unfold len. by rewrite El. }
    rewrite assert_pass by (by apply bool_decide_eq_true).
    unfold bind at 1, ret at 1.
    rewrite (lift_run _ _ _ _ Hdiff).
    unfold bind, on_store. cbn [fst snd]. by rewrite Hrun.
Qed.

Lemma first_transaction_fails B d h t rest l :
  transactions B = t :: rest →
  length (sender_hash t) ≠ 20%nat →
  items d !! miner B = Some l →
  (l < length h)%nat →
  ∃ h',
    update_states B d MINING_REWARD h
    = (h', inl (AssertionError SenderHashLength)) ∧
    h' !!! l = mkUserState (balance (h !!! l) + 10000) (nonce (h !!! l)).
Proof.
  intros Htxs Hbad Hl Hlt.
  set (h1 := <[l := mkUserState (balance (h !!! l) + 10000) (nonce (h !!! l))]> h).
  assert (h1 !!! l = mkUserState (balance (h !!! l) + 10000) (nonce (h !!! l)))
    as Hh1 by (by apply list_lookup_total_insert_eq).
  set (d0 := mkDict (items d) (Some default_user_state)).
  assert (earn_into d0 (miner B) MINING_REWARD false h = (h1, inr d0)) as Hearn.
  { unfold earn_into.
    rewrite (bind_run _ _ _ _ _ (getitem_present d0 _ l h Hl)).
    unfold load. unfold bind at 1.
    rewrite (bind_run _ _ _ _ _ (getitem_present d0 _ l h Hl)).
    done. }
  unfold update_states. fold d0. rewrite (bind_run _ _ _ _ _ Hearn).
  rewrite Htxs. cbn [for_each]. unfold apply_transaction.
  destruct (getitem d0 (sender_hash t) h1) as [h2 [e|[d2 l2]]] eqn:Eg.
  { unfold getitem in Eg. simpl in Eg. by repeat case_match. }
  assert (h2 !!! l = h1 !!! l ∧ items d2 !! sender_hash t = Some l2)
    as [Hh2 Hl2].
  { unfold getitem in Eg. simpl in Eg.
    destruct (items d !! sender_hash t) eqn:E.
    - unfold ret in Eg. by simplify_eq.
    - unfold bind, new_object, ret in Eg. simplify_eq. simpl. split.
      + apply lookup_total_app_l. unfold h1. by rewrite length_insert.
      + apply lookup_insert_eq. }
  exists h2. split; [|by rewrite Hh2].
  unfold bind at 1. rewrite (bind_run _ _ _ _ _ Eg).
  unfold bind at 1, load.
  rewrite (bind_run _ _ _ _ _ (getitem_present d2 _ l2 h2 Hl2)).
  unfold bind at 1.
  rewrite (verify_short_sender_hash t _ _ Hbad). done.
Qed.

(** C1 fails on the code. Take any state, any store, and any block that
    passes every header check, whose miner already has an entry in the
    state's dictionary and whose first transaction has an ill-sized sender
    hash. [verify_and_apply_block] raises and leaves the fields of the
    state as they were, but the [UserState] object of the miner, which the
    state's dictionary still refers to, has been credited with the mining
    reward. *)
Theorem failed_block_leaves_reward
    (B : Block) (S : BlockchainState) (h : heap)
    (t : Transaction) (rest : list Transaction) (l : loc) (target : float) :
  height B = len (longest_chain S) →
  previous B = match last (longest_chain S) with
               | Some tip => block_id tip
               | None => zero_bytes 32
               end →
  (∀ tip, last (longest_chain S) = Some tip → timestamp tip ≤ timestamp B) →
  calculate_difficulty S = inr (difficulty B) →
  block_hash (previous B) (miner B) (transactions B) (timestamp B)
    (difficulty B) (block_nonce B) = inr (block_id B) →
  (length (transactions B) ≤ 25)%nat →
  length (miner B) = 20%nat →
  pow_target (difficulty B) = inr target →
  pow_test (block_id B) target = true →
  transactions B = t :: rest →
  length (sender_hash t) ≠ 20%nat →
  items (user_states S) !! miner B = Some l →
  (l < length h)%nat →
  ∃ h',
    verify_and_apply_block B (h, S)
    = ((h', S), inl (AssertionError SenderHashLength)) ∧
    h' !!! l = mkUserState (balance (h !!! l) + 10000) (nonce (h !!! l)) ∧
    ledger_of h' (user_states S) (miner B)
    ≠ ledger_of h (user_states S) (miner B).
Proof.
  intros Hheight Hprev Hts Hdiff Hid Hlen Hminer Htarget Hpow Htxs Hbad Hl Hlt.
  destruct (first_transaction_fails B (user_states S) h t rest l
              Htxs Hbad Hl Hlt) as (h' & Hupd & Hh').
  exists h'. split; [|split; [done|]].
  - apply chain_checks_pass; [done..|].
    by rewrite (header_checks_pass B _ h target).
  - unfold ledger_of, account. rewrite !view_lookup, Hl. simpl.
    rewrite Hh'. destruct (h !!! l) as [b n]. simpl. intros [= ?]. lia.
Qed.

(** ** The two proof-of-work sites *)

Lemma verify_and_get_changes_pow B difficulty' d h h' d' :
  verify_and_get_changes B difficulty' d h = (h', inr d') →
  ∃ target,
    pow_target (difficulty B) = inr target ∧
    pow_test (block_id B) target = true.
Proof.
  unfold verify_and_get_changes, bind, assert_, lift, ret, raise.
  intros H. repeat case_match; simplify_eq/=; eauto.
Qed.

Lemma pow_check_rejects B d h target :
  block_hash (previous B) (miner B) (transactions B) (timestamp B)
    (difficulty B) (block_nonce B) = inr (block_id B) →
  (length (transactions B) ≤ 25)%nat →
  length (miner B) = 20%nat →
  pow_target (difficulty B) = inr target →
  pow_test (block_id B) target = false →
  verify_and_get_changes B (difficulty B) d h
  = (h, inl (AssertionError InvalidProofOfWork)).
Proof.
  intros Hid Hlen Hminer Htarget Hpow. unfold verify_and_get_changes.
  rewrite assert_pass by apply Z.eqb_refl.
  rewrite (lift_run _ _ _ _ Hid).
  rewrite assert_pass by (by apply bool_decide_eq_true).
  rewrite assert_pass by (apply Z.leb_le; unfold len; lia).
  rewrite assert_pass by (apply Z.eqb_eq; unfold len; lia).
  rewrite (lift_run _ _ _ _ Htarget).
  unfold bind, assert_. by rewrite Hpow.
Qed.

Lemma puzzle_solver_first fuel start block_description target n :
  puzzle_solver fuel start block_description target = Some (inr n) →
  start ≤ n ∧
  pow_test (SHA256 (block_description ++ le_digits 8 n)) target = true ∧
  ∀ j, start ≤ j < n →
       pow_test (SHA256 (block_description ++ le_digits 8 j)) target = false.
Proof.
  revert start. induction fuel as [|fuel IH]; intros start; simpl; [done|].
  destruct (to_bytes_little 8 start) as [e|nb] eqn:Eb; [done|].
  apply to_bytes_little_inr in Eb as [_ ->].
  unfold digest_finalize, digest_update.
  destruct (pow_test (SHA256 (block_description ++ le_digits 8 start)) target)
    eqn:Et.
  - intros [= <-]. split; [lia|]. split; [done|]. intros j Hj. lia.
  - intros H. apply IH in H as (Hle & Hn & Hbelow).
    split; [lia|]. split; [done|]. intros j Hj.
    destruct (decide (j = start)) as [->|]; [done|]. apply Hbelow. lia.
Qed.

(** A block returned by [mine_block] passes every header check of
    [verify_and_get_changes] at its own difficulty. *)
Lemma mine_block_passes_header (fuel : nat) (prev : bytes) (hgt : Z)
    (addr : bytes) (txs : list Transaction) (ts diff : Z)
    (B : Block) (d : PyDict) (h : heap) :
  mine_block fuel prev hgt addr txs ts diff = Some (inr B) →
  length addr = 20%nat →
  (length txs ≤ 25)%nat →
  difficulty B = diff ∧
  verify_and_get_changes B diff d h = update_states B d MINING_REWARD h.
Proof.
  unfold mine_block. intros Hmine Hminer Hlen.
  destruct (to_bytes_little 8 ts) as [e|tsb] eqn:Ets; [done|].
  destruct (to_bytes_little 16 diff) as [e|df] eqn:Edf; [done|].
  destruct (pow_target diff) as [e|target] eqn:Et; [done|].
  destruct (puzzle_solver fuel 0 _ target) as [[e|nonce]|] eqn:Ep;
    [done| |done].
  destruct (block_hash prev addr txs ts diff nonce) as [e|id] eqn:Eid;
    [done|]. simpl in Hmine. simplify_eq.
  split; [done|].
  apply puzzle_solver_first in Ep as (Hn & Hpow & _).
  apply (header_checks_pass (mkBlock prev hgt addr txs ts diff id nonce)
           d h target); simpl; try done.
  unfold block_hash in Eid. rewrite Ets, Edf in Eid. simpl in Eid.
  destruct (to_bytes_little 8 nonce) as [e|nn] eqn:Enn; [done|].
  apply to_bytes_little_inr in Enn as [_ ->]. simpl in Eid. simplify_eq.
  unfold sha256_hash, sha256_digest in *. simpl in *.
  rewrite !app_nil_r in Hpow. by rewrite <- !app_assoc in Hpow.
Qed.

(** C2 fails on the code: both sites write [/] where the claim, and the
    docstring of [puzzle_solver] ("target (int)"), need [//]. What they
    compute instead: for a difficulty that fits the 16-byte header field,
    the target of both proof-of-work sites is the double nearest to
    [2^256 / difficulty]: a 53-bit mantissa [m] scaled by [2^e], within
    half a unit in the last place of the exact quotient and even on a tie.
    A digest passes the test exactly when its big-endian value is at most
    [m * 2^e]; block verification accepts only such a block identifier and
    rejects any other with the proof-of-work error; the mining search
    returns the first nonce whose digest is such. *)
Theorem pow_test_float_target (d : Z) :
  1 ≤ d < 2 ^ 128 →
  ∃ m e,
    pow_target d = inr (mkFloat m e) ∧
    0 ≤ e ∧ 2 ^ 52 ≤ m ≤ 2 ^ 53 ∧
    2 * Z.abs (m * 2 ^ e * d - 2 ^ 256) ≤ 2 ^ e * d ∧
    (2 * Z.abs (m * 2 ^ e * d - 2 ^ 256) = 2 ^ e * d → Z.even m = true) ∧
    (∀ digest,
       pow_test digest (mkFloat m e) = true ↔
       int_from_bytes_big digest ≤ m * 2 ^ e) ∧
    (∀ B dict h h' dict',
       difficulty B = d →
       verify_and_get_changes B d dict h = (h', inr dict') →
       int_from_bytes_big (block_id B) ≤ m * 2 ^ e) ∧
    (∀ B dict h,
       difficulty B = d →
       block_hash (previous B) (miner B) (transactions B) (timestamp B)
         (difficulty B) (block_nonce B) = inr (block_id B) →
       (length (transactions B) ≤ 25)%nat →
       length (miner B) = 20%nat →
       ¬ int_from_bytes_big (block_id B) ≤ m * 2 ^ e →
       verify_and_get_changes B d dict h
       = (h, inl (AssertionError InvalidProofOfWork))) ∧
    (∀ fuel block_description nonce,
       puzzle_solver fuel 0 block_description (mkFloat m e)
       = Some (inr nonce) →
       int_from_bytes_big (SHA256 (block_description ++ le_digits 8 nonce))
       ≤ m * 2 ^ e ∧
       ∀ j, 0 ≤ j < nonce →
            ¬ int_from_bytes_big (SHA256 (block_description ++ le_digits 8 j))
              ≤ m * 2 ^ e).
Proof.
  intros Hd. destruct (pow_target_shape d Hd) as (m & e & Ht & He & Hm & Hr).
  exists m, e. split; [done|]. split; [lia|]. split; [done|].
  assert (0 < d * 2 ^ e) as Hpos.
  { apply Z.mul_pos_pos; [lia|]. apply Z.pow_pos_nonneg; lia. }
  destruct (round_half_even_nearest (2 ^ 256) (d * 2 ^ e) Hpos) as [H1 H2].
  rewrite <- Hr in H1, H2.
  replace (m * 2 ^ e * d) with (m * (d * 2 ^ e)) by lia.
  replace (2 ^ e * d) with (d * 2 ^ e) by lia.
  split; [done|]. split; [done|].
  assert (∀ digest,
            pow_test digest (mkFloat m e) = true ↔
            int_from_bytes_big digest ≤ m * 2 ^ e) as Htest.
  { intros digest. unfold pow_test, int_le_float. simpl.
    destruct (0 <=? e) eqn:E; [|apply Z.leb_gt in E; lia].
    apply Z.leb_le. }
  split; [exact Htest|]. split; [|split].
  - intros B dict h h' dict' HB Hrun.
    apply verify_and_get_changes_pow in Hrun as (target & Htarget & Hpow).
    rewrite HB, Ht in Htarget. simplify_eq. by apply Htest.
  - intros B dict h HB Hid Hlen Hminer Hnot. subst d.
    apply (pow_check_rejects B dict h (mkFloat m e)); try done.
    destruct (pow_test (block_id B) (mkFloat m e)) eqn:E; [|done].
    by apply Htest in E.
  - intros fuel block_description nonce Hrun.
    apply puzzle_solver_first in Hrun as (_ & Hn & Hbelow).
    split; [by apply Htest|]. intros j Hj Hle.
    apply Htest in Hle. by rewrite Hbelow in Hle.
Qed.

(** ** Creating and verifying transactions *)

Lemma to_bytes_little_ok w z :
  0 ≤ z < 2 ^ (8 * Z.of_nat w) → to_bytes_little w z = inr (le_digits w z).
Proof.
  intros [H1 H2]. unfold to_bytes_little.
  assert ((0 <=? z) = true) as -> by (by apply Z.leb_le).
  assert ((z <? 2 ^ (8 * Z.of_nat w)) = true) as -> by (by apply Z.ltb_lt).
  done.
Qed.

Lemma to_bytes_little_overflow w z :
  ¬ 0 ≤ z < 2 ^ (8 * Z.of_nat w) → to_bytes_little w z = inl OverflowError.
Proof.
  intros H. unfold to_bytes_little.
  destruct (0 <=? z) eqn:E1; [|done]. apply Z.leb_le in E1.
  destruct (z <? 2 ^ (8 * Z.of_nat w)) eqn:E2; [|done]. apply Z.ltb_lt in E2.
  lia.
Qed.

(** What [verify] checked when it returns [True]. *)
Lemma verify_true_inv t sender_balance sender_previous_nonce :
  verify t sender_balance sender_previous_nonce = inr true →
  length (sender_hash t) = 20%nat ∧
  sender_hash t = generate_address (sender_public_key t) ∧
  length (recipient_hash t) = 20%nat ∧
  0 < amount t ≤ sender_balance ∧
  0 ≤ fee t ≤ amount t ∧
  tx_nonce t = sender_previous_nonce + 1 ∧
  txid_hash t = inr (txid t) ∧
  ∃ msg_hash k,
    message_hash t = inr msg_hash ∧
    pk_serialize_des (sender_public_key t) = inr k ∧
    ecdsa_verify k (signature t) msg_hash = true.
Proof.
  unfold verify, len. intros H.
  repeat match type of H with
  | context [eassert ?b _] =>
      let E := fresh "E" in
      destruct b eqn:E; [|discriminate H]; cbn [eassert ebind] in H
  end.
  destruct (txid_hash t) as [e|id] eqn:Eid; [discriminate H|].
  cbn [ebind] in H.
  destruct (bool_decide (txid t = id)) eqn:Et; [|discriminate H].
  cbn [eassert ebind] in H.
  destruct (message_hash t) as [e|msg_hash] eqn:Em; [discriminate H|].
  cbn [ebind] in H.
  destruct (pk_serialize_des (sender_public_key t)) as [e|k] eqn:Ek;
    [discriminate H|]. cbn [ebind] in H.
  destruct (ecdsa_verify k (signature t) msg_hash) eqn:Es; [|discriminate H].
  repeat match goal with
  | H : (_ =? _) = true |- _ => apply Z.eqb_eq in H
  | H : _ && _ = true |- _ => apply andb_true_iff in H as [? ?]
  | H : (_ <? _) = true |- _ => apply Z.ltb_lt in H
  | H : (_ <=? _) = true |- _ => apply Z.leb_le in H
  | H : bool_decide _ = true |- _ => apply bool_decide_eq_true in H
  end.
  repeat split; try lia; try done.
  - congruence.
  - eauto.
Qed.

Lemma verify_true_intro t sender_balance sender_previous_nonce msg_hash k :
  length (sender_hash t) = 20%nat →
  sender_hash t = generate_address (sender_public_key t) →
  length (recipient_hash t) = 20%nat →
  0 < amount t ≤ sender_balance →
  0 ≤ fee t ≤ amount t →
  tx_nonce t = sender_previous_nonce + 1 →
  txid_hash t = inr (txid t) →
  message_hash t = inr msg_hash →
  pk_serialize_des (sender_public_key t) = inr k →
  ecdsa_verify k (signature t) msg_hash = true →
  verify t sender_balance sender_previous_nonce = inr true.
Proof.
  intros H1 H2 H3 H4 H5 H6 H7 H8 H9 H10. unfold verify, len.
  rewrite H1, H3, H7, H8, H9, !Z.mod_1_r. cbn [ebind eassert].
  rewrite (bool_decide_eq_true_2 _ H2).
  rewrite (bool_decide_eq_true_2 (txid t = txid t) eq_refl).
  assert ((0 <? amount t) && (amount t <=? sender_balance) = true) as ->.
  { apply andb_true_iff. split; [apply Z.ltb_lt|apply Z.leb_le]; lia. }
  assert ((0 <=? fee t) && (fee t <=? amount t) = true) as ->.
  { apply andb_true_iff. split; apply Z.leb_le; lia. }
  assert ((tx_nonce t =? sender_previous_nonce + 1) = true) as ->
    by (by apply Z.eqb_eq).
  cbn [ebind eassert]. by rewrite H10.
Qed.


Section SignedTransactions.
Context {signer : Signer}.

(** X1. A transaction built by [create_signed_transaction] passes
    [Transaction.verify] against a balance and a previous nonce exactly
    when the recipient address has 20 bytes, the amount is positive and at
    most the balance, the fee lies between 0 and the amount, and the nonce
    is the previous nonce plus one. This assumes of the library that a
    signature made with a private key verifies under its public key, and
    that a SHA-1 digest has 20 bytes. *)
Theorem created_transaction_verifies (sk : PrivateKey) (recipient : bytes)
    (value charge seq : Z) (entropy : bytes) (t : Transaction)
    (sender_balance sender_previous_nonce : Z) :
  (∀ digest,
     ecdsa_verify (public_key sk) (ecdsa_sign sk digest entropy) digest
     = true) →
  length (SHA1 (public_bytes (public_key sk))) = 20%nat →
  create_signed_transaction sk recipient value charge seq entropy = inr t →
  (verify t sender_balance sender_previous_nonce = inr true ↔
   length recipient = 20%nat ∧
   0 < value ≤ sender_balance ∧
   0 ≤ charge ≤ value ∧
   seq = sender_previous_nonce + 1).
Proof.
  intros Hsig Haddr Hcreate.
  unfold create_signed_transaction, generate_signature in Hcreate.
  destruct (to_bytes_little 8 value) as [e|a] eqn:Ea; [done|].
  destruct (to_bytes_little 8 charge) as [e|f] eqn:Ef; [done|].
  destruct (to_bytes_little 8 seq) as [e|n] eqn:En; [done|].
  cbn [ebind] in Hcreate. injection Hcreate as <-. split.
  - intros (_ & _ & ? & ? & ? & ? & _)%verify_true_inv. done.
  - intros (Hr & Ha & Hf & Hn).
    eapply verify_true_intro; unfold txid_hash, message_hash; cbn;
      rewrite ?Ea, ?Ef, ?En; try done.
Qed.

(** X2. [create_signed_transaction] validates nothing but the width of
    the integers: it returns a transaction whenever amount, fee and nonce
    fit in 8 unsigned bytes (the sender address is the SHA-1 of the DER
    public key, the signature is over the SHA-256 of recipient, amount,
    fee and nonce, the identifier is the SHA-256 of all the fields and
    the signature), and raises [OverflowError] otherwise. *)
Theorem create_signed_transaction_range (sk : PrivateKey) (recipient : bytes)
    (value charge seq : Z) (entropy : bytes) :
  (0 ≤ value < 2 ^ 64 ∧ 0 ≤ charge < 2 ^ 64 ∧ 0 ≤ seq < 2 ^ 64 →
   ∃ t, create_signed_transaction sk recipient value charge seq entropy
        = inr t ∧
        sender_hash t = SHA1 (public_bytes (public_key sk)) ∧
        sender_public_key t = KeyObject (public_key sk) ∧
        recipient_hash t = recipient ∧
        amount t = value ∧ fee t = charge ∧ tx_nonce t = seq ∧
        signature t = ecdsa_sign sk
          (SHA256 (recipient ++ le_digits 8 value ++ le_digits 8 charge
                   ++ le_digits 8 seq)) entropy ∧
        txid t = SHA256 (sender_hash t ++ recipient
                         ++ public_bytes (public_key sk)
                         ++ le_digits 8 value ++ le_digits 8 charge
                         ++ le_digits 8 seq ++ signature t)) ∧
  (¬ (0 ≤ value < 2 ^ 64 ∧ 0 ≤ charge < 2 ^ 64 ∧ 0 ≤ seq < 2 ^ 64) →
   create_signed_transaction sk recipient value charge seq entropy
   = inl OverflowError).
Proof.
  unfold create_signed_transaction, generate_signature. split.
  - intros (Ha & Hf & Hn).
    rewrite !(to_bytes_little_ok 8) by done. simpl.
    eexists. split; [reflexivity|]. simpl.
    unfold generate_address, sha256_hash. simpl. rewrite !app_nil_r.
    repeat split; reflexivity.
  - intros Hnot.
    destruct (decide (0 ≤ value < 2 ^ 64)) as [Ha|Ha];
      [|by rewrite (to_bytes_little_overflow 8 value)].
    rewrite (to_bytes_little_ok 8 value) by done.
    destruct (decide (0 ≤ charge < 2 ^ 64)) as [Hf|Hf];
      [|by rewrite (to_bytes_little_overflow 8 charge)].
    rewrite (to_bytes_little_ok 8 charge) by done.
    destruct (decide (0 ≤ seq < 2 ^ 64)) as [Hn|Hn];
      [|by rewrite (to_bytes_little_overflow 8 seq)].
    tauto.
Qed.

End SignedTransactions.

(** ** The proof-of-work sites against the integer test *)

(** The two sites against the integer test. A block of difficulty 3 whose
    identifier is [55 55 ... 55], the value of [2^256 // 3], passes every
    other header check and is rejected for its proof of work; a mining
    search at difficulty 1000 whose first candidate digest is
    [00 41 89 37 4B C6 A7 F0 00 ... 00], above [2^256 // 1000], returns
    that candidate. *)
Lemma pow_sites_miss_integer_test :
  (∀ (B : Block) (dict : PyDict) (h : heap),
     difficulty B = 3 →
     block_id B = replicate 32 "U"%byte →
     block_hash (previous B) (miner B) (transactions B) (timestamp B)
       (difficulty B) (block_nonce B) = inr (block_id B) →
     (length (transactions B) ≤ 25)%nat →
     length (miner B) = 20%nat →
     int_from_bytes_big (block_id B) ≤ 2 ^ 256 / 3 ∧
     verify_and_get_changes B 3 dict h
     = (h, inl (AssertionError InvalidProofOfWork))) ∧
  (∀ (fuel : nat) (block_description : bytes),
     SHA256 (block_description ++ le_digits 8 0)
     = [x00; x41; x89; x37; x4b; xc6; xa7; xf0] ++ replicate 24 x00 →
     ∃ target,
       pow_target 1000 = inr target ∧
       puzzle_solver (S fuel) 0 block_description target = Some (inr 0) ∧
       ¬ int_from_bytes_big (SHA256 (block_description ++ le_digits 8 0))
         ≤ 2 ^ 256 / 1000).
Proof.
  split.
  - intros B dict h Hd Hid Hhash Hlen Hminer. split.
    + rewrite Hid. vm_compute. discriminate.
    + replace (verify_and_get_changes B 3 dict h)
        with (verify_and_get_changes B (difficulty B) dict h)
        by (by rewrite Hd).
      apply (pow_check_rejects B dict h
               (mkFloat 6004799503160661 202)); try done.
      * rewrite Hd. vm_compute. reflexivity.
      * rewrite Hid. vm_compute. reflexivity.
  - intros fuel block_description Hdigest.
    exists (mkFloat 4611686018427388 194).
    split; [vm_compute; reflexivity|]. split.
    + cbn [puzzle_solver].
      rewrite (to_bytes_little_ok 8 0) by (change (8 * Z.of_nat 8) with 64; lia).
      unfold digest_finalize, digest_update. rewrite Hdigest.
      reflexivity.
    + rewrite Hdigest. vm_compute. intros H. apply H. reflexivity.
Qed.

(** ** Errors and what they leave behind *)

Lemma index_from_end_1_last {A} (l : list A) (x : A) :
  index_from_end l 1 = inr x → last l = Some x.
Proof.
  intros H%index_from_end_1. rewrite H. apply last_snoc.
Qed.

Lemma index_from_end_1_nil {A} : index_from_end (@nil A) 1 = inl IndexError.
Proof. reflexivity. Qed.

(** What [verify_and_get_changes] checked when it returns. *)
Lemma verify_and_get_changes_inv B difficulty' d h h' d' :
  verify_and_get_changes B difficulty' d h = (h', inr d') →
  difficulty B = difficulty' ∧
  block_hash (previous B) (miner B) (transactions B) (timestamp B)
    (difficulty B) (block_nonce B) = inr (block_id B) ∧
  (length (transactions B) ≤ 25)%nat ∧
  length (miner B) = 20%nat ∧
  (∃ target, pow_target (difficulty B) = inr target ∧
             pow_test (block_id B) target = true) ∧
  update_states B d MINING_REWARD h = (h', inr d').
Proof.
  unfold verify_and_get_changes, bind, assert_, lift, ret, raise, len.
  intros H. repeat case_match; simplify_eq/=.
  repeat match goal with
  | H : (_ =? _) = true |- _ => apply Z.eqb_eq in H
  | H : (_ <=? _) = true |- _ => apply Z.leb_le in H
  | H : bool_decide _ = true |- _ => apply bool_decide_eq_true in H
  end.
  match goal with H : difficulty B = _ |- _ => rewrite H in * end.
  repeat split; try lia; try congruence. eauto.
Qed.

(** What an accepted block satisfied. *)
Lemma verify_and_apply_block_inr B w w' u :
  verify_and_apply_block B w = (w', inr u) →
  height B = len (longest_chain w.2) ∧
  previous B = match last (longest_chain w.2) with
               | Some tip => block_id tip
               | None => zero_bytes 32
               end ∧
  (∀ tip, last (longest_chain w.2) = Some tip →
          timestamp tip ≤ timestamp B) ∧
  calculate_difficulty w.2 = inr (difficulty B) ∧
  ∃ h' d',
    verify_and_get_changes B (difficulty B) (user_states w.2) w.1
    = (h', inr d') ∧
    w' = (h', mkState (longest_chain w.2 ++ [B]) d'
                (total_difficulty w.2 + difficulty B)).
Proof.
  unfold verify_and_apply_block, bind, self_, assert_, lift, on_store, ret,
    raise, set_longest_chain, set_total_difficulty, set_user_states.
  intros H. repeat case_match; simplify_eq/=.
  all: repeat match goal with
  | H : (_ =? _) = true |- _ => apply Z.eqb_eq in H
  | H : (_ =? _) = false |- _ => apply Z.eqb_neq in H
  | H : (_ <? _) = true |- _ => apply Z.ltb_lt in H
  | H : (_ <? _) = false |- _ => apply Z.ltb_ge in H
  | H : (_ <=? _) = true |- _ => apply Z.leb_le in H
  | H : bool_decide _ = true |- _ => apply bool_decide_eq_true in H
  | H : index_from_end _ 1 = inr _ |- _ => apply index_from_end_1_last in H
  end.
  all: try (unfold len in *; lia).
  all: match goal with
       | H : verify_and_get_changes _ _ _ _ = _ |- _ =>
           pose proof (proj1 (verify_and_get_changes_inv _ _ _ _ _ _ H)) as ->
       end.
  all: repeat split; try done; try congruence; eauto.
  all: try (intros; simplify_eq; done).
  all: exfalso; destruct (longest_chain _); [done|];
    unfold len in *; simpl in *; lia.
Qed.
(** Under the chain checks, the outcome is that of
    [verify_and_get_changes]. *)
Lemma chain_checks_run B S h :
  height B = len (longest_chain S) →
  previous B = match last (longest_chain S) with
               | Some tip => block_id tip
               | None => zero_bytes 32
               end →
  (∀ tip, last (longest_chain S) = Some tip → timestamp tip ≤ timestamp B) →
  calculate_difficulty S = inr (difficulty B) →
  verify_and_apply_block B (h, S) =
    match verify_and_get_changes B (difficulty B) (user_states S) h with
    | (h', inr d') =>
        ((h', mkState (longest_chain S ++ [B]) d'
                (total_difficulty S + difficulty B)), inr tt)
    | (h', inl e) => ((h', S), inl e)
    end.
Proof.
  intros Hheight Hprev Hts Hdiff.
  destruct (verify_and_get_changes B (difficulty B) (user_states S) h)
    as [h' [e|d']] eqn:Hrun; [by apply chain_checks_pass|].
  unfold verify_and_apply_block. unfold bind at 1, self_. cbn [fst snd].
  rewrite assert_pass by (by apply Z.eqb_eq).
  destruct (last (longest_chain S)) as [tip|] eqn:El.
  - pose proof El as El'. apply last_Some in El' as [c Hc].
    assert ((len (longest_chain S) =? 0) = false) as ->.
    { apply Z.eqb_neq. unfold len. rewrite Hc, length_app. simpl. lia. }
    assert ((0 <? len (longest_chain S)) = true) as ->.
    { apply Z.ltb_lt. unfold len. rewrite Hc, length_app. simpl. lia. }
    rewrite (index_from_end_last _ _ El).
    unfold bind at 1. rewrite (lift_run _ _ _ _ eq_refl).
    unfold assert_ at 1. rewrite bool_decide_eq_true_2 by done.
    unfold ret at 1.
    unfold bind at 1. rewrite (lift_run _ _ _ _ eq_refl).
    unfold assert_ at 1.
    assert ((timestamp tip <=? timestamp B) = true) as ->
      by (apply Z.leb_le; by apply Hts).
    unfold ret at 1.
    rewrite (lift_run _ _ _ _ Hdiff).
    unfold bind, on_store, self_, set_longest_chain, set_total_difficulty,
      set_user_states. cbn [fst snd]. by rewrite Hrun.
  - apply last_None in El.
    assert ((len (longest_chain S) =? 0) = true) as ->.
    { apply Z.eqb_eq. unfold len. by rewrite El. }
    assert ((0 <? len (longest_chain S)) = false) as ->.
    { apply Z.ltb_ge. unfold len. by rewrite El. }
    rewrite assert_pass by (by apply bool_decide_eq_true).
    unfold bind at 1, ret at 1.
    rewrite (lift_run _ _ _ _ Hdiff).
    unfold bind, on_store, self_, set_longest_chain, set_total_difficulty,
      set_user_states. cbn [fst snd]. by rewrite Hrun.
Qed.

(** *** Where an exception can come from *)

Lemma getitem_raises d k h h' e :
  getitem d k h = (h', inl e) → e = KeyError ∧ default_factory d = None.
Proof.
  unfold getitem, bind, new_object, ret, raise.
  intros H. repeat case_match; by simplify_eq.
Qed.

Lemma earn_into_raises d k x undo h h' e :
  earn_into d k x undo h = (h', inl e) →
  e = KeyError ∧ default_factory d = None.
Proof.
  unfold earn_into. intros H.
  destruct (getitem d k h) as [h1 [e1|[d1 l1]]] eqn:E1.
  { rewrite (bind_raise _ _ _ _ _ E1) in H. simplify_eq.
    by eapply getitem_raises. }
  rewrite (bind_run _ _ _ _ _ E1) in H. unfold bind at 1, load in H.
  assert (items d1 !! k = Some l1) as Hk.
  { unfold getitem, bind, new_object, ret, raise in E1.
    repeat case_match; simplify_eq/=; [done|apply lookup_insert_eq]. }
  rewrite (bind_run _ _ _ _ _ (getitem_present d1 k l1 h1 Hk)) in H.
  done.
Qed.

Lemma spend_into_raises d k x undo h h' e :
  spend_into d k x undo h = (h', inl e) →
  e = KeyError ∧ default_factory d = None.
Proof.
  unfold spend_into. intros H.
  destruct (getitem d k h) as [h1 [e1|[d1 l1]]] eqn:E1.
  { rewrite (bind_raise _ _ _ _ _ E1) in H. simplify_eq.
    by eapply getitem_raises. }
  rewrite (bind_run _ _ _ _ _ E1) in H. unfold bind at 1, load in H.
  assert (items d1 !! k = Some l1) as Hk.
  { unfold getitem, bind, new_object, ret, raise in E1.
    repeat case_match; simplify_eq/=; [done|apply lookup_insert_eq]. }
  destruct (spend _ _ _) as [ub un].
  rewrite (bind_run _ _ _ _ _ (getitem_present d1 k l1 h1 Hk)) in H.
  unfold bind at 1, set_balance in H.
  rewrite (bind_run _ _ _ _ _ (getitem_present d1 k l1 _ Hk)) in H.
  done.
Qed.

Lemma to_bytes_little_raises w z e :
  to_bytes_little w z = inl e → e = OverflowError.
Proof. unfold to_bytes_little. case_match; congruence. Qed.

Lemma txid_hash_raises t e : txid_hash t = inl e → e = OverflowError.
Proof.
  unfold txid_hash. intros H.
  destruct (to_bytes_little 8 (amount t)) eqn:E1;
    [apply to_bytes_little_raises in E1; by simplify_eq/=|].
  destruct (to_bytes_little 8 (fee t)) eqn:E2;
    [apply to_bytes_little_raises in E2; by simplify_eq/=|].
  destruct (to_bytes_little 8 (tx_nonce t)) eqn:E3;
    [apply to_bytes_little_raises in E3; by simplify_eq/=|].
  done.
Qed.

Lemma message_hash_raises t e : message_hash t = inl e → e = OverflowError.
Proof.
  unfold message_hash. intros H.
  destruct (to_bytes_little 8 (amount t)) eqn:E1;
    [apply to_bytes_little_raises in E1; by simplify_eq/=|].
  destruct (to_bytes_little 8 (fee t)) eqn:E2;
    [apply to_bytes_little_raises in E2; by simplify_eq/=|].
  destruct (to_bytes_little 8 (tx_nonce t)) eqn:E3;
    [apply to_bytes_little_raises in E3; by simplify_eq/=|].
  done.
Qed.

Lemma verify_raises t sender_balance sender_previous_nonce e :
  verify t sender_balance sender_previous_nonce = inl e →
  header_error e = false.
Proof.
  unfold verify. intros H.
  repeat match type of H with
  | context [eassert ?b _] =>
      destruct b; cbn [eassert ebind] in H; [|simplify_eq; reflexivity]
  | context [ebind (txid_hash t)] =>
      let E := fresh "E" in
      destruct (txid_hash t) eqn:E; cbn [ebind] in H;
        [apply txid_hash_raises in E; by simplify_eq|]
  | context [ebind (message_hash t)] =>
      let E := fresh "E" in
      destruct (message_hash t) eqn:E; cbn [ebind] in H;
        [apply message_hash_raises in E; by simplify_eq|]
  end.
  unfold pk_serialize_des, ebind in H.
  repeat case_match; by simplify_eq/=.
Qed.

Lemma apply_transaction_raises miner t d h h' e :
  apply_transaction miner t d h = (h', inl e) → header_error e = false.
Proof.
  unfold apply_transaction. intros H.
  destruct (getitem d (sender_hash t) h) as [h1 [e1|[d1 l1]]] eqn:E1.
  { rewrite (bind_raise _ _ _ _ _ E1) in H. simplify_eq.
    by apply getitem_raises in E1 as [-> _]. }
  rewrite (bind_run _ _ _ _ _ E1) in H. unfold bind at 1, load in H.
  destruct (getitem d1 (sender_hash t) h1) as [h2 [e2|[d2 l2]]] eqn:E2.
  { rewrite (bind_raise _ _ _ _ _ E2) in H. simplify_eq.
    by apply getitem_raises in E2 as [-> _]. }
  rewrite (bind_run _ _ _ _ _ E2) in H. unfold bind at 1 in H.
  unfold bind at 1, lift in H.
  destruct (verify t _ _) as [ev|ok] eqn:Ev.
  { simplify_eq. by eapply verify_raises. }
  unfold bind at 1, assert_ in H.
  destruct ok; [|unfold raise in H; by simplify_eq].
  unfold ret at 1 in H.
  destruct (earn_into d2 miner (fee t) false h2) as [h3 [e3|d3]] eqn:E3.
  { rewrite (bind_raise _ _ _ _ _ E3) in H. simplify_eq.
    by apply earn_into_raises in E3 as [-> _]. }
  rewrite (bind_run _ _ _ _ _ E3) in H.
  destruct (spend_into d3 (sender_hash t) (amount t) false h3)
    as [h4 [e4|d4]] eqn:E4.
  { rewrite (bind_raise _ _ _ _ _ E4) in H. simplify_eq.
    by apply spend_into_raises in E4 as [-> _]. }
  rewrite (bind_run _ _ _ _ _ E4) in H.
  by apply earn_into_raises in H as [-> _].
Qed.

Lemma for_each_raises {S A X} (P : exn → Prop) (body : X → A → M S A) xs :
  (∀ x a s s' e, body x a s = (s', inl e) → P e) →
  ∀ a s s' e, for_each xs body a s = (s', inl e) → P e.
Proof.
  intros Hbody. induction xs as [|x xs IH]; intros a s s' e; simpl; [done|].
  destruct (body x a s) as [s1 [e1|a1]] eqn:E1.
  - rewrite (bind_raise _ _ _ _ _ E1). intros [= <- <-]. by eapply Hbody.
  - rewrite (bind_run _ _ _ _ _ E1). apply IH.
Qed.

Lemma update_states_raises B d reward h h' e :
  update_states B d reward h = (h', inl e) → header_error e = false.
Proof.
  unfold update_states. intros H.
  destruct (earn_into (mkDict (items d) (Some default_user_state))
              (miner B) reward false h) as [h1 [e1|d1]] eqn:E1.
  { rewrite (bind_raise _ _ _ _ _ E1) in H. simplify_eq.
    by apply earn_into_raises in E1 as [-> _]. }
  rewrite (bind_run _ _ _ _ _ E1) in H.
  eapply (for_each_raises (λ e, header_error e = false)); [|exact H].
  intros. by eapply apply_transaction_raises.
Qed.

(** A header-level exception of [verify_and_get_changes] was raised
    before [update_states] was entered. *)
Lemma verify_and_get_changes_header_error B difficulty' d h h' e :
  verify_and_get_changes B difficulty' d h = (h', inl e) →
  header_error e = true → h' = h.
Proof.
  unfold verify_and_get_changes, bind, assert_, lift, ret, raise.
  intros H He. repeat case_match; simplify_eq/=; try done.
  match goal with
  | H : update_states _ _ _ _ = _ |- _ => apply update_states_raises in H
  end.
  congruence.
Qed.

(** X3. When [verify_and_apply_block] raises one of the chain or header
    errors (wrong height, parent or timestamp, wrong difficulty, identifier
    mismatch, more than 25 transactions, miner address not of 20 bytes,
    invalid proof of work, or the [ZeroDivisionError] of a zero
    difficulty), nothing has changed: the state and every [UserState]
    object are as before the call. *)
Theorem header_rejection_changes_nothing (B : Block) (w : world) (e : exn) :
  (verify_and_apply_block B w).2 = inl e →
  header_error e = true →
  (verify_and_apply_block B w).1 = w.
Proof.
  destruct (verify_and_apply_block B w) as [w' r] eqn:H. simpl.
  intros ->. revert H.
  unfold verify_and_apply_block, bind, self_, assert_, lift, on_store, ret,
    raise, set_longest_chain, set_total_difficulty, set_user_states.
  intros H He. destruct w as [h S].
  repeat case_match; simplify_eq/=; try done.
  all: match goal with
       | H : verify_and_get_changes _ _ _ _ = _ |- _ =>
           apply verify_and_get_changes_header_error in H; [|done]
       end.
  all: by subst.
Qed.

(** *** [undo_last_block] and [verify_reorg] on degenerate input *)

Lemma undo_last_block_nil w :
  longest_chain w.2 = [] → undo_last_block w = (w, inl IndexError).
Proof.
  intros Hc. unfold undo_last_block, bind, self_, lift. simpl. by rewrite Hc.
Qed.

Lemma deepcopy_items_keys es memo acc h :
  ∃ h' its,
    deepcopy_items es memo acc h = (h', inr its) ∧
    ∀ k, its !! k = None ↔ acc !! k = None ∧ k ∉ es.*1.
Proof.
  revert memo acc h. induction es as [|[k0 l0] es IH]; intros memo acc h.
  { eexists _, _. split; [reflexivity|]. intros k. simpl.
    split; [intros ?; split; [done|apply not_elem_of_nil]|by intros [? _]]. }
  simpl. destruct (memo !! l0) as [l'|].
  - destruct (IH memo (<[k0 := l']> acc) h) as (h' & its & Hrun & Hk).
    eexists _, _. split; [exact Hrun|]. intros k. rewrite Hk.
    rewrite lookup_insert_None, not_elem_of_cons. simpl. intuition congruence.
  - unfold bind at 1, load. unfold bind at 1, new_object.
    destruct (IH (<[l0 := length h]> memo) (<[k0 := length h]> acc)
                (h ++ [h !!! l0])) as (h' & its & Hrun & Hk).
    eexists _, _. split; [exact Hrun|]. intros k. rewrite Hk.
    rewrite lookup_insert_None, not_elem_of_cons. simpl. intuition congruence.
Qed.

(** [copy.deepcopy] of a dictionary never raises and keeps the keys and
    the factory. *)
Lemma deepcopy_keys d h :
  ∃ h' d',
    deepcopy d h = (h', inr d') ∧
    default_factory d' = default_factory d ∧
    ∀ k, items d' !! k = None ↔ items d !! k = None.
Proof.
  unfold deepcopy.
  destruct (deepcopy_items_keys (map_to_list (items d)) ∅ ∅ h)
    as (h' & its & Hrun & Hk).
  rewrite (bind_run _ _ _ _ _ Hrun). eexists _, _.
  split; [reflexivity|]. split; [done|]. intros k. simpl. rewrite Hk.
  rewrite lookup_empty. split.
  - intros [_ Hn]. apply eq_None_not_Some. intros [l Hl].
    apply Hn. apply list_elem_of_fmap. exists (k, l).
    split; [done|]. by apply elem_of_map_to_list.
  - intros Hn. split; [done|]. intros ([k' l] & -> & Hin)%list_elem_of_fmap.
    apply elem_of_map_to_list in Hin. simpl in Hn. congruence.
Qed.

(** [undo_last_block] on a non-empty chain, in terms of the outcome of
    [get_changes_for_undo]. *)
Lemma undo_last_block_step w chain B :
  longest_chain w.2 = chain ++ [B] →
  undo_last_block w =
    match get_changes_for_undo B (user_states w.2) MINING_REWARD w.1 with
    | (h2, inr d2) =>
        ((h2, mkState chain d2 (total_difficulty w.2 - difficulty B)), inr tt)
    | (h2, inl e) =>
        ((h2, mkState chain (user_states w.2)
                (total_difficulty w.2 - difficulty B)), inl e)
    end.
Proof.
  intros Hc.
  destruct (get_changes_for_undo B (user_states w.2) MINING_REWARD w.1)
    as [h2 [e|d2]] eqn:Hrun; [|by apply undo_last_block_run].
  unfold undo_last_block.
  unfold bind at 1, self_. simpl.
  unfold bind at 1, lift. rewrite Hc.
  rewrite (index_from_end_last (chain ++ [B]) B) by apply last_snoc.
  unfold bind at 1, set_longest_chain. simpl.
  unfold bind at 1. simpl.
  unfold bind at 1, set_total_difficulty. simpl.
  unfold bind at 1. simpl.
  unfold bind, on_store, set_user_states. simpl. rewrite Hrun. simpl.
  rewrite length_app. simpl.
  replace (length chain + 1 - 1)%nat with (length chain) by lia.
  by rewrite take_app_length.
Qed.

(** X4. [undo_last_block] is not atomic. On a state whose dictionary is a
    plain [dict] without an entry for the miner of the last block,
    [get_changes_for_undo] raises [KeyError]; by then the block has been
    popped from the chain and the total difficulty reduced, and they stay
    so, while [user_states] is not replaced. The objects that existed
    before the call are untouched. *)
Theorem undo_last_block_not_atomic (w : world) (chain : list Block)
    (B : Block) :
  longest_chain w.2 = chain ++ [B] →
  default_factory (user_states w.2) = None →
  items (user_states w.2) !! miner B = None →
  ∃ h',
    undo_last_block w
    = ((h', mkState chain (user_states w.2)
              (total_difficulty w.2 - difficulty B)), inl KeyError) ∧
    take (length w.1) h' = w.1.
Proof.
  intros Hc Hf Hm.
  pose proof (deepcopy_framed (user_states w.2) w.1) as [Hun _].
  destruct (deepcopy_keys (user_states w.2) w.1)
    as (h1 & d1 & Hcopy & Hf1 & Hk1).
  rewrite Hcopy in Hun. simpl in Hun.
  assert (get_changes_for_undo B (user_states w.2) MINING_REWARD w.1
          = (h1, inl KeyError)) as Hundo.
  { unfold get_changes_for_undo. rewrite (bind_run _ _ _ _ _ Hcopy).
    unfold earn_into, getitem.
    rewrite (proj2 (Hk1 (miner B)) Hm), Hf1, Hf. reflexivity. }
  exists h1. split.
  - by rewrite (undo_last_block_step w chain B Hc), Hundo.
  - by apply unchanged_below_take.
Qed.

(** X5. [verify_reorg] with an empty branch raises [IndexError] (from
    [new_branch[0]]), after the deep copies were made; the objects that
    existed before the call are untouched. *)
Theorem verify_reorg_empty_branch (old_state : BlockchainState) (h : heap) :
  ∃ h', verify_reorg old_state [] h = (h', inl IndexError) ∧
        take (length h) h' = h.
Proof.
  pose proof (deepcopy_framed (user_states old_state) h) as [Hun _].
  destruct (deepcopy_keys (user_states old_state) h)
    as (h1 & d1 & Hcopy & _).
  rewrite Hcopy in Hun. simpl in Hun.
  exists h1. split; [|by apply unchanged_below_take].
  assert (replay_branch old_state [] h = (h1, inl IndexError)) as Hreplay.
  { unfold replay_branch. by rewrite (bind_run _ _ _ _ _ Hcopy). }
  unfold verify_reorg. by rewrite (bind_raise _ _ _ _ _ Hreplay).
Qed.

(** *** A retarget to zero *)

Lemma calculate_difficulty_long (S : BlockchainState) older anchor window tip :
  longest_chain S = older ++ anchor :: window →
  length window = 10%nat →
  last window = Some tip →
  calculate_difficulty S =
    inr (Zsum (difficulty <$> window)
         / (if timestamp tip - timestamp anchor =? 0 then 1
            else timestamp tip - timestamp anchor)
         * 120).
Proof.
  intros Hc Hw Ht. unfold calculate_difficulty, len.
  rewrite Hc. rewrite length_app. simpl length. rewrite Hw.
  destruct (_ <=? 10) eqn:E; [apply Z.leb_le in E; lia|clear E].
  rewrite (index_from_end_last _ tip).
  2:{ rewrite last_app. rewrite last_cons, Ht. done. }
  pose proof (index_from_end_app older window anchor) as Ha.
  rewrite Hw in Ha. rewrite Ha. simpl.
  pose proof (slice_from_end_app (older ++ [anchor]) window) as Hs.
  rewrite Hw, <- app_assoc in Hs. simpl in Hs. rewrite Hs.
  rewrite fold_left_difficulty. by rewrite Z.add_0_l.
Qed.

Lemma verify_and_get_changes_nonpositive B d dict h :
  d ≤ 0 → ∃ e, verify_and_get_changes B d dict h = (h, inl e).
Proof.
  intros Hd. unfold verify_and_get_changes.
  destruct (difficulty B =? d) eqn:E; [|by eexists].
  apply Z.eqb_eq in E. rewrite assert_pass by done.
  destruct (block_hash (previous B) (miner B) (transactions B) (timestamp B)
              d (block_nonce B)) as [e|id] eqn:Eid; [by eexists|].
  rewrite (lift_run _ _ _ _ eq_refl).
  destruct (bool_decide (block_id B = id)); [|by eexists].
  rewrite assert_pass by done.
  destruct (len (transactions B) <=? 25); [|by eexists].
  rewrite assert_pass by done.
  destruct (len (miner B) =? 20); [|by eexists].
  rewrite assert_pass by done.
  assert (d = 0) as ->.
  { unfold block_hash in Eid.
    destruct (to_bytes_little 8 (timestamp B)); [done|].
    destruct (to_bytes_little 16 d) eqn:E16; [done|].
    apply to_bytes_little_inr in E16. lia. }
  rewrite E. by eexists.
Qed.

Lemma nonpositive_difficulty_rejects B w d :
  calculate_difficulty w.2 = inr d → d ≤ 0 →
  ∃ e, verify_and_apply_block B w = (w, inl e).
Proof.
  intros Hcalc Hd. destruct w as [h S]. simpl in Hcalc.
  destruct (verify_and_get_changes_nonpositive B d (user_states S) h Hd)
    as [e0 Hrun].
  unfold verify_and_apply_block, bind, self_, assert_, lift, on_store, ret,
    raise. simpl.
  repeat case_match; simplify_eq/=; try by eexists.
  all: match goal with
       | H : verify_and_get_changes _ _ _ _ = (?l, ?r) |- _ =>
           assert ((l, r) = (h, inl e0)) by congruence; simplify_eq;
           by eexists
       end.
Qed.

(** X6. A slow window stalls the chain. On a chain of more than ten
    blocks whose last ten difficulties sum to less than the seconds
    elapsed between the eleventh block from the end and the tip,
    [calculate_difficulty] returns 0, and then [verify_and_apply_block]
    rejects every block, leaving the state and the store unchanged: a
    block of another difficulty fails the difficulty check, and one of
    difficulty 0 makes the proof-of-work target [2**256 / 0] raise
    [ZeroDivisionError]. *)
Theorem slow_window_stalls_chain (w : world)
    (older : list Block) (anchor : Block) (window : list Block) (tip : Block) :
  longest_chain w.2 = older ++ anchor :: window →
  length window = 10%nat →
  last window = Some tip →
  0 ≤ Zsum (difficulty <$> window) < timestamp tip - timestamp anchor →
  calculate_difficulty w.2 = inr 0 ∧
  ∀ B, ∃ e, verify_and_apply_block B w = (w, inl e).
Proof.
  intros Hc Hw Ht Hslow.
  assert (calculate_difficulty w.2 = inr 0) as Hcalc.
  { rewrite (calculate_difficulty_long _ _ _ _ _ Hc Hw Ht).
    destruct (_ =? 0) eqn:E; [apply Z.eqb_eq in E; lia|].
    by rewrite Z.div_small. }
  split; [done|]. intros B.
  by apply (nonpositive_difficulty_rejects B w 0).
Qed.


(** ** Mining *)

Lemma puzzle_solver_enough_fuel (fuel : nat) (start : Z)
    (block_description : bytes) (target : float) :
  0 ≤ start ≤ 2 ^ 64 →
  2 ^ 64 - start < Z.of_nat fuel →
  (∃ n, puzzle_solver fuel start block_description target = Some (inr n) ∧
        n < 2 ^ 64) ∨
  (puzzle_solver fuel start block_description target
   = Some (inl OverflowError) ∧
   ∀ j, start ≤ j < 2 ^ 64 →
        pow_test (SHA256 (block_description ++ le_digits 8 j)) target = false).
Proof.
  revert start. induction fuel as [|fuel IH]; intros start Hs Hfuel; [lia|].
  cbn [puzzle_solver].
  destruct (decide (start = 2 ^ 64)) as [->|Hne].
  { right. split; [reflexivity|]. intros j Hj. lia. }
  rewrite (to_bytes_little_ok 8 start) by (change (8 * Z.of_nat 8) with 64; lia).
  unfold digest_finalize, digest_update.
  destruct (pow_test (SHA256 (block_description ++ le_digits 8 start)) target)
    eqn:Et.
  - left. exists start. split; [done|lia].
  - destruct (IH (start + 1)) as [(n & Hrun & Hn)|[Hrun Hb]]; [lia|lia| |].
    + left. by exists n.
    + right. split; [done|]. intros j Hj.
      destruct (decide (j = start)) as [->|]; [done|]. apply Hb. lia.
Qed.

(** X7. The search of [puzzle_solver] ends. Started at a candidate of at
    most [2^64] and given more fuel than there are candidates left below
    [2^64], it either returns the least nonce from the start whose digest
    passes the test, which is below [2^64], or raises [OverflowError]
    because no nonce below [2^64] passes: the candidate [2^64] does not
    fit the 8 bytes of [to_bytes]. The Python function starts at 0. *)
Theorem puzzle_solver_terminates (fuel : nat) (start : Z)
    (block_description : bytes) (target : float) :
  0 ≤ start ≤ 2 ^ 64 →
  2 ^ 64 - start < Z.of_nat fuel →
  (∃ n, puzzle_solver fuel start block_description target = Some (inr n) ∧
        start ≤ n < 2 ^ 64 ∧
        pow_test (SHA256 (block_description ++ le_digits 8 n)) target = true ∧
        ∀ j, start ≤ j < n →
             pow_test (SHA256 (block_description ++ le_digits 8 j)) target
             = false) ∨
  (puzzle_solver fuel start block_description target
   = Some (inl OverflowError) ∧
   ∀ j, start ≤ j < 2 ^ 64 →
        pow_test (SHA256 (block_description ++ le_digits 8 j)) target = false).
Proof.
  intros Hs Hfuel.
  destruct (puzzle_solver_enough_fuel fuel start block_description target
              Hs Hfuel) as [(n & Hrun & Hn)|Hover]; [left|by right].
  pose proof (puzzle_solver_first _ _ _ _ _ Hrun) as (Hle & Hp & Hb).
  exists n. split; [done|]. split; [lia|]. by split.
Qed.

Lemma mine_block_argument_errors (fuel : nat) (prev : bytes) (hgt : Z)
    (addr : bytes) (txs : list Transaction) (ts diff : Z) :
  (¬ 0 ≤ ts < 2 ^ 64 →
   mine_block fuel prev hgt addr txs ts diff = Some (inl OverflowError)) ∧
  (0 ≤ ts < 2 ^ 64 → ¬ 0 ≤ diff < 2 ^ 128 →
   mine_block fuel prev hgt addr txs ts diff = Some (inl OverflowError)) ∧
  (0 ≤ ts < 2 ^ 64 → diff = 0 →
   mine_block fuel prev hgt addr txs ts diff = Some (inl ZeroDivisionError)).
Proof.
  unfold mine_block. split; [|split].
  - intros H. by rewrite (to_bytes_little_overflow 8 ts).
  - intros Hts H. rewrite (to_bytes_little_ok 8 ts) by done.
    by rewrite (to_bytes_little_overflow 16 diff).
  - intros Hts ->. rewrite (to_bytes_little_ok 8 ts) by done.
    reflexivity.
Qed.

(** The header pre-image of a block with the given nonce. *)
Lemma block_hash_ok prev addr txs ts diff n :
  0 ≤ ts < 2 ^ 64 → 0 ≤ diff < 2 ^ 128 → 0 ≤ n < 2 ^ 64 →
  block_hash prev addr txs ts diff n
  = inr (SHA256 (sha256_digest [prev; addr; concat (map txid txs);
                                le_digits 8 ts; le_digits 16 diff]
                 ++ le_digits 8 n)).
Proof.
  intros Hts Hd Hn. unfold block_hash.
  rewrite (to_bytes_little_ok 8 ts), (to_bytes_little_ok 16 diff),
    (to_bytes_little_ok 8 n) by done.
  cbn [ebind]. unfold sha256_hash, sha256_digest. do 2 f_equal.
  cbn [concat]. rewrite !app_nil_r, <- !app_assoc. reflexivity.
Qed.

(** X8. What [mine_block] returns, given fuel for all [2^64] candidate
    nonces. A timestamp outside [0, 2^64) or a difficulty outside
    [0, 2^128) raises [OverflowError], a difficulty of 0 raises
    [ZeroDivisionError]. Otherwise the block returned carries the
    arguments, the least nonce whose digest passes the proof-of-work test
    and, as identifier, the SHA-256 of previous, miner, the transaction
    identifiers, the 8-byte timestamp, the 16-byte difficulty and the
    8-byte nonce; if no nonce below [2^64] passes, [OverflowError] is
    raised. *)
Theorem mine_block_outcome (fuel : nat) (prev : bytes) (hgt : Z)
    (addr : bytes) (txs : list Transaction) (ts diff : Z) :
  2 ^ 64 < Z.of_nat fuel →
  (¬ 0 ≤ ts < 2 ^ 64 →
   mine_block fuel prev hgt addr txs ts diff = Some (inl OverflowError)) ∧
  (0 ≤ ts < 2 ^ 64 → ¬ 0 ≤ diff < 2 ^ 128 →
   mine_block fuel prev hgt addr txs ts diff = Some (inl OverflowError)) ∧
  (0 ≤ ts < 2 ^ 64 → diff = 0 →
   mine_block fuel prev hgt addr txs ts diff = Some (inl ZeroDivisionError)) ∧
  (0 ≤ ts < 2 ^ 64 → 1 ≤ diff < 2 ^ 128 →
   ∃ target,
     pow_target diff = inr target ∧
     let description :=
       prev ++ addr ++ concat (map txid txs) ++ le_digits 8 ts
       ++ le_digits 16 diff in
     (∃ n,
        mine_block fuel prev hgt addr txs ts diff
        = Some (inr (mkBlock prev hgt addr txs ts diff
                       (SHA256 (description ++ le_digits 8 n)) n)) ∧
        0 ≤ n < 2 ^ 64 ∧
        pow_test (SHA256 (description ++ le_digits 8 n)) target = true ∧
        ∀ j, 0 ≤ j < n →
             pow_test (SHA256 (description ++ le_digits 8 j)) target
             = false) ∨
     (mine_block fuel prev hgt addr txs ts diff = Some (inl OverflowError) ∧
      ∀ j, 0 ≤ j < 2 ^ 64 →
           pow_test (SHA256 (description ++ le_digits 8 j)) target = false)).
Proof.
  intros Hfuel.
  destruct (mine_block_argument_errors fuel prev hgt addr txs ts diff)
    as (E1 & E2 & E3).
  split; [done|]. split; [done|]. split; [done|]. intros Hts Hd.
  destruct (pow_target_shape diff Hd) as (m & e & Ht & _).
  exists (mkFloat m e). split; [done|]. intros description.
  assert (sha256_digest [prev; addr; concat (map txid txs);
                         le_digits 8 ts; le_digits 16 diff] = description)
    as Hdesc.
  { unfold sha256_digest, description. cbn [concat]. by rewrite app_nil_r. }
  unfold mine_block.
  rewrite (to_bytes_little_ok 8 ts), (to_bytes_little_ok 16 diff), Ht
    by (done || lia).
  destruct (puzzle_solver_enough_fuel fuel 0
              (sha256_digest [prev; addr; concat (map txid txs);
                              le_digits 8 ts; le_digits 16 diff])
              (mkFloat m e)) as [(n & Hrun & Hn)|[Hrun Hb]];
    [lia|lia| |].
  - pose proof (puzzle_solver_first _ _ _ _ _ Hrun) as (Hle & Hp & Hb).
    left. exists n. rewrite Hrun, block_hash_ok by (done || lia).
    rewrite Hdesc in *. split; [done|]. split; [lia|]. by split.
  - right. rewrite Hrun. rewrite Hdesc in *. done.
Qed.

(** *** Difficulties that divide [2^256] *)

Lemma int_from_bytes_big_bound (b : bytes) :
  0 ≤ int_from_bytes_big b < 256 ^ Z.of_nat (length b).
Proof.
  unfold int_from_bytes_big.
  assert (∀ acc n, 0 ≤ acc < 256 ^ n → 0 ≤ n →
            0 ≤ fold_left (λ acc x, acc * 256 + Z_of_byte x) b acc
            < 256 ^ (n + Z.of_nat (length b))) as H.
  { induction b as [|x b IH]; intros acc n Hacc Hn; cbn [fold_left length].
    - by rewrite Z.add_0_r.
    - assert (0 ≤ Z_of_byte x < 256) as Hx.
      { unfold Z_of_byte. pose proof (Byte.to_N_bounded x). lia. }
      replace (n + Z.of_nat (S (length b)))
        with ((n + 1) + Z.of_nat (length b)) by lia.
      apply IH; [|lia]. rewrite Z.pow_add_r by lia.
      change (256 ^ 1) with 256. nia. }
  specialize (H 0 0). simpl in H. apply H; lia.
Qed.

(** X9. For a difficulty that is a power of two (below [2^128]) the float
    target is exact: [2**256 / 2**k] is the number [2^(256-k)], equal to
    the floor quotient, and a digest passes the test exactly when its
    big-endian value is at most that number. At difficulty 1 every digest
    of up to 32 bytes passes. *)
Theorem pow_target_power_of_two (k : Z) :
  0 ≤ k < 128 →
  ∃ target,
    pow_target (2 ^ k) = inr target ∧
    2 ^ 256 / 2 ^ k = 2 ^ (256 - k) ∧
    (∀ digest,
       pow_test digest target = true ↔
       int_from_bytes_big digest ≤ 2 ^ (256 - k)) ∧
    (k = 0 → ∀ digest, (length digest ≤ 32)%nat →
             pow_test digest target = true).
Proof.
  intros Hk.
  assert (1 ≤ 2 ^ k < 2 ^ 128) as Hd.
  { split; [apply (Z.pow_le_mono_r 2 0 k); lia
           |apply Z.pow_lt_mono_r; lia]. }
  destruct (pow_target_shape (2 ^ k) Hd) as (m & e & Ht & He & Hm & Hr).
  exists (mkFloat m e). split; [done|].
  assert (2 ^ 256 / 2 ^ k = 2 ^ (256 - k)) as Hq.
  { rewrite Z.pow_sub_r by lia. done. }
  split; [done|].
  assert (m * 2 ^ e = 2 ^ (256 - k)) as Hval.
  { rewrite <- Z.pow_add_r in Hr by lia.
    destruct (decide (k + e ≤ 256)) as [Hle|Hgt].
    - unfold round_half_even in Hr.
      assert (2 ^ 256 = 2 ^ (256 - (k + e)) * 2 ^ (k + e)) as Hsplit.
      { rewrite <- Z.pow_add_r by lia. f_equal. lia. }
      assert (0 < 2 ^ (k + e)) as Hpos by (apply Z.pow_pos_nonneg; lia).
      assert (2 ^ 256 mod 2 ^ (k + e) = 0) as Hmod.
      { rewrite Hsplit. apply Z.mod_mul. lia. }
      assert (2 ^ 256 / 2 ^ (k + e) = 2 ^ (256 - (k + e))) as Hdiv.
      { rewrite Hsplit at 1. apply Z.div_mul. lia. }
      rewrite Hmod, Hdiv in Hr.
      destruct (2 ^ (k + e) <? 2 * 0) eqn:E1; [apply Z.ltb_lt in E1; lia|].
      destruct (2 ^ (k + e) =? 2 * 0) eqn:E2; [apply Z.eqb_eq in E2; lia|].
      simpl in Hr. rewrite Hr, <- Z.pow_add_r by lia. f_equal. lia.
    - exfalso.
      assert (2 ^ 256 < 2 ^ (k + e)) as Hlt by (apply Z.pow_lt_mono_r; lia).
      destruct (round_half_even_cases (2 ^ 256) (2 ^ (k + e))) as [H|H];
        rewrite H, Z.div_small in Hr by lia; lia. }
  assert (∀ digest,
            pow_test digest (mkFloat m e) = true ↔
            int_from_bytes_big digest ≤ 2 ^ (256 - k)) as Htest.
  { intros digest. unfold pow_test, int_le_float. simpl.
    destruct (0 <=? e) eqn:E; [|apply Z.leb_gt in E; lia].
    rewrite Hval. apply Z.leb_le. }
  split; [exact Htest|].
  intros -> digest Hlen. apply Htest.
  pose proof (int_from_bytes_big_bound digest) as [_ Hb].
  assert (256 ^ Z.of_nat (length digest) ≤ 256 ^ 32) as Hp
    by (apply Z.pow_le_mono_r; lia).
  change (256 ^ 32) with (2 ^ 256) in Hp. change (256 - 0) with 256. lia.
Qed.

(** *** Mining, then applying *)

(** [update_states] against the transition over account maps. *)
Lemma update_states_spec B h d :
  wf h d →
  match update_states B d MINING_REWARD h,
        spec_apply_block B (ledger_of h d) with
  | (h', inr d'), inr P' =>
      wf h' d' ∧ default_factory d' = Some default_user_state ∧
      ∀ k, ledger_of h' d' k = P' k
  | (_, inl e), inl e' => e = e'
  | _, _ => False
  end.
Proof.
  intros Hwf.
  pose proof (update_states_view B h d MINING_REWARD Hwf) as Hsim.
  pose proof (v_update_states_agree B (view h d)) as Hagree.
  unfold sim in Hsim. unfold agree in Hagree. fold (ledger_of h d) in Hagree.
  destruct (update_states B d MINING_REWARD h) as [h' [e|d']];
    destruct (v_update_states B (view h d) MINING_REWARD) as [e1|V'];
    destruct (spec_apply_block B (ledger_of h d)) as [e2|P'];
    simpl in *; try done; try congruence.
  destruct Hsim as (? & ? & Hv). split; [done|]. split; [done|].
  intros k. unfold ledger_of. rewrite Hv. apply Hagree.
Qed.

Lemma mine_block_fields fuel prev hgt addr txs ts diff B :
  mine_block fuel prev hgt addr txs ts diff = Some (inr B) →
  previous B = prev ∧ height B = hgt ∧ miner B = addr ∧
  transactions B = txs ∧ timestamp B = ts ∧ difficulty B = diff.
Proof.
  unfold mine_block. intros H.
  repeat case_match; simplify_eq/=.
  unfold ebind in *. repeat case_match; by simplify_eq/=.
Qed.

(** Applying a block mined on the tip comes down to [update_states]. *)
Lemma mined_block_run fuel (w : world) (addr : bytes)
    (txs : list Transaction) (ts d : Z) (B : Block) :
  calculate_difficulty w.2 = inr d →
  mine_block fuel
    (match last (longest_chain w.2) with
     | Some tip => block_id tip
     | None => zero_bytes 32
     end)
    (len (longest_chain w.2)) addr txs ts d = Some (inr B) →
  length addr = 20%nat →
  (length txs ≤ 25)%nat →
  (∀ tip, last (longest_chain w.2) = Some tip → timestamp tip ≤ ts) →
  miner B = addr ∧ transactions B = txs ∧
  verify_and_apply_block B w =
    match update_states B (user_states w.2) MINING_REWARD w.1 with
    | (h', inr d') =>
        ((h', mkState (longest_chain w.2 ++ [B]) d'
                (total_difficulty w.2 + d)), inr tt)
    | (h', inl e) => ((h', w.2), inl e)
    end.
Proof.
  intros Hcalc Hmine Haddr Htxs Hts. destruct w as [h S]. simpl in *.
  pose proof (mine_block_fields _ _ _ _ _ _ _ _ Hmine)
    as (Hprev & Hheight & Hminer & Htx & Htime & Hdiff).
  pose proof (mine_block_passes_header _ _ _ _ _ _ _ B (user_states S) h
                Hmine Haddr Htxs) as [_ Hhead].
  split; [done|]. split; [done|].
  rewrite chain_checks_run; rewrite ?Hdiff; try done; try congruence.
  2:{ intros tip Htip. rewrite Htime. by apply Hts. }
  by rewrite Hhead.
Qed.

(** X10. Mining, then applying. Take a state whose dictionary is an
    account map, the difficulty [calculate_difficulty] gives for it, and a
    block mined on its tip with that difficulty, a 20-byte miner address,
    at most 25 transactions and a timestamp not before the tip's.
    [verify_and_apply_block] accepts the block exactly when its
    transactions apply in order to the accounts (after the reward was
    credited); the state then holds the chain extended by the block, the
    total difficulty raised by its difficulty and the resulting accounts.
    Otherwise it raises the exception of the first transaction that
    fails, and the fields of the state are unchanged. *)
Theorem mined_block_accepted_iff_transactions_valid
    (fuel : nat) (w : world) (addr : bytes) (txs : list Transaction)
    (ts d : Z) (B : Block) :
  wf w.1 (user_states w.2) →
  calculate_difficulty w.2 = inr d →
  mine_block fuel
    (match last (longest_chain w.2) with
     | Some tip => block_id tip
     | None => zero_bytes 32
     end)
    (len (longest_chain w.2)) addr txs ts d = Some (inr B) →
  length addr = 20%nat →
  (length txs ≤ 25)%nat →
  (∀ tip, last (longest_chain w.2) = Some tip → timestamp tip ≤ ts) →
  match spec_apply_block B (ledger_of w.1 (user_states w.2)) with
  | inr P' =>
      ∃ w', verify_and_apply_block B w = (w', inr tt) ∧
            longest_chain w'.2 = longest_chain w.2 ++ [B] ∧
            total_difficulty w'.2 = total_difficulty w.2 + d ∧
            wf w'.1 (user_states w'.2) ∧
            ∀ k, ledger_of w'.1 (user_states w'.2) k = P' k
  | inl e => ∃ h', verify_and_apply_block B w = ((h', w.2), inl e)
  end.
Proof.
  intros Hwf Hcalc Hmine Haddr Htxs Hts.
  destruct (mined_block_run fuel w addr txs ts d B Hcalc Hmine Haddr Htxs Hts)
    as (_ & _ & ->).
  pose proof (update_states_spec B w.1 (user_states w.2) Hwf) as Hspec.
  destruct (update_states B (user_states w.2) MINING_REWARD w.1)
    as [h' [e|d']];
    destruct (spec_apply_block B (ledger_of w.1 (user_states w.2)))
      as [e'|P']; try done.
  - subst e'. by eexists.
  - destruct Hspec as (Hwf' & _ & Hl). eexists. split; [reflexivity|].
    simpl. done.
Qed.

(** X11. A block mined without transactions on the tip of a state, with
    the difficulty [calculate_difficulty] gives, a 20-byte miner address
    and a timestamp not before the tip's, is always accepted: the chain
    grows by the block, the total difficulty by its difficulty, the miner's
    balance by 10_000, and every other account reads as before. *)
Theorem mined_empty_block_is_accepted
    (fuel : nat) (w : world) (addr : bytes) (ts d : Z) (B : Block) :
  wf w.1 (user_states w.2) →
  calculate_difficulty w.2 = inr d →
  mine_block fuel
    (match last (longest_chain w.2) with
     | Some tip => block_id tip
     | None => zero_bytes 32
     end)
    (len (longest_chain w.2)) addr [] ts d = Some (inr B) →
  length addr = 20%nat →
  (∀ tip, last (longest_chain w.2) = Some tip → timestamp tip ≤ ts) →
  ∃ w', verify_and_apply_block B w = (w', inr tt) ∧
        longest_chain w'.2 = longest_chain w.2 ++ [B] ∧
        total_difficulty w'.2 = total_difficulty w.2 + d ∧
        ∀ k, ledger_of w'.1 (user_states w'.2) k
             = if decide (k = addr)
               then mkUserState
                      (balance (ledger_of w.1 (user_states w.2) addr) + 10000)
                      (nonce (ledger_of w.1 (user_states w.2) addr))
               else ledger_of w.1 (user_states w.2) k.
Proof.
  intros Hwf Hcalc Hmine Haddr Hts.
  destruct (mined_block_run fuel w addr [] ts d B Hcalc Hmine Haddr
              ltac:(simpl; lia) Hts) as (Hminer & Htx & ->).
  pose proof (update_states_spec B w.1 (user_states w.2) Hwf) as Hspec.
  unfold spec_apply_block in Hspec. rewrite Htx, Hminer in Hspec.
  cbn [efold] in Hspec.
  destruct (update_states B (user_states w.2) MINING_REWARD w.1)
    as [h' [e|d']]; [done|].
  destruct Hspec as (_ & _ & Hl). eexists. split; [reflexivity|].
  cbn [fst snd longest_chain total_difficulty user_states].
  split; [done|]. split; [done|]. intros k. rewrite Hl. reflexivity.
Qed.

(** ** Blocks *)

(** *** What acceptance guarantees *)

Lemma apply_transaction_verified miner t d h h' d' :
  apply_transaction miner t d h = (h', inr d') →
  ∃ sender_balance sender_previous_nonce,
    verify t sender_balance sender_previous_nonce = inr true.
Proof.
  unfold apply_transaction. intros H.
  destruct (getitem d (sender_hash t) h) as [h1 [e1|[d1 l1]]] eqn:E1.
  { by rewrite (bind_raise _ _ _ _ _ E1) in H. }
  rewrite (bind_run _ _ _ _ _ E1) in H. unfold bind at 1, load in H.
  destruct (getitem d1 (sender_hash t) h1) as [h2 [e2|[d2 l2]]] eqn:E2.
  { by rewrite (bind_raise _ _ _ _ _ E2) in H. }
  rewrite (bind_run _ _ _ _ _ E2) in H. unfold bind at 1 in H.
  unfold bind at 1, lift in H.
  destruct (verify t _ _) as [ev|ok] eqn:Ev; [done|].
  unfold bind at 1, assert_ in H.
  destruct ok; [by eauto|]. by unfold raise in H.
Qed.

Lemma for_each_returns {S A X} (P : X → Prop) (body : X → A → M S A) xs :
  (∀ x a s s' a', body x a s = (s', inr a') → P x) →
  ∀ a s s' a', for_each xs body a s = (s', inr a') → Forall P xs.
Proof.
  intros Hbody. induction xs as [|x xs IH]; intros a s s' a'; simpl; [done|].
  destruct (body x a s) as [s1 [e1|a1]] eqn:E1.
  - by rewrite (bind_raise _ _ _ _ _ E1).
  - rewrite (bind_run _ _ _ _ _ E1). intros H. constructor.
    + by eapply Hbody.
    + by eapply IH.
Qed.

(** X12. What an accepted block is. When [verify_and_get_changes]
    returns, the block has the expected difficulty, between 1 and
    [2^128 - 1]; its timestamp and nonce fit 8 bytes; its identifier is the
    SHA-256 of its header fields; it holds at most 25 transactions and its
    miner address has 20 bytes. Every transaction has 20-byte addresses, a
    sender address that is the SHA-1 of its public key, a positive amount,
    a fee between 0 and the amount, the identifier of its fields and a
    signature that verifies under its public key: no coin moves without
    a valid signature of the sender. No assumption on the dictionary is
    needed. *)
Theorem accepted_block_is_well_formed
    (B : Block) (difficulty' : Z) (d d' : PyDict) (h h' : heap) :
  verify_and_get_changes B difficulty' d h = (h', inr d') →
  difficulty B = difficulty' ∧
  1 ≤ difficulty B < 2 ^ 128 ∧
  0 ≤ timestamp B < 2 ^ 64 ∧
  0 ≤ block_nonce B < 2 ^ 64 ∧
  block_id B = SHA256 (previous B ++ miner B
                       ++ concat (map txid (transactions B))
                       ++ le_digits 8 (timestamp B)
                       ++ le_digits 16 (difficulty B)
                       ++ le_digits 8 (block_nonce B)) ∧
  (length (transactions B) ≤ 25)%nat ∧
  length (miner B) = 20%nat ∧
  Forall (λ t,
      length (sender_hash t) = 20%nat ∧
      length (recipient_hash t) = 20%nat ∧
      sender_hash t = SHA1 (pk_serialize_ser (sender_public_key t)) ∧
      0 < amount t < 2 ^ 64 ∧
      0 ≤ fee t ≤ amount t ∧
      0 ≤ tx_nonce t < 2 ^ 64 ∧
      txid t = SHA256 (sender_hash t ++ recipient_hash t
                       ++ pk_serialize_ser (sender_public_key t)
                       ++ le_digits 8 (amount t) ++ le_digits 8 (fee t)
                       ++ le_digits 8 (tx_nonce t) ++ signature t) ∧
      ∃ k, pk_serialize_des (sender_public_key t) = inr k ∧
           ecdsa_verify k (signature t)
             (SHA256 (recipient_hash t ++ le_digits 8 (amount t)
                      ++ le_digits 8 (fee t) ++ le_digits 8 (tx_nonce t)))
           = true)
    (transactions B).
Proof.
  intros (Hd & Hid & Hlen & Hminer & (target & Ht & Hp) & Hupd)
    %verify_and_get_changes_inv.
  unfold block_hash in Hid.
  destruct (to_bytes_little 8 (timestamp B)) as [|tsb] eqn:Ets; [done|].
  destruct (to_bytes_little 16 (difficulty B)) as [|db] eqn:Edb; [done|].
  destruct (to_bytes_little 8 (block_nonce B)) as [|nb] eqn:Enb; [done|].
  apply to_bytes_little_inr in Ets as [Hts ->], Edb as [Hdb ->],
    Enb as [Hnb ->].
  cbn [ebind] in Hid. apply (inj inr) in Hid.
  assert (difficulty B ≠ 0) as Hd0.
  { intros E. by rewrite E in Ht. }
  split; [done|]. split; [change (8 * Z.of_nat 16) with 128 in Hdb; lia|].
  split; [done|]. split; [done|]. split.
  { rewrite <- Hid. unfold sha256_hash. cbn [concat].
    by rewrite app_nil_r. }
  split; [done|]. split; [done|].
  unfold update_states in Hupd.
  destruct (earn_into (mkDict (items d) (Some default_user_state))
              (miner B) MINING_REWARD false h) as [h1 [e1|d1]] eqn:E1.
  { by rewrite (bind_raise _ _ _ _ _ E1) in Hupd. }
  rewrite (bind_run _ _ _ _ _ E1) in Hupd.
  eapply for_each_returns; [|exact Hupd].
  intros t a s s' a' (b & n & Hv)%apply_transaction_verified.
  apply verify_true_inv
    in Hv as (H1 & H2 & H3 & H4 & H5 & H6 & H7 & m & k & H8 & H9 & H10).
  unfold txid_hash in H7. unfold message_hash in H8.
  destruct (to_bytes_little 8 (amount t)) as [|ab] eqn:Ea; [done|].
  destruct (to_bytes_little 8 (fee t)) as [|fb] eqn:Ef; [done|].
  destruct (to_bytes_little 8 (tx_nonce t)) as [|nb] eqn:En; [done|].
  apply to_bytes_little_inr in Ea as [Ha ->], Ef as [Hf ->], En as [Hn ->].
  cbn [ebind] in H7, H8.
  unfold sha256_hash in H7, H8. cbn [concat] in H7, H8.
  rewrite app_nil_r in H7, H8.
  apply (inj inr) in H7. apply (inj inr) in H8. subst m.
  change (8 * Z.of_nat 8) with 64 in Ha, Hf, Hn.
  split; [done|]. split; [done|]. split; [done|]. split; [lia|].
  split; [lia|]. split; [lia|]. split; [by rewrite H7|].
  by exists k.
Qed.

(** *** Nonces inside an accepted block *)

(** The number of transactions of [txs] sent from [k]. *)
Lemma txs_delta_nonce miner txs k :
  (txs_delta miner txs k).2
  = Z.of_nat (length (filter (λ t, sender_hash t = k) txs)).
Proof.
  induction txs as [|t txs IH]; [done|]. cbn [txs_delta foldr snd].
  fold (txs_delta miner txs k). rewrite IH. unfold tx_delta. cbn [snd].
  rewrite filter_cons. destruct (decide (sender_hash t = k)) as [E|E].
  - rewrite decide_True by done. simpl length. lia.
  - rewrite decide_False by done. lia.
Qed.

Lemma spec_transaction_verified miner t (P P' : ledger) :
  spec_transaction miner t P = inr P' →
  verify t (balance (P (sender_hash t))) (nonce (P (sender_hash t)))
  = inr true.
Proof.
  unfold spec_transaction.
  destruct (verify t _ _) as [e|[]]; simpl; done.
Qed.

Lemma efold_spec_nonce miner txs (P P' : ledger) i t :
  efold (spec_transaction miner) txs P = inr P' →
  txs !! i = Some t →
  tx_nonce t
  = nonce (P (sender_hash t)) + 1
    + Z.of_nat (length (filter (λ t', sender_hash t' = sender_hash t)
                          (take i txs))).
Proof.
  revert P i. induction txs as [|t0 txs IH]; intros P i; [done|].
  cbn [efold]. destruct (spec_transaction miner t0 P) as [e|P1] eqn:E;
    cbn [ebind]; [done|]. intros Hrest Hi.
  destruct i as [|i].
  - simpl in Hi. simplify_eq. simpl.
    apply spec_transaction_verified, verify_true_inv in E. lia.
  - simpl in Hi. rewrite (IH P1 i Hrest Hi).
    rewrite (spec_transaction_delta _ _ _ _ (sender_hash t) E).
    unfold shift, tx_delta. cbn [nonce snd].
    cbn [take]. rewrite filter_cons.
    destruct (decide (sender_hash t = sender_hash t0)) as [E0|E0].
    + rewrite decide_True by done. simpl length. lia.
    + rewrite decide_False by done. lia.
Qed.

Lemma filter_take_lt {A} (P : A → Prop) `{∀ x, Decision (P x)}
    (l : list A) i j x :
  (i < j)%nat → l !! i = Some x → P x →
  (length (filter P (take i l)) < length (filter P (take j l)))%nat.
Proof.
  intros Hij Hi HP.
  assert (take j l !! i = Some x) as Hi' by (by rewrite lookup_take_lt).
  rewrite <- (take_drop_middle (take j l) i x Hi').
  rewrite take_take, Nat.min_l by lia.
  rewrite filter_app, filter_cons, decide_True by done.
  rewrite length_app. simpl. lia.
Qed.

(** The block's transactions against the ledger the dictionary
    represents. *)
Lemma accepted_block_spec B difficulty' d d' h h' :
  wf h d →
  verify_and_get_changes B difficulty' d h = (h', inr d') →
  ∃ P', spec_apply_block B (ledger_of h d) = inr P' ∧
        wf h' d' ∧ default_factory d' = Some default_user_state ∧
        ∀ k, ledger_of h' d' k = P' k.
Proof.
  intros Hwf Hrun%verify_and_get_changes_inr.
  pose proof (update_states_spec B h d Hwf) as Hspec.
  rewrite Hrun in Hspec.
  destruct (spec_apply_block B (ledger_of h d)) as [e|P']; [done|].
  by exists P'.
Qed.

(** X13. Nonces inside an accepted block. Against a dictionary that is
    an account map, every transaction of an accepted block carries the
    nonce its sender had before the block, plus one, plus the number of
    earlier transactions of the same sender in the block. Hence no
    transaction occurs twice in an accepted block. *)
Theorem accepted_block_nonces_consecutive
    (B : Block) (difficulty' : Z) (d d' : PyDict) (h h' : heap) :
  wf h d →
  verify_and_get_changes B difficulty' d h = (h', inr d') →
  (∀ i t,
     transactions B !! i = Some t →
     tx_nonce t
     = nonce (ledger_of h d (sender_hash t)) + 1
       + Z.of_nat (length (filter (λ t', sender_hash t' = sender_hash t)
                             (take i (transactions B))))) ∧
  NoDup (transactions B).
Proof.
  intros Hwf Hrun.
  destruct (accepted_block_spec _ _ _ _ _ _ Hwf Hrun) as (P' & Hspec & _).
  unfold spec_apply_block in Hspec.
  assert (∀ i t,
     transactions B !! i = Some t →
     tx_nonce t
     = nonce (ledger_of h d (sender_hash t)) + 1
       + Z.of_nat (length (filter (λ t', sender_hash t' = sender_hash t)
                             (take i (transactions B))))) as Hn.
  { intros i t Hi. rewrite (efold_spec_nonce _ _ _ _ i t Hspec Hi).
    unfold credit. case_decide as E; simpl; [by rewrite E|done]. }
  split; [exact Hn|]. apply NoDup_alt. intros i j t Hi Hj.
  pose proof (Hn i t Hi) as Ei. pose proof (Hn j t Hj) as Ej.
  destruct (Nat.lt_trichotomy i j) as [Hlt|[->|Hlt]]; [|done|].
  - pose proof (filter_take_lt (λ t', sender_hash t' = sender_hash t)
                  (transactions B) i j t Hlt Hi eq_refl). lia.
  - pose proof (filter_take_lt (λ t', sender_hash t' = sender_hash t)
                  (transactions B) j i t Hlt Hj eq_refl). lia.
Qed.

(** *** No overdraft *)

Lemma spec_transaction_nonneg miner t (P P' : ledger) :
  (∀ k, 0 ≤ balance (P k) ∧ -1 ≤ nonce (P k)) →
  spec_transaction miner t P = inr P' →
  ∀ k, 0 ≤ balance (P' k) ∧ -1 ≤ nonce (P' k).
Proof.
  intros HP Hrun k.
  rewrite (spec_transaction_delta _ _ _ _ k Hrun).
  apply spec_transaction_verified, verify_true_inv in Hrun
    as (_ & _ & _ & Ha & Hf & _).
  pose proof (HP k) as [Hk Hn]. pose proof (HP (sender_hash t)) as [Hs _].
  unfold shift, tx_delta. cbn [balance nonce fst snd].
  repeat case_decide; subst; lia.
Qed.

Lemma efold_spec_nonneg miner txs (P P' : ledger) :
  (∀ k, 0 ≤ balance (P k) ∧ -1 ≤ nonce (P k)) →
  efold (spec_transaction miner) txs P = inr P' →
  ∀ k, 0 ≤ balance (P' k) ∧ -1 ≤ nonce (P' k).
Proof.
  revert P. induction txs as [|t txs IH]; intros P HP; cbn [efold].
  { by intros [= <-]. }
  destruct (spec_transaction miner t P) as [e|P1] eqn:E; cbn [ebind]; [done|].
  apply IH. by eapply spec_transaction_nonneg.
Qed.

Lemma spec_apply_block_nonneg B (P P' : ledger) :
  (∀ k, 0 ≤ balance (P k) ∧ -1 ≤ nonce (P k)) →
  spec_apply_block B P = inr P' →
  ∀ k, 0 ≤ balance (P' k) ∧ -1 ≤ nonce (P' k).
Proof.
  intros HP. unfold spec_apply_block. apply efold_spec_nonneg.
  intros k. unfold credit. pose proof (HP k). pose proof (HP (miner B)).
  case_decide; simpl; lia.
Qed.

(** A check of the bounds that can be run on a concrete store and
    dictionary. *)
Lemma ledger_bounds_check h d :
  bool_decide (map_Forall (λ _ u, 0 ≤ balance u ∧ -1 ≤ nonce u) (view h d))
  = true →
  ∀ k, 0 ≤ balance (ledger_of h d k) ∧ -1 ≤ nonce (ledger_of h d k).
Proof.
  intros Hall%bool_decide_eq_true k. unfold ledger_of, account.
  destruct (view h d !! k) as [u|] eqn:E; simpl.
  - by apply (Hall k u).
  - done.
Qed.

(** X14. No overdraft. If every account of the dictionary given has a
    balance of at least 0 and a nonce of at least -1, so has every account
    of the dictionary an accepted block returns. *)
Theorem accepted_block_no_overdraft
    (B : Block) (difficulty' : Z) (d d' : PyDict) (h h' : heap) :
  wf h d →
  (∀ k, 0 ≤ balance (ledger_of h d k) ∧ -1 ≤ nonce (ledger_of h d k)) →
  verify_and_get_changes B difficulty' d h = (h', inr d') →
  ∀ k, 0 ≤ balance (ledger_of h' d' k) ∧ -1 ≤ nonce (ledger_of h' d' k).
Proof.
  intros Hwf HP Hrun k.
  destruct (accepted_block_spec _ _ _ _ _ _ Hwf Hrun)
    as (P' & Hspec & _ & _ & Hl).
  rewrite Hl. by eapply spec_apply_block_nonneg.
Qed.

(** *** Undoing without verification *)

Lemma supply_v_earn_undo V k x :
  supply (v_earn default_user_state V k x true) = supply V - x.
Proof.
  unfold v_earn. rewrite supply_insert. unfold v_get, account, earn. simpl. lia.
Qed.

Lemma supply_v_spend_undo V k x :
  supply (v_spend default_user_state V k x true) = supply V + x.
Proof.
  unfold v_spend. rewrite supply_insert. unfold v_get, account, spend. simpl.
  lia.
Qed.

Lemma supply_v_undo_transaction miner t V :
  supply (v_undo_transaction default_user_state miner t V) = supply V.
Proof.
  unfold v_undo_transaction.
  rewrite supply_v_earn_undo, supply_v_spend_undo, supply_v_earn_undo. lia.
Qed.

Lemma supply_v_get_changes_for_undo B V reward :
  supply (v_get_changes_for_undo default_user_state B V reward)
  = supply V - reward.
Proof.
  unfold v_get_changes_for_undo.
  rewrite <- (supply_v_earn_undo V (miner B) reward).
  generalize (v_earn default_user_state V (miner B) reward true).
  induction (transactions B) as [|t txs IH]; intros W; simpl; [done|].
  by rewrite IH, supply_v_undo_transaction.
Qed.

(** X15. [get_changes_for_undo] verifies nothing and, on a
    [defaultdict] that is an account map, never raises: whatever the
    block, the dictionary returned reads at every address as the one
    given less the block's net effect there (the reward and the fees for
    the miner, minus the amounts sent, plus the amounts received less the
    fees; the nonce less the number of transactions sent), and its
    balances sum to 10_000 less. *)
Theorem get_changes_for_undo_subtracts_block
    (B : Block) (d : PyDict) (h : heap) :
  wf h d →
  default_factory d = Some default_user_state →
  ∃ h' d',
    get_changes_for_undo B d MINING_REWARD h = (h', inr d') ∧
    wf h' d' ∧
    default_factory d' = Some default_user_state ∧
    (∀ k, ledger_of h' d' k = unshift (ledger_of h d k) (block_delta B k)) ∧
    total_supply h' d' = total_supply h d - 10000.
Proof.
  intros Hwf Hf.
  destruct (get_changes_for_undo_view _ B h d MINING_REWARD Hwf Hf)
    as (h' & d' & Hrun & Hwf' & Hf' & Hv).
  exists h', d'. split; [done|]. split; [done|]. split; [done|]. split.
  - intros k. unfold ledger_of. rewrite Hv.
    apply v_get_changes_for_undo_delta.
  - by rewrite !total_supply_view, Hv, supply_v_get_changes_for_undo.
Qed.

(** ** Reorganisations *)

Lemma chain_difficulty_app c1 c2 :
  chain_difficulty (c1 ++ c2) = chain_difficulty c1 + chain_difficulty c2.
Proof.
  unfold chain_difficulty, Zsum. rewrite fmap_app.
  induction (difficulty <$> c1) as [|x l IH]; simpl; lia.
Qed.

Lemma chain_difficulty_cons b c :
  chain_difficulty (b :: c) = difficulty b + chain_difficulty c.
Proof. reflexivity. Qed.

Lemma undo_above_take split_height index w w' u :
  undo_above split_height index w = (w', inr u) →
  index = length (longest_chain w.2) →
  ∃ n, (n ≤ length (longest_chain w.2))%nat ∧
       longest_chain w'.2 = take n (longest_chain w.2) ∧
       total_difficulty w'.2
       = total_difficulty w.2 - chain_difficulty (drop n (longest_chain w.2)) ∧
       Forall (λ b, split_height ≤ height b) (drop n (longest_chain w.2)) ∧
       (∀ b, last (longest_chain w'.2) = Some b → height b < split_height).
Proof.
  revert w. induction index as [|i IH]; intros w; simpl.
  { intros [= <-] Hlen. exists 0%nat.
    destruct (longest_chain w.2); [|done]. simpl.
    repeat split; try done. unfold chain_difficulty, Zsum. simpl. lia. }
  unfold bind at 1. simpl. intros Hrun Hlen.
  destruct (longest_chain w.2 !! i) as [block|] eqn:Hi.
  2:{ apply lookup_ge_None in Hi. lia. }
  assert (longest_chain w.2 = take i (longest_chain w.2) ++ [block]) as Hsplit.
  { rewrite <- (take_drop_middle _ _ _ Hi) at 1. f_equal.
    rewrite drop_ge by lia. done. }
  destruct (split_height <=? height block) eqn:Hh.
  - apply Z.leb_le in Hh.
    destruct (undo_last_block w) as [w1 [e|[]]] eqn:E.
    { by rewrite (bind_raise _ _ _ _ _ E) in Hrun. }
    rewrite (bind_run _ _ _ _ _ E) in Hrun.
    apply undo_last_block_fields in E as (b & Hc & Htd & _).
    assert (longest_chain w1.2 = take i (longest_chain w.2) ∧ b = block)
      as [Hc1 ->].
    { rewrite Hsplit in Hc at 1. apply app_inj_tail in Hc as [H1 H2].
      split; congruence. }
    destruct (IH w1 Hrun) as (n & Hn & Hc' & Htd' & Hall & Hlast).
    { rewrite Hc1, length_take. lia. }
    rewrite Hc1, length_take in Hn.
    assert (drop n (longest_chain w.2)
            = drop n (take i (longest_chain w.2)) ++ [block]) as Hdrop.
    { rewrite Hsplit at 1. rewrite drop_app_le; [done|].
      rewrite length_take. lia. }
    rewrite Hc1 in Hc', Htd', Hall.
    rewrite take_take, Nat.min_l in Hc' by lia.
    exists n. split; [lia|]. split; [done|]. split.
    { rewrite Htd', Htd, Hdrop, chain_difficulty_app.
      unfold chain_difficulty at 3, Zsum. simpl. lia. }
    split; [|done].
    rewrite Hdrop. apply Forall_app. split; [done|]. by constructor.
  - apply Z.leb_gt in Hh. unfold ret in Hrun. simplify_eq.
    exists (length (longest_chain w'.2)). split; [lia|].
    rewrite take_ge, drop_ge by lia. split; [done|]. split.
    { unfold chain_difficulty, Zsum. simpl. lia. }
    split; [done|]. intros b Hb. rewrite Hsplit, last_snoc in Hb.
    by simplify_eq.
Qed.

Lemma apply_branch_total new_branch w w' u :
  apply_branch new_branch w = (w', inr u) →
  longest_chain w'.2 = longest_chain w.2 ++ new_branch ∧
  total_difficulty w'.2 = total_difficulty w.2 + chain_difficulty new_branch ∧
  (∀ first rest, new_branch = first :: rest →
                 height first = len (longest_chain w.2)).
Proof.
  revert w. induction new_branch as [|b bs IH]; intros w; simpl.
  { intros [= <-]. rewrite app_nil_r. unfold chain_difficulty, Zsum. simpl.
    split; [done|]. split; [lia|done]. }
  destruct (verify_and_apply_block b w) as [w1 [e|[]]] eqn:E.
  { by rewrite (bind_raise _ _ _ _ _ E). }
  rewrite (bind_run _ _ _ _ _ E). intros Hrest.
  apply IH in Hrest as (Hc & Htd & _).
  apply verify_and_apply_block_inr in E
    as (Hheight & _ & _ & _ & h' & d' & _ & ->).
  cbn [fst snd longest_chain total_difficulty] in *.
  split; [by rewrite Hc, <- app_assoc|]. split.
  - rewrite Htd, chain_difficulty_cons. lia.
  - intros first rest [= <- <-]. done.
Qed.

(** X16. The chain a reorganisation returns. When [verify_reorg] returns
    a state for a branch that starts with a block of height [n], then [n]
    is at most the length of the old chain, the new chain is the first
    [n] blocks of the old chain followed by the branch, the blocks
    dropped all had a height of at least [n], and the new total difficulty
    is the old one less the difficulties of the dropped blocks plus those
    of the branch, which is strictly more than the old one. *)
Theorem verify_reorg_chain (old_state : BlockchainState)
    (first : Block) (rest : list Block) (h h' : heap)
    (new_state : BlockchainState) :
  verify_reorg old_state (first :: rest) h = (h', inr new_state) →
  0 ≤ height first ≤ len (longest_chain old_state) ∧
  longest_chain new_state
  = take (Z.to_nat (height first)) (longest_chain old_state)
    ++ first :: rest ∧
  total_difficulty new_state
  = total_difficulty old_state
    - chain_difficulty (drop (Z.to_nat (height first))
                          (longest_chain old_state))
    + chain_difficulty (first :: rest) ∧
  Forall (λ b, height first ≤ height b)
    (drop (Z.to_nat (height first)) (longest_chain old_state)) ∧
  total_difficulty old_state < total_difficulty new_state.
Proof.
  unfold verify_reorg.
  destruct (replay_branch old_state (first :: rest) h) as [h1 [e|s1]] eqn:E.
  { by rewrite (bind_raise _ _ _ _ _ E). }
  rewrite (bind_run _ _ _ _ _ E). unfold bind, assert_, ret, raise.
  destruct (total_difficulty old_state <? total_difficulty s1) eqn:Hlt;
    [|done].
  intros [= <- <-]. apply Z.ltb_lt in Hlt.
  unfold replay_branch in E.
  destruct (deepcopy (user_states old_state) h) as [h0 [e|d0]] eqn:E0.
  { by rewrite (bind_raise _ _ _ _ _ E0) in E. }
  rewrite (bind_run _ _ _ _ _ E0) in E.
  unfold bind at 1, lift in E. unfold with_state in E.
  set (s0 := mkState _ _ _) in E.
  destruct (undo_above (height first) (length (longest_chain s0)) (h0, s0))
    as [w2 [e|[]]] eqn:E2.
  { by rewrite (bind_raise _ _ _ _ _ E2) in E. }
  rewrite (bind_run _ _ _ _ _ E2) in E.
  destruct (apply_branch (first :: rest) w2) as [w3 [e|[]]] eqn:E3.
  { by rewrite (bind_raise _ _ _ _ _ E3) in E. }
  rewrite (bind_run _ _ _ _ _ E3) in E. unfold self_ in E. simplify_eq.
  apply undo_above_take in E2 as (n & Hn & Hc2 & Htd2 & Hall & _); [|done].
  apply apply_branch_total in E3 as (Hc3 & Htd3 & Hfirst).
  specialize (Hfirst first rest eq_refl). simpl in *.
  assert (height first = Z.of_nat n) as Hh.
  { rewrite Hfirst, Hc2. unfold len. rewrite length_take. lia. }
  rewrite Hh, Nat2Z.id. unfold len.
  split; [lia|]. split; [by rewrite Hc3, Hc2|].
  split; [rewrite Htd3, Htd2; lia|]. split; [|done].
  by rewrite <- Hh.
Qed.


(** ** Histories of accepted blocks *)

Lemma calculate_difficulty_chain S S' :
  longest_chain S = longest_chain S' →
  calculate_difficulty S = calculate_difficulty S'.
Proof. unfold calculate_difficulty. by intros ->. Qed.

Lemma spec_transaction_ext miner t (P Q : ledger) :
  (∀ k, P k = Q k) →
  match spec_transaction miner t P, spec_transaction miner t Q with
  | inr P', inr Q' => ∀ k, P' k = Q' k
  | inl e, inl e' => e = e'
  | _, _ => False
  end.
Proof.
  intros H. unfold spec_transaction. rewrite (H (sender_hash t)).
  destruct (verify t _ _) as [e|[]]; simpl; try done.
  apply credit_ext, debit_ext, credit_ext, H.
Qed.

Lemma efold_spec_ext miner txs (P Q : ledger) :
  (∀ k, P k = Q k) →
  match efold (spec_transaction miner) txs P,
        efold (spec_transaction miner) txs Q with
  | inr P', inr Q' => ∀ k, P' k = Q' k
  | inl e, inl e' => e = e'
  | _, _ => False
  end.
Proof.
  revert P Q. induction txs as [|t txs IH]; intros P Q H; cbn [efold]; [done|].
  pose proof (spec_transaction_ext miner t P Q H) as Ht.
  destruct (spec_transaction miner t P) as [e|P1],
           (spec_transaction miner t Q) as [e'|Q1]; cbn [ebind]; try done.
  by apply IH.
Qed.

Lemma spec_apply_block_ext B (P Q : ledger) :
  (∀ k, P k = Q k) →
  match spec_apply_block B P, spec_apply_block B Q with
  | inr P', inr Q' => ∀ k, P' k = Q' k
  | inl e, inl e' => e = e'
  | _, _ => False
  end.
Proof.
  intros H. unfold spec_apply_block. apply efold_spec_ext.
  by apply credit_ext.
Qed.

Lemma efold_app {A X} (f : X → A → exn + A) xs ys (a : A) :
  efold f (xs ++ ys) a = try! a' := efold f xs a in efold f ys a'.
Proof.
  revert a. induction xs as [|x xs IH]; intros a; cbn [efold app ebind];
    [done|].
  destruct (f x a); cbn [ebind]; [done|]. apply IH.
Qed.

Lemma valid_chain_replay chain P :
  valid_chain chain P → replay chain empty_ledger = inr P.
Proof.
  induction 1 as [|chain B P P' _ IH _ Hspec]; [done|].
  unfold replay in *. rewrite efold_app, IH. cbn [ebind efold].
  by rewrite Hspec.
Qed.

Lemma valid_chain_snoc_inv chain B P' :
  valid_chain (chain ++ [B]) P' →
  ∃ P, valid_chain chain P ∧ extends chain B ∧ spec_apply_block B P = inr P'.
Proof.
  inversion 1 as [Hnil|chain0 B0 P P0 Hv He Hs Heq].
  - by destruct chain.
  - apply app_inj_tail in Heq as [-> ->]. eauto.
Qed.

(** *** The invariant is kept *)

Lemma chain_inv_init h : chain_inv (h, mkState [] (mkDict ∅ None) 0).
Proof.
  split; [|split].
  - split; [apply wf_empty|]. split; [by right|done].
  - done.
  - exists empty_ledger. split; [constructor|done].
Qed.

Lemma chain_inv_apply B w w' :
  chain_inv w → verify_and_apply_block B w = (w', inr tt) → chain_inv w'.
Proof.
  intros (Hinv & Hsup & P & Hvalid & HP) Hrun.
  pose proof (verify_and_apply_block_inv B w w' (inr tt) Hinv Hrun) as Hinv'.
  destruct Hinv as (Hwf & _).
  apply verify_and_apply_block_inr in Hrun
    as (Hheight & Hprev & Hts & Hcalc & h' & d' & Hvgc & ->).
  pose proof (verify_and_get_changes_inv _ _ _ _ _ _ Hvgc)
    as (_ & Hid & Hlen & Hminer & Hpow & Hupd).
  destruct (accepted_block_spec _ _ _ _ _ _ Hwf Hvgc)
    as (P1 & Hspec & Hwf' & _ & HP1).
  split; [done|]. cbn [fst snd longest_chain user_states]. split.
  - pose proof (update_states_view B w.1 (user_states w.2) MINING_REWARD Hwf)
      as Hsim.
    rewrite Hupd in Hsim. unfold sim in Hsim. simpl in Hsim.
    destruct (v_update_states B (view w.1 (user_states w.2)) MINING_REWARD)
      as [e|V'] eqn:E; [done|].
    destruct Hsim as (_ & _ & Hv).
    rewrite total_supply_view, Hv, (supply_v_update_states _ _ _ _ E).
    rewrite <- total_supply_view, Hsup. unfold len, MINING_REWARD.
    rewrite length_app. simpl. lia.
  - pose proof (spec_apply_block_ext B _ _ HP) as Hext.
    rewrite Hspec in Hext.
    destruct (spec_apply_block B P) as [e|P'] eqn:EP; [done|].
    exists P'. split.
    + eapply valid_chain_snoc; [exact Hvalid| |exact EP].
      repeat split; done.
    + intros k. by rewrite HP1, Hext.
Qed.

Lemma chain_inv_undo w w' r :
  chain_inv w → undo_last_block w = (w', r) → chain_inv w'.
Proof.
  intros (Hinv & Hsup & P & Hvalid & HP) Hrun.
  destruct (longest_chain w.2) as [|b0 c0] eqn:Hc using rev_ind.
  { rewrite (undo_last_block_nil w Hc) in Hrun. simplify_eq.
    split; [done|]. split; [rewrite Hc; exact Hsup|]. exists P. rewrite Hc. by split. }
  clear IHc0. destruct Hinv as (Hwf & Hf & Htd).
  destruct Hf as [Hf|Hf]; [|rewrite Hc in Hf; by destruct c0].
  destruct (get_changes_for_undo_view _ b0 w.1 (user_states w.2)
              MINING_REWARD Hwf Hf) as (h2 & d2 & Hundo & Hwf2 & F2 & Hv2).
  rewrite (undo_last_block_run w c0 b0 h2 d2 Hc Hundo) in Hrun.
  simplify_eq. split; [|split].
  - split; [done|]. split; [by left|].
    unfold td_consistent in *. simpl.
    rewrite Hc, chain_difficulty_snoc in Htd. lia.
  - cbn [fst snd longest_chain user_states].
    rewrite total_supply_view, Hv2, supply_v_get_changes_for_undo.
    rewrite <- total_supply_view, Hsup. unfold len, MINING_REWARD.
    rewrite length_app. simpl. lia.
  - apply valid_chain_snoc_inv in Hvalid as (P0 & Hv0 & _ & Hspec).
    exists P0. split; [done|]. intros k.
    cbn [fst snd user_states]. unfold ledger_of.
    rewrite Hv2, v_get_changes_for_undo_delta.
    fold (ledger_of w.1 (user_states w.2)). rewrite HP.
    rewrite (spec_apply_block_delta b0 _ _ k Hspec). apply unshift_shift.
Qed.

(** Allocation and writes above the objects of a state leave the
    invariant alone. *)
Lemma chain_inv_store w h' :
  chain_inv w → unchanged_below (length w.1) w.1 h' → chain_inv (h', w.2).
Proof.
  intros ((Hwf & Hf & Htd) & Hsup & P & Hvalid & HP) Hun.
  assert (view h' (user_states w.2) = view w.1 (user_states w.2)) as Hview.
  { eapply view_unchanged; [exact Hun|]. apply Hwf. }
  split; [|split].
  - split; [|done]. eapply wf_grow; [exact Hwf|]. apply Hun.
  - cbn [fst snd]. by rewrite total_supply_view, Hview, <- total_supply_view.
  - exists P. split; [done|]. intros k. cbn [fst snd].
    unfold ledger_of. rewrite Hview. apply HP.
Qed.

Lemma chain_inv_undo_above split_height index w w' r :
  chain_inv w → undo_above split_height index w = (w', r) → chain_inv w'.
Proof.
  revert w. induction index as [|i IH]; intros w Hinv; simpl.
  { by intros [= <- _]. }
  unfold bind at 1. simpl.
  destruct (longest_chain w.2 !! i) as [block|]; [|by intros [= <- _]].
  destruct (split_height <=? height block); [|by intros [= <- _]].
  destruct (undo_last_block w) as [w1 [e|[]]] eqn:E.
  - rewrite (bind_raise _ _ _ _ _ E). intros [= <- _].
    by eapply chain_inv_undo.
  - rewrite (bind_run _ _ _ _ _ E). apply IH. by eapply chain_inv_undo.
Qed.

Lemma chain_inv_apply_branch new_branch w w' u :
  chain_inv w → apply_branch new_branch w = (w', inr u) → chain_inv w'.
Proof.
  revert w. induction new_branch as [|b bs IH]; intros w Hinv; simpl.
  { by intros [= <-]. }
  destruct (verify_and_apply_block b w) as [w1 [e|[]]] eqn:E.
  - by rewrite (bind_raise _ _ _ _ _ E).
  - rewrite (bind_run _ _ _ _ _ E). apply IH. by eapply chain_inv_apply.
Qed.

Lemma chain_inv_reorg old_state new_branch h h' new_state :
  chain_inv (h, old_state) →
  verify_reorg old_state new_branch h = (h', inr new_state) →
  chain_inv (h', new_state).
Proof.
  intros Hinv. pose proof Hinv as ((Hwf & Hf & Htd) & Hsup & P & Hvalid & HP).
  unfold verify_reorg.
  destruct (replay_branch old_state new_branch h) as [h1 [e|s1]] eqn:E.
  { by rewrite (bind_raise _ _ _ _ _ E). }
  rewrite (bind_run _ _ _ _ _ E). unfold bind, assert_, ret, raise.
  destruct (_ <? _); [|done]. intros [= <- <-].
  unfold replay_branch in E.
  destruct (deepcopy_view h (user_states old_state) Hwf)
    as (h0 & d0 & Hcopy & Hwf0 & F0 & Hv0).
  rewrite (bind_run _ _ _ _ _ Hcopy) in E.
  destruct new_branch as [|first rest]; [done|].
  unfold bind at 1, lift in E. unfold with_state in E.
  set (s0 := mkState _ _ _) in E.
  assert (chain_inv (h0, s0)) as Hinv0.
  { split; [|split].
    - split; [done|]. split; [|done]. simpl. by rewrite F0.
    - cbn [fst snd s0 longest_chain user_states].
      by rewrite total_supply_view, Hv0, <- total_supply_view.
    - exists P. split; [done|]. intros k.
      cbn [fst snd s0 user_states]. unfold ledger_of. rewrite Hv0. apply HP. }
  destruct (undo_above (height first) (length (longest_chain s0)) (h0, s0))
    as [w2 [e|[]]] eqn:E2.
  { by rewrite (bind_raise _ _ _ _ _ E2) in E. }
  rewrite (bind_run _ _ _ _ _ E2) in E.
  destruct (apply_branch (first :: rest) w2) as [w3 [e|[]]] eqn:E3.
  { by rewrite (bind_raise _ _ _ _ _ E3) in E. }
  rewrite (bind_run _ _ _ _ _ E3) in E. unfold self_ in E. simplify_eq.
  apply chain_inv_undo_above in E2; [|done].
  apply chain_inv_apply_branch in E3; [|done]. by destruct w3.
Qed.

Lemma history_inv w : accepted_history w → chain_inv w.
Proof.
  induction 1 as [h|w w' B _ IH Hrun|w w' r _ IH Hrun
                 |w nb h' r _ IH Hrun|w nb h' s' _ IH Hrun].
  - apply chain_inv_init.
  - by eapply chain_inv_apply.
  - by eapply chain_inv_undo.
  - apply chain_inv_store; [done|].
    pose proof (verify_reorg_framed w.2 nb w.1) as [Hun _].
    by rewrite Hrun in Hun.
  - eapply chain_inv_reorg; [|exact Hrun]. by destruct w.
Qed.

(** *** Consequences *)

Lemma valid_chain_extends chain P i B :
  valid_chain chain P → chain !! i = Some B → extends (take i chain) B.
Proof.
  induction 1 as [|chain B0 P P' Hv IH He Hs]; [done|]. intros Hi.
  destruct (decide (i < length chain)%nat) as [Hlt|Hge].
  - rewrite lookup_app_l in Hi by done.
    rewrite take_app_le by lia. by apply IH.
  - rewrite lookup_app_r in Hi by lia.
    destruct (i - length chain)%nat as [|n] eqn:E; [|by destruct n].
    simpl in Hi. simplify_eq.
    assert (i = length chain) as -> by lia.
    by rewrite take_app_length.
Qed.

Lemma valid_chain_nonneg chain P :
  valid_chain chain P → ∀ k, 0 ≤ balance (P k) ∧ -1 ≤ nonce (P k).
Proof.
  induction 1 as [|chain B P P' _ IH _ Hspec]; [done|].
  by eapply spec_apply_block_nonneg.
Qed.

(** X17. In every world reached from [BlockchainState([], dict(), 0)] by
    accepted blocks, undos and reorganisations, the accounts are those
    obtained by applying the blocks of the chain, in order, to the empty
    account map; in particular that replay succeeds. *)
Theorem history_ledger_is_replay (w : world) :
  accepted_history w →
  ∃ P, replay (longest_chain w.2) empty_ledger = inr P ∧
       ∀ k, ledger_of w.1 (user_states w.2) k = P k.
Proof.
  intros (_ & _ & P & Hvalid & HP)%history_inv.
  exists P. split; [by apply valid_chain_replay|done].
Qed.

(** X18. In every world reached from [BlockchainState([], dict(), 0)] by
    accepted blocks, undos and reorganisations, the balances of the
    dictionary sum to 10_000 times the number of blocks of the chain. *)
Theorem history_supply (w : world) :
  accepted_history w →
  total_supply w.1 (user_states w.2) = 10000 * len (longest_chain w.2).
Proof. by intros (_ & ? & _)%history_inv. Qed.

(** X19. In every world reached from [BlockchainState([], dict(), 0)] by
    accepted blocks, undos and reorganisations, the total difficulty is
    the sum of the difficulties of the chain, and every block satisfies, on
    top of the blocks before it, what was checked when it was accepted:
    its height is its position, its parent is the identifier of the block
    before it (32 zero bytes for the first), its timestamp is not before
    that block's, its difficulty is the one [calculate_difficulty] gives
    for the blocks before it, its identifier is the SHA-256 of its header,
    it holds at most 25 transactions, its miner address has 20 bytes and
    its identifier passes the proof-of-work test. *)
Theorem history_chain_linked (w : world) :
  accepted_history w →
  total_difficulty w.2 = chain_difficulty (longest_chain w.2) ∧
  ∀ i B, longest_chain w.2 !! i = Some B →
         extends (take i (longest_chain w.2)) B.
Proof.
  intros ((_ & _ & Htd) & _ & P & Hvalid & _)%history_inv.
  split; [done|]. intros i B. by eapply valid_chain_extends.
Qed.

(** X20. In every world reached from [BlockchainState([], dict(), 0)] by
    accepted blocks, undos and reorganisations, every account has a
    balance of at least 0 and a nonce of at least -1. *)
Theorem history_no_overdraft (w : world) :
  accepted_history w →
  ∀ k, 0 ≤ balance (ledger_of w.1 (user_states w.2) k) ∧
       -1 ≤ nonce (ledger_of w.1 (user_states w.2) k).
Proof.
  intros (_ & _ & P & Hvalid & HP)%history_inv k.
  rewrite HP. by eapply valid_chain_nonneg.
Qed.

(** X21. In every world reached from [BlockchainState([], dict(), 0)]
    through the three operations, whether their calls returned or raised,
    [undo_last_block] raises exactly when the chain is empty: then it
    raises [IndexError] and changes nothing; otherwise it returns, the
    last block is removed from the chain, its difficulty is taken off the
    total difficulty, and every account reads as before less the block's
    net effect on it. *)
Theorem reachable_undo_last_block (w : world) :
  reachable w →
  (longest_chain w.2 = [] → undo_last_block w = (w, inl IndexError)) ∧
  (∀ chain B,
     longest_chain w.2 = chain ++ [B] →
     ∃ w', undo_last_block w = (w', inr tt) ∧
           longest_chain w'.2 = chain ∧
           total_difficulty w'.2 = total_difficulty w.2 - difficulty B ∧
           ∀ k, ledger_of w'.1 (user_states w'.2) k
                = unshift (ledger_of w.1 (user_states w.2) k)
                    (block_delta B k)).
Proof.
  intros (Hwf & Hf & _)%reachable_inv.
  split; [apply undo_last_block_nil|]. intros chain B Hc.
  destruct Hf as [Hf|Hf]; [|rewrite Hc in Hf; by destruct chain].
  destruct (get_changes_for_undo_view _ B w.1 (user_states w.2)
              MINING_REWARD Hwf Hf) as (h2 & d2 & Hundo & Hwf2 & F2 & Hv2).
  eexists. split; [by apply (undo_last_block_run w chain B h2 d2)|].
  cbn [fst snd longest_chain total_difficulty user_states].
  split; [done|]. split; [done|]. intros k. unfold ledger_of.
  rewrite Hv2. apply v_get_changes_for_undo_delta.
Qed.

(** X22. Undo, then apply again. In a world reached by accepted blocks,
    undos and reorganisations, with a non-empty chain, [undo_last_block]
    returns and the block it removed is accepted again by
    [verify_and_apply_block]; the chain, the total difficulty and every
    account are then as before the undo. *)
Theorem undo_then_apply_restores (w : world) (chain : list Block) (B : Block) :
  accepted_history w →
  longest_chain w.2 = chain ++ [B] →
  ∃ w1 w2,
    undo_last_block w = (w1, inr tt) ∧
    verify_and_apply_block B w1 = (w2, inr tt) ∧
    longest_chain w2.2 = longest_chain w.2 ∧
    total_difficulty w2.2 = total_difficulty w.2 ∧
    ∀ k, ledger_of w2.1 (user_states w2.2) k
         = ledger_of w.1 (user_states w.2) k.
Proof.
  intros Hinv%history_inv Hc.
  pose proof Hinv as ((Hwf & Hf & _) & _ & P & Hvalid & HP).
  destruct Hf as [Hf|Hf]; [|rewrite Hc in Hf; by destruct chain].
  destruct (get_changes_for_undo_view _ B w.1 (user_states w.2)
              MINING_REWARD Hwf Hf) as (h1 & d1 & Hundo & Hwf1 & F1 & Hv1).
  pose proof (undo_last_block_run w chain B h1 d1 Hc Hundo) as Hrun1.
  pose proof (chain_inv_undo _ _ _ Hinv Hrun1)
    as (_ & _ & P0 & Hvalid0 & HP0).
  cbn [fst snd longest_chain user_states] in Hvalid0, HP0.
  rewrite Hc in Hvalid.
  apply valid_chain_snoc_inv in Hvalid as (P0' & Hv0' & Hext & Hspec').
  destruct Hext as (Hh & Hp & Hts & Hcalc & Hid & Hlen & Hminer
                    & target & Ht & Hpow).
  set (S1 := mkState chain d1 (total_difficulty w.2 - difficulty B)) in *.
  pose proof (chain_checks_run B S1 h1 Hh Hp Hts Hcalc) as Hrun2.
  unfold S1 in Hrun2.
  cbn [user_states longest_chain total_difficulty] in Hrun2.
  rewrite (header_checks_pass B d1 h1 target Hid Hlen Hminer Ht Hpow)
    in Hrun2.
  pose proof (update_states_spec B h1 d1 Hwf1) as Hspec.
  assert (∀ k, ledger_of h1 d1 k = P0' k) as HP1.
  { intros k. unfold ledger_of. rewrite Hv1, v_get_changes_for_undo_delta.
    fold (ledger_of w.1 (user_states w.2)). rewrite HP.
    rewrite (spec_apply_block_delta B _ _ k Hspec'). apply unshift_shift. }
  pose proof (spec_apply_block_ext B _ _ HP1) as Hext.
  rewrite Hspec' in Hext.
  destruct (spec_apply_block B (ledger_of h1 d1)) as [e|Q]; [done|].
  destruct (update_states B d1 MINING_REWARD h1) as [h2 [e|d2]]; [done|].
  destruct Hspec as (_ & _ & HQ).
  eexists _, _. split; [exact Hrun1|]. split; [exact Hrun2|].
  cbn [fst snd longest_chain total_difficulty user_states S1].
  split; [by rewrite Hc|]. split; [lia|].
  intros k. by rewrite HQ, Hext, HP.
Qed.

(** *** No transaction is applied twice *)

Lemma efold_spec_nonce_bounds miner txs (P P' : ledger) t :
  efold (spec_transaction miner) txs P = inr P' →
  t ∈ txs →
  nonce (P (sender_hash t)) < tx_nonce t ≤ nonce (P' (sender_hash t)).
Proof.
  intros Hrun [i Hi]%list_elem_of_lookup.
  rewrite (efold_spec_nonce _ _ _ _ i t Hrun Hi).
  rewrite (efold_spec_delta _ _ _ _ (sender_hash t) Hrun).
  unfold shift. cbn [nonce]. rewrite txs_delta_nonce.
  pose proof (lookup_lt_Some _ _ _ Hi) as Hlt.
  pose proof (filter_take_lt (λ t', sender_hash t' = sender_hash t)
                txs i (length txs) t Hlt Hi eq_refl) as Hcount.
  rewrite (take_ge txs (length txs)) in Hcount by lia. lia.
Qed.

Lemma efold_spec_nonce_mono miner txs (P P' : ledger) k :
  efold (spec_transaction miner) txs P = inr P' →
  nonce (P k) ≤ nonce (P' k).
Proof.
  intros Hrun. rewrite (efold_spec_delta _ _ _ _ k Hrun).
  unfold shift. cbn [nonce]. rewrite txs_delta_nonce. lia.
Qed.

Lemma efold_spec_NoDup miner txs (P P' : ledger) :
  efold (spec_transaction miner) txs P = inr P' →
  NoDup ((λ t, (sender_hash t, tx_nonce t)) <$> txs).
Proof.
  intros Hrun. apply NoDup_alt. intros i j [s n] Hi Hj.
  rewrite list_lookup_fmap in Hi, Hj.
  destruct (txs !! i) as [ti|] eqn:Ei; [|done].
  destruct (txs !! j) as [tj|] eqn:Ej; [|done].
  simpl in Hi, Hj.
  assert (sender_hash tj = sender_hash ti ∧ tx_nonce tj = tx_nonce ti)
    as [Hs Hn] by (split; congruence).
  clear Hi Hj.
  pose proof (efold_spec_nonce _ _ _ _ i ti Hrun Ei) as Ni.
  pose proof (efold_spec_nonce _ _ _ _ j tj Hrun Ej) as Nj.
  rewrite Hs in Nj.
  destruct (Nat.lt_trichotomy i j) as [Hlt|[->|Hlt]]; [|done|].
  - pose proof (filter_take_lt (λ t', sender_hash t' = sender_hash ti)
                  txs i j ti Hlt Ei eq_refl). lia.
  - pose proof (filter_take_lt (λ t', sender_hash t' = sender_hash ti)
                  txs j i tj Hlt Ej Hs). lia.
Qed.

Lemma valid_chain_nonces chain P :
  valid_chain chain P →
  NoDup ((λ t, (sender_hash t, tx_nonce t))
           <$> concat (transactions <$> chain)) ∧
  ∀ t, t ∈ concat (transactions <$> chain) →
       tx_nonce t ≤ nonce (P (sender_hash t)).
Proof.
  induction 1 as [|chain B P P' _ [IHn IHb] _ Hspec].
  { split; [constructor|]. intros t Ht. by apply not_elem_of_nil in Ht. }
  rewrite fmap_app, concat_app. cbn [fmap list_fmap concat].
  rewrite app_nil_r. unfold spec_apply_block in Hspec.
  assert (∀ k, nonce (credit P (miner B) 10000 k) = nonce (P k)) as Hcredit.
  { intros k. unfold credit. case_decide; simpl; [by subst|done]. }
  split.
  - rewrite fmap_app. apply NoDup_app. split; [done|]. split.
    + intros [s n] Hold Hnew.
      apply list_elem_of_fmap in Hold as (t1 & [= -> ->] & Hold).
      apply list_elem_of_fmap in Hnew as (t2 & [= Hs Hn] & Hnew).
      apply IHb in Hold.
      pose proof (efold_spec_nonce_bounds _ _ _ _ t2 Hspec Hnew) as [Hlo _].
      rewrite Hcredit in Hlo. rewrite <- Hs in Hlo. lia.
    + by eapply efold_spec_NoDup.
  - intros t [Hold|Hnew]%elem_of_app.
    + pose proof (efold_spec_nonce_mono _ _ _ _ (sender_hash t) Hspec) as Hm.
      rewrite Hcredit in Hm. apply IHb in Hold. lia.
    + by apply (efold_spec_nonce_bounds _ _ _ _ t Hspec Hnew).
Qed.

(** X23. No replay. In a world reached by accepted blocks, undos and
    reorganisations, no two transactions of the chain, in the same block
    or in different ones, have the same sender and the same nonce, and
    the nonce of every transaction of the chain is at most the current
    nonce of its sender. *)
Theorem history_no_replay (w : world) :
  accepted_history w →
  NoDup ((λ t, (sender_hash t, tx_nonce t))
           <$> concat (transactions <$> longest_chain w.2)) ∧
  ∀ t, t ∈ concat (transactions <$> longest_chain w.2) →
       tx_nonce t ≤ nonce (ledger_of w.1 (user_states w.2) (sender_hash t)).
Proof.
  intros (_ & _ & P & Hvalid & HP)%history_inv.
  destruct (valid_chain_nonces _ _ Hvalid) as [Hn Hb].
  split; [done|]. intros t Ht. rewrite HP. by apply Hb.
Qed.


(** *** After rejected blocks as well *)

(** X24. In every world reached from [BlockchainState([], dict(), 0)]
    through the three operations, rejected blocks and failed
    reorganisations included, the dictionary is an account map (every
    reference allocated, no [UserState] object shared by two addresses),
    it is a [defaultdict] once the chain is not empty, and the total
    difficulty is the sum of the difficulties of the chain. *)
Theorem reachable_state_consistent (w : world) :
  reachable w →
  wf w.1 (user_states w.2) ∧
  (longest_chain w.2 ≠ [] →
   default_factory (user_states w.2) = Some default_user_state) ∧
  total_difficulty w.2 = chain_difficulty (longest_chain w.2).
Proof.
  intros (Hwf & Hf & Htd)%reachable_inv.
  split; [done|]. split; [|done]. intros Hne. by destruct Hf.
Qed.

(** *** Retargeting at the target rate *)

(** X25. When the tip is exactly 1200 seconds after the eleventh block
    from the end, that is ten blocks at one per 120 seconds,
    [calculate_difficulty] returns the summed difficulty of the last ten
    blocks floor-divided by 1200, times 120: ten times the result is at
    most that sum and less than 1200 below it. If the ten blocks all have
    difficulty [D], the result is [D] rounded down to a multiple of 120;
    the difficulty 1000 of the first blocks becomes 960. *)
Theorem calculate_difficulty_at_target_rate (S : BlockchainState)
    (older : list Block) (anchor : Block) (window : list Block) (tip : Block) :
  longest_chain S = older ++ anchor :: window →
  length window = 10%nat →
  last window = Some tip →
  timestamp tip - timestamp anchor = 1200 →
  ∃ d,
    calculate_difficulty S = inr d ∧
    d = Zsum (difficulty <$> window) / 1200 * 120 ∧
    10 * d ≤ Zsum (difficulty <$> window) < 10 * d + 1200 ∧
    ∀ D, Forall (λ b, difficulty b = D) window → d = D / 120 * 120.
Proof.
  intros Hc Hw Ht Hrate.
  rewrite (calculate_difficulty_long _ _ _ _ _ Hc Hw Ht), Hrate.
  change (1200 =? 0) with false. cbv iota.
  eexists. split; [reflexivity|]. split; [reflexivity|].
  set (total := Zsum (difficulty <$> window)).
  pose proof (Z.mul_div_le total 1200 ltac:(lia)).
  pose proof (Z.mul_succ_div_gt total 1200 ltac:(lia)).
  split; [lia|]. intros D Hall.
  assert (total = 10 * D) as ->.
  { unfold total. clear -Hw Hall.
    assert (∀ l : list Block, Forall (λ b, difficulty b = D) l →
              Zsum (difficulty <$> l) = Z.of_nat (length l) * D) as Hsum.
    { induction 1 as [|b bs Hb _ IH]; [done|].
      rewrite fmap_cons. unfold Zsum in *. cbn [foldr length].
      rewrite IH, Hb. lia. }
    rewrite (Hsum _ Hall), Hw. lia. }
  change 1200 with (10 * 120). by rewrite Z.div_mul_cancel_l.
Qed.

End Properties.

(** * The theorems at work on the example data *)

Import Example.
#[local] Existing Instance stub_crypto.

Lemma world1_wf : wf world1.1 (user_states world1.2).
Proof. apply wf_check; vm_compute; reflexivity. Qed.

Lemma failed_block_leaves_reward_witness :
  ∃ h',
    verify_and_apply_block second_bad (world1.1, world1.2)
    = ((h', world1.2), inl (AssertionError SenderHashLength)) ∧
    h' !!! 0%nat = mkUserState (balance (world1.1 !!! 0%nat) + 10000)
                               (nonce (world1.1 !!! 0%nat)) ∧
    ledger_of h' (user_states world1.2) (miner second_bad)
    ≠ ledger_of world1.1 (user_states world1.2) (miner second_bad).
Proof.
  apply (failed_block_leaves_reward second_bad world1.2 world1.1
           ill_formed [] 0%nat (mkFloat 4611686018427388 194)).
  - vm_compute; reflexivity.
  - vm_compute; reflexivity.
  - intros tip [= <-]; vm_compute; discriminate.
  - vm_compute; reflexivity.
  - vm_compute; reflexivity.
  - vm_compute; lia.
  - vm_compute; reflexivity.
  - vm_compute; reflexivity.
  - vm_compute; reflexivity.
  - vm_compute; reflexivity.
  - vm_compute; lia.
  - vm_compute; reflexivity.
  - vm_compute; lia.
Defined.

Lemma apply_then_undo_restores_witness :
  ∃ w2,
    undo_last_block world2 = (w2, inr tt) ∧
    longest_chain w2.2 = longest_chain world1.2 ∧
    total_difficulty w2.2 = total_difficulty world1.2 ∧
    wf w2.1 (user_states w2.2) ∧
    ∀ k, ledger_of w2.1 (user_states w2.2) k
         = ledger_of world1.1 (user_states world1.2) k.
Proof.
  apply (apply_then_undo_restores second world1 world2 tt).
  - exact world1_wf.
  - vm_compute; reflexivity.
Defined.

Lemma verify_reorg_isolation_witness :
  take (length world2.1) (verify_reorg world2.2 short_branch world2.1).1
  = world2.1 ∧
  (dict_alloc world2.1 (user_states world2.2) →
   view (verify_reorg world2.2 short_branch world2.1).1 (user_states world2.2)
   = view world2.1 (user_states world2.2) ∧
   ∀ k, ledger_of (verify_reorg world2.2 short_branch world2.1).1
          (user_states world2.2) k
        = ledger_of world2.1 (user_states world2.2) k).
Proof.
  apply (verify_reorg_isolation world2.2 short_branch world2.1 _
           (inl (AssertionError LowerTotalDifficulty))).
  vm_compute; reflexivity.
Defined.

Lemma verify_reorg_strictly_greater_witness :
  (total_difficulty world1.2 < total_difficulty reorged_state ∧
   (∃ kept, kept `prefix_of` longest_chain world1.2 ∧
            longest_chain reorged_state = kept ++ long_branch) ∧
   (td_consistent world1.2 →
    chain_difficulty (longest_chain world1.2)
    < chain_difficulty (longest_chain reorged_state))) ∧
  verify_reorg world1.2 short_branch world1.1
  = (replay_short.1, inl (AssertionError LowerTotalDifficulty)).
Proof.
  split.
  - apply (proj1 (verify_reorg_strictly_greater world1.2 long_branch world1.1
                    reorg_long.1) reorged_state).
    vm_compute; reflexivity.
  - apply (proj2 (verify_reorg_strictly_greater world1.2 short_branch world1.1
                    replay_short.1) replayed_state).
    + vm_compute; reflexivity.
    + vm_compute; discriminate.
Defined.

Lemma calculate_difficulty_spec_witness :
  calculate_difficulty eleven = inr 1200000.
Proof.
  apply (calculate_difficulty_spec eleven).
  - reflexivity.
  - apply Forall_replicate. split; reflexivity.
Defined.

Lemma update_states_refines_spec_witness :
  match update_states second (user_states world1.2) MINING_REWARD world1.1,
        spec_apply_block second (ledger_of world1.1 (user_states world1.2)) with
  | (h', inr d'), inr P' => wf h' d' ∧ ∀ k, ledger_of h' d' k = P' k
  | (_, inl e), inl e' => e = e'
  | _, _ => False
  end ∧
  ∃ h1 d1 l h2 d2,
    earn_into (user_states world1.2) (miner second) 25 false world1.1
    = (h1, inr d1) ∧
    items d1 !! miner second = Some l ∧
    balance (h1 !!! l)
    = balance (ledger_of world1.1 (user_states world1.2) (miner second)) + 25 ∧
    spend_into d1 alice 3000 false h1 = (h2, inr d2) ∧
    items d2 !! miner second = Some l ∧
    h2 !!! l = mkUserState
                 (balance (ledger_of world1.1 (user_states world1.2)
                             (miner second)) + 25 - 3000)
                 (nonce (ledger_of world1.1 (user_states world1.2)
                           (miner second)) + 1) ∧
    ∀ (P P' : ledger),
      spec_transaction (miner second) (transfer alice_key bob 3000 25 0) P
      = inr P' →
      0 < 3000 ≤ balance (P (miner second)).
Proof.
  destruct (update_states_refines_spec second (user_states world1.2) world1.1
              world1_wf) as [Hrefines Hfee].
  split; [exact Hrefines|].
  apply (Hfee (transfer alice_key bob 3000 25 0) (user_states world1.2)
           world1.1 world1_wf).
  - vm_compute; reflexivity.
  - vm_compute; reflexivity.
Defined.

Lemma verify_succeeds_iff_witness :
  verify (transfer alice_key bob 3000 25 0) 10000 (-1) = inr true.
Proof.
  apply (verify_succeeds_iff (transfer alice_key bob 3000 25 0) 10000 (-1)).
  split; [reflexivity|]. split; [reflexivity|]. split; [reflexivity|].
  split; [simpl; lia|]. split; [simpl; lia|]. split; [reflexivity|].
  exists (le_digits 8 3000), (le_digits 8 25), (le_digits 8 0), [x01].
  repeat split; vm_compute; reflexivity.
Defined.

Lemma accepted_block_mints_reward_witness :
  total_supply world2.1 (user_states world2.2)
  = total_supply world1.1 (user_states world1.2) + 10000.
Proof.
  apply (accepted_block_mints_reward second 1000
           (user_states world1.2) (user_states world2.2) world1.1 world2.1).
  - exact world1_wf.
  - vm_compute; reflexivity.
Defined.

Lemma get_changes_for_undo_keeps_input_witness :
  let '(h', r) :=
    get_changes_for_undo second (user_states world2.2) MINING_REWARD world2.1 in
  take (length world2.1) h' = world2.1 ∧
  (dict_alloc world2.1 (user_states world2.2) →
   view h' (user_states world2.2) = view world2.1 (user_states world2.2)) ∧
  ∀ undone, r = inr undone → dict_above (length world2.1) h' undone.
Proof.
  apply (get_changes_for_undo_keeps_input second (user_states world2.2)
           MINING_REWARD world2.1).
Defined.

Lemma pow_test_float_target_witness :
  ∃ m e,
    pow_target 1000 = inr (mkFloat m e) ∧
    0 ≤ e ∧ 2 ^ 52 ≤ m ≤ 2 ^ 53 ∧
    2 * Z.abs (m * 2 ^ e * 1000 - 2 ^ 256) ≤ 2 ^ e * 1000 ∧
    (2 * Z.abs (m * 2 ^ e * 1000 - 2 ^ 256) = 2 ^ e * 1000 →
     Z.even m = true) ∧
    (∀ digest,
       pow_test digest (mkFloat m e) = true ↔
       int_from_bytes_big digest ≤ m * 2 ^ e) ∧
    (∀ B dict h h' dict',
       difficulty B = 1000 →
       verify_and_get_changes B 1000 dict h = (h', inr dict') →
       int_from_bytes_big (block_id B) ≤ m * 2 ^ e) ∧
    (∀ B dict h,
       difficulty B = 1000 →
       block_hash (previous B) (miner B) (transactions B) (timestamp B)
         (difficulty B) (block_nonce B) = inr (block_id B) →
       (length (transactions B) ≤ 25)%nat →
       length (miner B) = 20%nat →
       ¬ int_from_bytes_big (block_id B) ≤ m * 2 ^ e →
       verify_and_get_changes B 1000 dict h
       = (h, inl (AssertionError InvalidProofOfWork))) ∧
    (∀ fuel block_description nonce,
       puzzle_solver fuel 0 block_description (mkFloat m e)
       = Some (inr nonce) →
       int_from_bytes_big (SHA256 (block_description ++ le_digits 8 nonce))
       ≤ m * 2 ^ e ∧
       ∀ j, 0 ≤ j < nonce →
            ¬ int_from_bytes_big (SHA256 (block_description ++ le_digits 8 j))
              ≤ m * 2 ^ e).
Proof. apply (pow_test_float_target 1000). lia. Defined.


(** * The further properties at work on the example data *)

Import Scenario.
#[local] Existing Instance stub_signer.

Lemma world2_wf : wf world2.1 (user_states world2.2).
Proof. apply wf_check; vm_compute; reflexivity. Qed.

(** [world2] was reached by two accepted blocks. *)
Lemma world2_history : accepted_history world2.
Proof.
  apply (history_apply world1 world2 second).
  - apply (history_apply ([], empty_state) world1 genesis).
    + apply history_init.
    + vm_compute; reflexivity.
  - vm_compute; reflexivity.
Qed.

(** [world1_after_rejection] was reached with a rejected block. *)
Lemma world1_after_rejection_reachable : reachable world1_after_rejection.
Proof.
  apply (reachable_apply world1 world1_after_rejection second_bad
           (inl (AssertionError SenderHashLength))).
  - apply (reachable_apply ([], empty_state) world1 genesis (inr tt)).
    + apply reachable_init.
    + vm_compute; reflexivity.
  - vm_compute; reflexivity.
Qed.

Lemma created_transaction_verifies_witness :
  verify (transfer alice_key bob 3000 25 0) 10000 (-1) = inr true ↔
  length bob = 20%nat ∧ 0 < 3000 ≤ 10000 ∧ 0 ≤ 25 ≤ 3000 ∧ 0 = -1 + 1.
Proof.
  apply (created_transaction_verifies
           ([x01] : @PrivateKey stub_crypto stub_signer) bob 3000 25 0 []
           (transfer alice_key bob 3000 25 0) 10000 (-1)).
  - intros digest; vm_compute; reflexivity.
  - vm_compute; reflexivity.
  - vm_compute; reflexivity.
Defined.

Lemma create_signed_transaction_range_witness :
  (0 ≤ 3000 < 2 ^ 64 ∧ 0 ≤ 25 < 2 ^ 64 ∧ 0 ≤ 0 < 2 ^ 64 →
   ∃ t, create_signed_transaction
          ([x01] : @PrivateKey stub_crypto stub_signer) bob 3000 25 0 []
        = inr t ∧
        sender_hash t = SHA1 (public_bytes (public_key [x01])) ∧
        sender_public_key t = KeyObject (public_key [x01]) ∧
        recipient_hash t = bob ∧
        amount t = 3000 ∧ fee t = 25 ∧ tx_nonce t = 0 ∧
        signature t = ecdsa_sign [x01]
          (SHA256 (bob ++ le_digits 8 3000 ++ le_digits 8 25
                   ++ le_digits 8 0)) [] ∧
        txid t = SHA256 (sender_hash t ++ bob
                         ++ public_bytes (public_key [x01])
                         ++ le_digits 8 3000 ++ le_digits 8 25
                         ++ le_digits 8 0 ++ signature t)) ∧
  (¬ (0 ≤ 3000 < 2 ^ 64 ∧ 0 ≤ 25 < 2 ^ 64 ∧ 0 ≤ 0 < 2 ^ 64) →
   create_signed_transaction
     ([x01] : @PrivateKey stub_crypto stub_signer) bob 3000 25 0 []
   = inl OverflowError).
Proof.
  apply (create_signed_transaction_range
           ([x01] : @PrivateKey stub_crypto stub_signer) bob 3000 25 0 []).
Defined.

Lemma header_rejection_changes_nothing_witness :
  (verify_and_apply_block genesis world1).1 = world1.
Proof.
  apply (header_rejection_changes_nothing genesis world1
           (AssertionError WrongHeight)).
  - vm_compute; reflexivity.
  - reflexivity.
Defined.

Lemma undo_last_block_not_atomic_witness :
  ∃ h',
    undo_last_block orphaned
    = ((h', mkState [] (user_states orphaned.2)
              (total_difficulty orphaned.2 - difficulty genesis)),
       inl KeyError) ∧
    take (length orphaned.1) h' = orphaned.1.
Proof.
  apply (undo_last_block_not_atomic orphaned [] genesis).
  - reflexivity.
  - reflexivity.
  - reflexivity.
Defined.

Lemma verify_reorg_empty_branch_witness :
  ∃ h', verify_reorg world1.2 [] world1.1 = (h', inl IndexError) ∧
        take (length world1.1) h' = world1.1.
Proof. apply (verify_reorg_empty_branch world1.2 world1.1). Defined.

Lemma slow_window_stalls_chain_witness :
  calculate_difficulty stalled.2 = inr 0 ∧
  ∀ B, ∃ e, verify_and_apply_block B stalled = (stalled, inl e).
Proof.
  apply (slow_window_stalls_chain stalled [] genesis (replicate 10 late)
           late).
  - reflexivity.
  - reflexivity.
  - reflexivity.
  - vm_compute. split; [discriminate|reflexivity].
Defined.

Lemma puzzle_solver_terminates_witness :
  (∃ n, puzzle_solver 2 last_nonce [] (mkFloat 1 0) = Some (inr n) ∧
        last_nonce ≤ n < 2 ^ 64 ∧
        pow_test (SHA256 ([] ++ le_digits 8 n)) (mkFloat 1 0) = true ∧
        ∀ j, last_nonce ≤ j < n →
             pow_test (SHA256 ([] ++ le_digits 8 j)) (mkFloat 1 0) = false) ∨
  (puzzle_solver 2 last_nonce [] (mkFloat 1 0) = Some (inl OverflowError) ∧
   ∀ j, last_nonce ≤ j < 2 ^ 64 →
        pow_test (SHA256 ([] ++ le_digits 8 j)) (mkFloat 1 0) = false).
Proof.
  apply (puzzle_solver_terminates 2 last_nonce [] (mkFloat 1 0)).
  - unfold last_nonce; lia.
  - unfold last_nonce; lia.
Defined.

Lemma mine_block_outcome_witness :
  (¬ 0 ≤ 0 < 2 ^ 64 →
   mine_block ample_fuel (zero_bytes 32) 0 alice [] 0 1000
   = Some (inl OverflowError)) ∧
  (0 ≤ 0 < 2 ^ 64 → ¬ 0 ≤ 1000 < 2 ^ 128 →
   mine_block ample_fuel (zero_bytes 32) 0 alice [] 0 1000
   = Some (inl OverflowError)) ∧
  (0 ≤ 0 < 2 ^ 64 → 1000 = 0 →
   mine_block ample_fuel (zero_bytes 32) 0 alice [] 0 1000
   = Some (inl ZeroDivisionError)) ∧
  (0 ≤ 0 < 2 ^ 64 → 1 ≤ 1000 < 2 ^ 128 →
   ∃ target,
     pow_target 1000 = inr target ∧
     let description :=
       zero_bytes 32 ++ alice ++ concat (map txid []) ++ le_digits 8 0
       ++ le_digits 16 1000 in
     (∃ n,
        mine_block ample_fuel (zero_bytes 32) 0 alice [] 0 1000
        = Some (inr (mkBlock (zero_bytes 32) 0 alice [] 0 1000
                       (SHA256 (description ++ le_digits 8 n)) n)) ∧
        0 ≤ n < 2 ^ 64 ∧
        pow_test (SHA256 (description ++ le_digits 8 n)) target = true ∧
        ∀ j, 0 ≤ j < n →
             pow_test (SHA256 (description ++ le_digits 8 j)) target
             = false) ∨
     (mine_block ample_fuel (zero_bytes 32) 0 alice [] 0 1000
      = Some (inl OverflowError) ∧
      ∀ j, 0 ≤ j < 2 ^ 64 →
           pow_test (SHA256 (description ++ le_digits 8 j)) target = false)).
Proof.
  apply (mine_block_outcome ample_fuel (zero_bytes 32) 0 alice [] 0 1000).
  unfold ample_fuel; lia.
Defined.

Lemma pow_target_power_of_two_witness :
  ∃ target,
    pow_target (2 ^ 0) = inr target ∧
    2 ^ 256 / 2 ^ 0 = 2 ^ (256 - 0) ∧
    (∀ digest,
       pow_test digest target = true ↔
       int_from_bytes_big digest ≤ 2 ^ (256 - 0)) ∧
    (0 = 0 → ∀ digest, (length digest ≤ 32)%nat →
             pow_test digest target = true).
Proof. apply (pow_target_power_of_two 0). lia. Defined.

Lemma mined_block_accepted_iff_transactions_valid_witness :
  match spec_apply_block second (ledger_of world1.1 (user_states world1.2)) with
  | inr P' =>
      ∃ w', verify_and_apply_block second world1 = (w', inr tt) ∧
            longest_chain w'.2 = longest_chain world1.2 ++ [second] ∧
            total_difficulty w'.2 = total_difficulty world1.2 + 1000 ∧
            wf w'.1 (user_states w'.2) ∧
            ∀ k, ledger_of w'.1 (user_states w'.2) k = P' k
  | inl e => ∃ h', verify_and_apply_block second world1 = ((h', world1.2), inl e)
  end.
Proof.
  apply (mined_block_accepted_iff_transactions_valid 1 world1 alice
           [transfer alice_key bob 3000 25 0] 0 1000 second).
  - apply wf_check; vm_compute; reflexivity.
  - vm_compute; reflexivity.
  - vm_compute; reflexivity.
  - vm_compute; reflexivity.
  - vm_compute; lia.
  - intros tip [= <-]; vm_compute; discriminate.
Defined.

Lemma mined_empty_block_is_accepted_witness :
  ∃ w', verify_and_apply_block second_bob world1 = (w', inr tt) ∧
        longest_chain w'.2 = longest_chain world1.2 ++ [second_bob] ∧
        total_difficulty w'.2 = total_difficulty world1.2 + 1000 ∧
        ∀ k, ledger_of w'.1 (user_states w'.2) k
             = if decide (k = bob)
               then mkUserState
                      (balance (ledger_of world1.1 (user_states world1.2) bob)
                       + 10000)
                      (nonce (ledger_of world1.1 (user_states world1.2) bob))
               else ledger_of world1.1 (user_states world1.2) k.
Proof.
  apply (mined_empty_block_is_accepted 1 world1 bob 0 1000 second_bob).
  - apply wf_check; vm_compute; reflexivity.
  - vm_compute; reflexivity.
  - vm_compute; reflexivity.
  - vm_compute; reflexivity.
  - intros tip [= <-]; vm_compute; discriminate.
Defined.

Lemma accepted_block_is_well_formed_witness :
  difficulty second = 1000 ∧
  1 ≤ difficulty second < 2 ^ 128 ∧
  0 ≤ timestamp second < 2 ^ 64 ∧
  0 ≤ block_nonce second < 2 ^ 64 ∧
  block_id second = SHA256 (previous second ++ miner second
                            ++ concat (map txid (transactions second))
                            ++ le_digits 8 (timestamp second)
                            ++ le_digits 16 (difficulty second)
                            ++ le_digits 8 (block_nonce second)) ∧
  (length (transactions second) ≤ 25)%nat ∧
  length (miner second) = 20%nat ∧
  Forall (λ t,
      length (sender_hash t) = 20%nat ∧
      length (recipient_hash t) = 20%nat ∧
      sender_hash t = SHA1 (pk_serialize_ser (sender_public_key t)) ∧
      0 < amount t < 2 ^ 64 ∧
      0 ≤ fee t ≤ amount t ∧
      0 ≤ tx_nonce t < 2 ^ 64 ∧
      txid t = SHA256 (sender_hash t ++ recipient_hash t
                       ++ pk_serialize_ser (sender_public_key t)
                       ++ le_digits 8 (amount t) ++ le_digits 8 (fee t)
                       ++ le_digits 8 (tx_nonce t) ++ signature t) ∧
      ∃ k, pk_serialize_des (sender_public_key t) = inr k ∧
           ecdsa_verify k (signature t)
             (SHA256 (recipient_hash t ++ le_digits 8 (amount t)
                      ++ le_digits 8 (fee t) ++ le_digits 8 (tx_nonce t)))
           = true)
    (transactions second).
Proof.
  apply (accepted_block_is_well_formed second 1000 (user_states world1.2)
           (user_states world2.2) world1.1 world2.1).
  vm_compute; reflexivity.
Defined.

Lemma accepted_block_nonces_consecutive_witness :
  (∀ i t,
     transactions second !! i = Some t →
     tx_nonce t
     = nonce (ledger_of world1.1 (user_states world1.2) (sender_hash t)) + 1
       + Z.of_nat (length (filter (λ t', sender_hash t' = sender_hash t)
                             (take i (transactions second))))) ∧
  NoDup (transactions second).
Proof.
  apply (accepted_block_nonces_consecutive second 1000 (user_states world1.2)
           (user_states world2.2) world1.1 world2.1).
  - apply wf_check; vm_compute; reflexivity.
  - vm_compute; reflexivity.
Defined.

Lemma accepted_block_no_overdraft_witness :
  0 ≤ balance (ledger_of world2.1 (user_states world2.2) bob) ∧
  -1 ≤ nonce (ledger_of world2.1 (user_states world2.2) bob).
Proof.
  refine (accepted_block_no_overdraft second 1000 (user_states world1.2)
            (user_states world2.2) world1.1 world2.1 _ _ _ bob).
  - apply wf_check; vm_compute; reflexivity.
  - apply ledger_bounds_check; vm_compute; reflexivity.
  - vm_compute; reflexivity.
Defined.

Lemma get_changes_for_undo_subtracts_block_witness :
  ∃ h' d',
    get_changes_for_undo second (user_states world2.2) MINING_REWARD world2.1
    = (h', inr d') ∧
    wf h' d' ∧
    default_factory d' = Some default_user_state ∧
    (∀ k, ledger_of h' d' k
          = unshift (ledger_of world2.1 (user_states world2.2) k)
              (block_delta second k)) ∧
    total_supply h' d' = total_supply world2.1 (user_states world2.2) - 10000.
Proof.
  apply (get_changes_for_undo_subtracts_block second (user_states world2.2)
           world2.1).
  - apply wf_check; vm_compute; reflexivity.
  - vm_compute; reflexivity.
Defined.

Lemma verify_reorg_chain_witness :
  0 ≤ height genesis_bob ≤ len (longest_chain world1.2) ∧
  longest_chain reorged_state
  = take (Z.to_nat (height genesis_bob)) (longest_chain world1.2)
    ++ genesis_bob :: [second_bob] ∧
  total_difficulty reorged_state
  = total_difficulty world1.2
    - chain_difficulty (drop (Z.to_nat (height genesis_bob))
                          (longest_chain world1.2))
    + chain_difficulty (genesis_bob :: [second_bob]) ∧
  Forall (λ b, height genesis_bob ≤ height b)
    (drop (Z.to_nat (height genesis_bob)) (longest_chain world1.2)) ∧
  total_difficulty world1.2 < total_difficulty reorged_state.
Proof.
  apply (verify_reorg_chain world1.2 genesis_bob [second_bob] world1.1
           reorg_long.1 reorged_state).
  vm_compute; reflexivity.
Defined.

Lemma history_ledger_is_replay_witness :
  ∃ P, replay (longest_chain world2.2) empty_ledger = inr P ∧
       ∀ k, ledger_of world2.1 (user_states world2.2) k = P k.
Proof. apply (history_ledger_is_replay world2). exact world2_history. Defined.

Lemma history_supply_witness :
  total_supply world2.1 (user_states world2.2)
  = 10000 * len (longest_chain world2.2).
Proof. apply (history_supply world2). exact world2_history. Defined.

Lemma history_chain_linked_witness :
  total_difficulty world2.2 = chain_difficulty (longest_chain world2.2) ∧
  ∀ i B, longest_chain world2.2 !! i = Some B →
         extends (take i (longest_chain world2.2)) B.
Proof. apply (history_chain_linked world2). exact world2_history. Defined.

Lemma history_no_overdraft_witness :
  0 ≤ balance (ledger_of world2.1 (user_states world2.2) alice) ∧
  -1 ≤ nonce (ledger_of world2.1 (user_states world2.2) alice).
Proof. exact (history_no_overdraft world2 world2_history alice). Defined.

Lemma reachable_undo_last_block_witness :
  (longest_chain world1_after_rejection.2 = [] →
   undo_last_block world1_after_rejection
   = (world1_after_rejection, inl IndexError)) ∧
  (∀ chain B,
     longest_chain world1_after_rejection.2 = chain ++ [B] →
     ∃ w', undo_last_block world1_after_rejection = (w', inr tt) ∧
           longest_chain w'.2 = chain ∧
           total_difficulty w'.2
           = total_difficulty world1_after_rejection.2 - difficulty B ∧
           ∀ k, ledger_of w'.1 (user_states w'.2) k
                = unshift
                    (ledger_of world1_after_rejection.1
                       (user_states world1_after_rejection.2) k)
                    (block_delta B k)).
Proof.
  apply (reachable_undo_last_block world1_after_rejection).
  exact world1_after_rejection_reachable.
Defined.

Lemma undo_then_apply_restores_witness :
  ∃ w1 w2,
    undo_last_block world2 = (w1, inr tt) ∧
    verify_and_apply_block second w1 = (w2, inr tt) ∧
    longest_chain w2.2 = longest_chain world2.2 ∧
    total_difficulty w2.2 = total_difficulty world2.2 ∧
    ∀ k, ledger_of w2.1 (user_states w2.2) k
         = ledger_of world2.1 (user_states world2.2) k.
Proof.
  apply (undo_then_apply_restores world2 [genesis] second).
  - exact world2_history.
  - vm_compute; reflexivity.
Defined.

Lemma history_no_replay_witness :
  NoDup ((λ t, (sender_hash t, tx_nonce t))
           <$> concat (transactions <$> longest_chain world2.2)) ∧
  ∀ t, t ∈ concat (transactions <$> longest_chain world2.2) →
       tx_nonce t
       ≤ nonce (ledger_of world2.1 (user_states world2.2) (sender_hash t)).
Proof. apply (history_no_replay world2). exact world2_history. Defined.

Lemma reachable_state_consistent_witness :
  wf world1_after_rejection.1 (user_states world1_after_rejection.2) ∧
  (longest_chain world1_after_rejection.2 ≠ [] →
   default_factory (user_states world1_after_rejection.2)
   = Some default_user_state) ∧
  total_difficulty world1_after_rejection.2
  = chain_difficulty (longest_chain world1_after_rejection.2).
Proof.
  apply (reachable_state_consistent world1_after_rejection).
  exact world1_after_rejection_reachable.
Defined.

Lemma calculate_difficulty_at_target_rate_witness :
  ∃ d,
    calculate_difficulty steady = inr d ∧
    d = Zsum (difficulty <$> replicate 9 genesis ++ [on_time]) / 1200 * 120 ∧
    10 * d ≤ Zsum (difficulty <$> replicate 9 genesis ++ [on_time])
    < 10 * d + 1200 ∧
    ∀ D, Forall (λ b, difficulty b = D) (replicate 9 genesis ++ [on_time]) →
         d = D / 120 * 120.
Proof.
  apply (calculate_difficulty_at_target_rate steady [] genesis
           (replicate 9 genesis ++ [on_time]) on_time).
  - reflexivity.
  - reflexivity.
  - reflexivity.
  - reflexivity.
Defined.
